(** * Distributed sample sort of hpat/hiframes_sort.py

    A shallow embedding of the sort operator of [hpat/hiframes_sort.py]:
    the sampler, the computation of the partition bounds on the root, the
    routing loop that fills the send counts, the shuffle and the code that
    [sort_distributed_run] emits around them; and of what the [Sort] node
    registers with the compiler passes: the array analysis, the distribution
    analysis, the visiting and the replacing of variables, the removal of
    dead columns and the use and def sets.

    Conventions.
    - Python integers are [Z]; the [np.int32] count arrays wrap around.
    - A numeric array is a [list Z]; a tuple of data columns is a list of
      columns over a value type [V].
    - Indexing follows Python: a negative index counts from the end, an index
      out of range raises, which is [None] here.
    - Float arithmetic ([/], [math.ceil], [min] against [1.0]) is carried out
      on exact rationals [Q].
    - The SPMD execution is modelled globally: the state is the list of the
      workers in rank order and a collective combines the values of all of
      them.
    - A variable of the intermediate representation is its name; a dict is
      the list of its entries in insertion order. *)

From Stdlib Require Import ZArith QArith Qround Qminmax Lia Lqa.
From stdpp Require Import base option list numbers sorting strings gmap.

Local Open Scope Z_scope.

(** ** Python helpers *)

Module Py.

(** [l[i]], with Python's negative indices; [None] is IndexError. *)
Definition getitem {A} (l : list A) (i : Z) : option A :=
  let n := Z.of_nat (length l) in
  let j := if i <? 0 then i + n else i in
  if (0 <=? j) && (j <? n) then l !! Z.to_nat j else None.

(** [l[i] = x]. *)
Definition setitem {A} (l : list A) (i : Z) (x : A) : option (list A) :=
  let n := Z.of_nat (length l) in
  let j := if i <? 0 then i + n else i in
  if (0 <=? j) && (j <? n) then Some (<[Z.to_nat j := x]> l) else None.

(** [range(n)]. *)
Definition range (n : Z) : list Z := seqZ 0 n.

(** [math.ceil(a / b)] on integers; [None] is ZeroDivisionError. *)
Definition ceil_div (a b : Z) : option Z :=
  if b =? 0 then None else Some (Qceiling (inject_Z a / inject_Z b)).

(** Storing into an [np.int32] cell keeps the low 32 bits, signed. *)
Definition wrap_int32 (x : Z) : Z := (x + 2 ^ 31) mod 2 ^ 32 - 2 ^ 31.

(** [arr.sum()] *)
Definition sum (l : list Z) : Z := foldr Z.add 0 l.

End Py.

(** ** Constants of the module *)

Definition MIN_SAMPLES : Z := 1000000.
Definition samplePointsPerPartitionHint : Z := 20.
Definition MPI_ROOT : Z := 0.

(** ** Sampler (lines 286-292 of [parallel_sort]) *)

Definition sampleSize (n_pes : Z) : Z :=
  Z.min (samplePointsPerPartitionHint * n_pes) MIN_SAMPLES.

Definition fraction (n_pes n_total : Z) : Q :=
  Qmin (inject_Z (sampleSize n_pes) / inject_Z (Z.max n_total 1)) 1.

Definition n_loc_samples (n_pes n_total n_local : Z) : Z :=
  Z.min (Qceiling (fraction n_pes n_total * inject_Z n_local)) n_local.

(** [np.random.randint(low, high, size)]: [size] draws from [[low, high)].
    The generator is a parameter: [rng k] is the raw value of the [k]-th draw.
    A negative size is a ValueError; an empty request draws nothing;
    otherwise an empty interval is a ValueError. *)
Definition randint (rng : nat → Z) (low high size : Z) : option (list Z) :=
  if size <? 0 then None
  else if size =? 0 then Some []
  else if high <=? low then None
  else Some ((λ k, low + rng k `mod` (high - low)) <$> seq 0 (Z.to_nat size)).

(** [key_arr[inds]] *)
Definition take_inds (key_arr : list Z) (inds : list Z) : option (list Z) :=
  mapM (Py.getitem key_arr) inds.

(** Lines 290-292: the indices are drawn and the keys at them taken. *)
Definition draw_samples (rng : nat → Z) (n_pes n_total : Z) (key_arr : list Z)
  : option (list Z) :=
  let n_local := Z.of_nat (length key_arr) in
  inds ← randint rng 0 n_local (n_loc_samples n_pes n_total n_local);
  take_inds key_arr inds.

(** ** Sorting (numpy's [ndarray.sort] and the local sort engine)

    Both are stable ascending sorts, and a stable sort has one result, so one
    insertion sort over (index, key) pairs stands for both: its first
    components are the permutation the sort applies, which is what lets the
    data columns follow their keys. *)

Fixpoint insert_pair (x : nat * Z) (l : list (nat * Z)) : list (nat * Z) :=
  match l with
  | [] => [x]
  | y :: l' => if x.2 <=? y.2 then x :: y :: l' else y :: insert_pair x l'
  end.

Fixpoint sort_pairs (l : list (nat * Z)) : list (nat * Z) :=
  match l with
  | [] => []
  | x :: l' => insert_pair x (sort_pairs l')
  end.

(** The indices of the keys in ascending key order, earlier rows first among
    equal keys. *)
Definition sort_perm (keys : list Z) : list nat := (sort_pairs (imap pair keys)).*1.

(** Move the elements of [l] as the permutation says: position [j] of the
    result holds [l[p[j]]]. *)
Definition permute {A} (p : list nat) (l : list A) : list A := omap (l !!.) p.

(** [all_samples.sort()] *)
Definition ndarray_sort (l : list Z) : list Z := permute (sort_perm l) l.

(** ** Bounds on the root (lines 299-305) *)

(** The loop [for i in range(n_pes - 1): bounds[i] = all_samples[...]]. *)
Fixpoint fill_bounds (all_samples : list Z) (step n_samples : Z)
    (idxs : list Z) (bounds : list Z) : option (list Z) :=
  match idxs with
  | [] => Some bounds
  | i :: idxs' =>
      v ← Py.getitem all_samples (Z.min ((i + 1) * step) (n_samples - 1));
      bounds' ← Py.setitem bounds i v;
      fill_bounds all_samples step n_samples idxs' bounds'
  end.

(** [empty_like_type(n, arr)]: an uninitialised array of [n] cells, here
    zeros; a negative length raises. *)
Definition empty_like_type (n : Z) : option (list Z) :=
  if n <? 0 then None else Some (replicate (Z.to_nat n) 0).

(** The body of [if my_rank == MPI_ROOT:], on the gathered samples. *)
Definition root_bounds (all_samples : list Z) (n_pes : Z) (bounds : list Z)
  : option (list Z) :=
  let all_samples := ndarray_sort all_samples in
  let n_samples := Z.of_nat (length all_samples) in
  step ← Py.ceil_div n_samples n_pes;
  fill_bounds all_samples step n_samples (Py.range (n_pes - 1)) bounds.

(** ** Shuffle metadata *)

(** An array field of [ShuffleMeta]. [alloc_shuffle_metadata] passes the very
    array [send_counts] (resp. [recv_counts]) as the placeholder of
    [send_disp] (resp. [recv_disp]): until [finalize_shuffle_meta] assigns a
    fresh array, the field is an alias of the counts. *)
Inductive DispField :=
  | AliasOfCounts
  | OwnArray (a : list Z).

Record ShuffleMeta := mkShuffleMeta {
  send_counts : list Z;
  recv_counts : list Z;
  out_arr : list Z;
  n_out : Z;
  send_disp_f : DispField;
  recv_disp_f : DispField;
}.

(** [shuffle_meta.send_disp] and [shuffle_meta.recv_disp], read through the
    alias. *)
Definition send_disp (m : ShuffleMeta) : list Z :=
  match send_disp_f m with AliasOfCounts => send_counts m | OwnArray a => a end.
Definition recv_disp (m : ShuffleMeta) : list Z :=
  match recv_disp_f m with AliasOfCounts => recv_counts m | OwnArray a => a end.

(** [np.zeros(n, np.int32)] and [np.empty(n, np.int32)] *)
Definition np_zeros (n : Z) : option (list Z) :=
  if n <? 0 then None else Some (replicate (Z.to_nat n) 0).

(** [shuff_meta_impl] (lines 371-375); the four string fields are [None]
    for a numeric array and are left out. *)
Definition alloc_shuffle_metadata (arr : list Z) (n_pes : Z) : option ShuffleMeta :=
  send_counts ← np_zeros n_pes;
  recv_counts ← np_zeros n_pes;
  Some (mkShuffleMeta send_counts recv_counts arr 0 AliasOfCounts AliasOfCounts).

(** [shuffle_meta.send_counts[node_id] += 1] *)
Definition update_shuffle_meta (m : ShuffleMeta) (node_id : Z) : option ShuffleMeta :=
  c ← Py.getitem (send_counts m) node_id;
  sc ← Py.setitem (send_counts m) node_id (Py.wrap_int32 (c + 1));
  Some (mkShuffleMeta sc (recv_counts m) (out_arr m) (n_out m)
          (send_disp_f m) (recv_disp_f m)).

(** ** Partition router (lines 313-317)

    The loop keeps [node_id] and the metadata; the destinations it passes to
    [update_shuffle_meta] are collected, in row order, as a ghost result. *)

(** [if node_id < (n_pes - 1) and key >= bounds[node_id]: node_id += 1] *)
Definition advance (n_pes : Z) (bounds : list Z) (key node_id : Z) : option Z :=
  if node_id <? n_pes - 1 then
    b ← Py.getitem bounds node_id;
    Some (if b <=? key then node_id + 1 else node_id)
  else Some node_id.

(** [for i in range(n_local):] over the keys [key_arr[0]], [key_arr[1]], ... *)
Fixpoint route_loop (n_pes : Z) (bounds : list Z) (keys : list Z)
    (node_id : Z) (m : ShuffleMeta) : option (list Z * ShuffleMeta) :=
  match keys with
  | [] => Some ([], m)
  | key :: keys' =>
      node_id' ← advance n_pes bounds key node_id;
      m' ← update_shuffle_meta m node_id';
      '(dests, m'') ← route_loop n_pes bounds keys' node_id' m';
      Some (node_id' :: dests, m'')
  end.

(** Lines 312-317: the metadata is allocated and the loop starts from
    [node_id = 0]. *)
Definition route (key_arr : list Z) (n_pes : Z) (bounds : list Z)
  : option (list Z * ShuffleMeta) :=
  shuffle_meta ← alloc_shuffle_metadata key_arr n_pes;
  route_loop n_pes bounds key_arr 0 shuffle_meta.

(** The destination the specification asks for: the number of boundaries
    less than or equal to the key. *)
Definition upper_bound (bounds : list Z) (x : Z) : Z :=
  Z.of_nat (length (filter (λ b, b ≤ x) bounds)).

(** ** Collectives and their trace

    The collectives of [hpat.distributed_api] are not part of this file; they
    are modelled from the interface the specification gives them (section 6).
    Every call is recorded, so that the communication a run performs can be
    read off its trace. *)

Inductive Collective :=
  | CReduce | CGatherv | CBcast | CAlltoall | CAlltoallv | CAlltoallvTup.

(** A computation that may raise and that appends to the trace. *)
Definition M (A : Type) : Type := list Collective → option (A * list Collective).

#[global] Instance M_ret : MRet M := λ A x tr, Some (x, tr).
#[global] Instance M_bind : MBind M := λ A B f m tr,
  match m tr with
  | Some (x, tr') => f x tr'
  | None => None
  end.

(** A local step that may raise. *)
Definition lift {A} (o : option A) : M A := λ tr,
  match o with Some x => Some (x, tr) | None => None end.

(** A collective call. *)
Definition call {A} (c : Collective) (o : option A) : M A := λ tr,
  match o with Some x => Some (x, tr ++ [c]) | None => None end.

(** Modelled from the spec: [globalCount], the sum reduction
    [dist_reduce(n_local, Sum)]; every worker gets the total. *)
Definition dist_reduce (n_locals : list Z) : M Z :=
  call CReduce (Some (Py.sum n_locals)).

(** Modelled from the spec: [gatherToRoot]; the root gets the samples of all
    the workers in rank order, the others an empty result. *)
Definition gatherv (samples : list (list Z)) : M (list (list Z)) :=
  call CGatherv
    (Some (imap (λ r _, if Z.of_nat r =? MPI_ROOT then concat samples else []) samples)).

(** Modelled from the spec: [broadcast]; every worker ends with the root's
    value. *)
Definition bcast {A} (bufs : list A) : M (list A) :=
  call CBcast
    (match bufs with
     | [] => Some []
     | _ => b ← bufs !! Z.to_nat MPI_ROOT; Some (replicate (length bufs) b)
     end).

(** Modelled from the spec: [exchangeCounts], the fixed size all-to-all:
    worker [w] receives from every source [s] the count [s] has for [w]. *)
Definition alltoall (sends : list (list Z)) : M (list (list Z)) :=
  call CAlltoall
    (mapM (λ w, mapM (λ send : list Z, send !! w) sends) (seq 0 (length sends))).

(** Modelled from the spec: the displacement offsets, the exclusive prefix
    sum of the counts ([hpat.hiframes_join.calc_disp]). *)
Fixpoint calc_disp_from (acc : Z) (counts : list Z) : list Z :=
  match counts with
  | [] => []
  | c :: counts' => acc :: calc_disp_from (acc + c) counts'
  end.
(** Modelled from the spec: [calc_disp(counts)], the prefix sum from 0. *)
Definition calc_disp (counts : list Z) : list Z := calc_disp_from 0 counts.

(** What a worker hands to the variable size all-to-all. *)
Record Side (A : Type) := mkSide {
  sendbuf : list A;
  recvbuf : list A;
  s_counts : list Z;
  r_counts : list Z;
  s_disp : list Z;
  r_disp : list Z;
}.
Arguments mkSide {A}.
Arguments sendbuf {A}.
Arguments recvbuf {A}.
Arguments s_counts {A}.
Arguments r_counts {A}.
Arguments s_disp {A}.
Arguments r_disp {A}.

(** Modelled from the spec: one source of [exchangeData]. Worker [w] receives
    the slice source [s] has for it: the slice [sendbuf[disp : disp + count]]
    of the source is written at the receive displacement. A count the two
    sides do not agree on, or a slice outside its buffer, is a protocol
    violation. *)
Definition recv_from {A} (w : nat) (me : Side A) (out : list A) (s : nat) (src : Side A)
  : option (list A) :=
  cnt ← s_counts src !! w;
  off ← s_disp src !! w;
  rcnt ← r_counts me !! s;
  roff ← r_disp me !! s;
  if decide (cnt = rcnt ∧ 0 ≤ cnt ∧ 0 ≤ off ∧ off + cnt ≤ Z.of_nat (length (sendbuf src))
             ∧ 0 ≤ roff ∧ roff + cnt ≤ Z.of_nat (length out))
  then Some (list_inserts (Z.to_nat roff)
               (take (Z.to_nat cnt) (drop (Z.to_nat off) (sendbuf src))) out)
  else None.

(** Modelled from the spec: worker [w] receives from the sources in rank
    order, starting at rank [s]. *)
Fixpoint recv_all {A} (w : nat) (me : Side A) (s : nat) (srcs : list (Side A))
    (out : list A) : option (list A) :=
  match srcs with
  | [] => Some out
  | src :: srcs' => out' ← recv_from w me out s src; recv_all w me (S s) srcs' out'
  end.

(** Modelled from the spec: [exchangeData], the variable size all-to-all, for
    one array: the receive buffer of worker [w] after the exchange. *)
Definition exchange_at {A} (sides : list (Side A)) (w : nat) : option (list A) :=
  me ← sides !! w;
  recv_all w me 0 sides (recvbuf me).

(** Modelled from the spec: [exchangeData], the receive buffers of all the
    workers. *)
Definition exchange {A} (sides : list (Side A)) : option (list (list A)) :=
  mapM (exchange_at sides) (seq 0 (length sides)).

(** ** The sort call on all the workers *)

Section Sort.
Context {V : Type} `{!Inhabited V}.

(** What a worker holds: its part of the key array and of every data column. *)
Record Worker := mkWorker {
  key_arr : list Z;
  data : list (list V);
}.

(** Modelled from the spec: the local sort engine [hpat.timsort.sort], which
    sorts the range [[lo, hi)] of the keys ascending and stably and moves the
    elements of every data column as it moves the keys. *)
Definition timsort_perm (keys : list Z) (lo hi : Z) : list nat :=
  let lo := Z.to_nat lo in
  let hi := Z.to_nat hi in
  seq 0 lo ++ ((λ i, lo + i)%nat <$> sort_perm (take (hi - lo) (drop lo keys)))
    ++ seq hi (length keys - hi).

(** Modelled from the spec: [hpat.timsort.sort(state, key_arr, lo, hi, data)],
    the keys and every column moved by the permutation of the sort. *)
Definition timsort_sort (w : Worker) (lo hi : Z) : Worker :=
  let p := timsort_perm (key_arr w) lo hi in
  mkWorker (permute p (key_arr w)) (permute p <$> data w).

(** The body of [sort_impl] (lines 199-209) on one worker; [to_string_list]
    and [cp_str_list_to_array] do nothing to a numeric array. *)
Definition sort_impl (w : Worker) : Worker :=
  let _sort_len := Z.of_nat (length (key_arr w)) in
  timsort_sort w 0 _sort_len.

(** Lines 297-305 on the worker of rank [my_rank]. *)
Definition local_bounds (my_rank : Z) (all_samples : list Z) (n_pes : Z)
  : option (list Z) :=
  bounds ← empty_like_type (n_pes - 1);
  if my_rank =? MPI_ROOT then root_bounds all_samples n_pes bounds
  else Some bounds.

(** [finalize_impl] (lines 384-389) after the counts came in. *)
Definition finalize_impl (m : ShuffleMeta) (recv : list Z) : option ShuffleMeta :=
  let n_out := Py.sum recv in
  out ← np_zeros n_out;
  Some (mkShuffleMeta (send_counts m) recv out n_out
          (OwnArray (calc_disp (send_counts m))) (OwnArray (calc_disp recv))).

(** [finalize_impl] on all the workers: the counts are exchanged, then every
    worker sizes its output and computes its displacements. *)
Definition finalize_shuffle_meta (metas : list ShuffleMeta) : M (list ShuffleMeta) :=
  recvs ← alltoall (send_counts <$> metas);
  lift (mapM (λ mr : ShuffleMeta * list Z, finalize_impl mr.1 mr.2) (zip metas recvs)).

(** The arguments [metadata.send_counts, metadata.recv_counts,
    metadata.send_disp, metadata.recv_disp] with a send and a receive buffer. *)
Definition side_of {A} (buf out : list A) (m : ShuffleMeta) : Side A :=
  mkSide buf out (send_counts m) (recv_counts m) (send_disp m) (recv_disp m).

(** [a2av_impl] (lines 399-402): the keys go into [out_arr]. *)
Definition alltoallv (keys : list (list Z)) (metas : list ShuffleMeta)
  : M (list ShuffleMeta) :=
  outs ← call CAlltoallv
    (exchange (zip_with (λ k m, side_of k (out_arr m) m) keys metas));
  mret (zip_with (λ m out, mkShuffleMeta (send_counts m) (recv_counts m) out
                    (n_out m) (send_disp_f m) (recv_disp_f m)) metas outs).

(** Modelled from the spec: [hpat.timsort.alloc_arr_tup], one fresh array of
    [n] cells per column. *)
Definition alloc_arr_tup (n : Z) (data : list (list V)) : option (list (list V)) :=
  if n <? 0 then None
  else Some ((λ _, replicate (Z.to_nat n) inhabitant) <$> data).

(** Modelled from the spec: [alltoallv_tup(data, out_data, send_counts,
    recv_counts, send_disp, recv_disp)], the variable size all-to-all of every
    column of the tuple, each with the vectors the call is given. Column [j]
    of worker [w] is received from column [j] of every worker. *)
Definition column_sides (j : nat) (datas out_datas : list (list (list V)))
    (send_counts recv_counts send_disp recv_disp : list (list Z))
  : option (list (Side V)) :=
  mapM (λ s : nat,
          d ← datas !! s; od ← out_datas !! s;
          col ← d !! j; out ← od !! j;
          sc ← send_counts !! s; rc ← recv_counts !! s;
          sd ← send_disp !! s; rd ← recv_disp !! s;
          Some (mkSide col out sc rc sd rd))
       (seq 0 (length datas)).

(** Modelled from the spec: [alltoallv_tup] on all the workers: worker [w]
    receives each of its columns. *)
Definition alltoallv_tup (datas out_datas : list (list (list V)))
    (send_counts recv_counts send_disp recv_disp : list (list Z))
  : M (list (list (list V))) :=
  call CAlltoallvTup
    (mapM (λ wd : nat * list (list V),
             mapM (λ j, sides ← column_sides j datas out_datas
                                   send_counts recv_counts send_disp recv_disp;
                        exchange_at sides wd.1)
                  (seq 0 (length wd.2)))
          (imap pair datas)).

(** [parallel_sort] (lines 279-327) on all the workers; [rng r] is the random
    generator of the worker of rank [r]. *)
Definition parallel_sort (rng : nat → nat → Z) (world : list Worker)
  : M (list Worker) :=
  let n_locals := (λ w, Z.of_nat (length (key_arr w))) <$> world in
  n_total ← dist_reduce n_locals;
  let n_pes := Z.of_nat (length world) in
  samples ← lift (mapM id (imap (λ r w, draw_samples (rng r) n_pes n_total (key_arr w)) world));
  all_samples ← gatherv samples;
  bounds ← lift (mapM id (imap (λ r a, local_bounds (Z.of_nat r) a n_pes) all_samples));
  bounds ← bcast bounds;
  routed ← lift (mapM (λ wb : Worker * list Z, route (key_arr wb.1) n_pes wb.2)
                      (zip world bounds));
  shuffle_meta ← finalize_shuffle_meta (routed.*2);
  shuffle_meta ← alltoallv (key_arr <$> world) shuffle_meta;
  out_data ← lift (mapM (λ wm : Worker * ShuffleMeta, alloc_arr_tup (n_out wm.2) (data wm.1))
                        (zip world shuffle_meta));
  out_data ← alltoallv_tup (data <$> world) out_data
                (send_counts <$> shuffle_meta) (recv_counts <$> shuffle_meta)
                (send_disp <$> shuffle_meta) (recv_disp <$> shuffle_meta);
  mret (zip_with (λ m d, mkWorker (out_arr m) d) shuffle_meta out_data).

(** [par_sort_impl] (lines 250-260): the shuffle, then a local sort of what
    was received. *)
Definition par_sort_impl (rng : nat → nat → Z) (world : list Worker)
  : M (list Worker) :=
  outs ← parallel_sort rng world;
  mret ((λ w, let n_out := Z.of_nat (length (key_arr w)) in timsort_sort w 0 n_out) <$> outs).

End Sort.
Arguments Worker : clear implicits.
Arguments mkWorker {V}.

(** ** Sort orchestrator *)

(** Modelled from the spec: the distribution descriptor of
    [hpat.distributed_analysis], with the three classifications the
    specification names; a smaller value is a weaker classification. *)
Inductive Distribution := REP | OneD_Var | OneD.

#[global] Instance Distribution_eq_dec : EqDecision Distribution.
Proof. solve_decision. Defined.

(** Modelled from the spec: the [value] of a classification, ordered from
    the weakest. *)
Definition Distribution_value (d : Distribution) : Z :=
  match d with REP => 1 | OneD_Var => 2 | OneD => 3 end.

(** Modelled from the spec: [Distribution(v)]; a number that is no value of
    the enumeration raises. *)
Definition Distribution_of_value (v : Z) : option Distribution :=
  if v =? 1 then Some REP
  else if v =? 2 then Some OneD_Var
  else if v =? 3 then Some OneD
  else None.

(** The [Sort] node: the name of the key variable and, per column name, the
    name of the column variable, in the order of the dictionary. *)
Record Sort := mkSort {
  df_in : string;
  sort_key_arr : string;
  df_vars : list (string * string);
}.

(** [sort_distributed_analysis] (lines 63-75); a name the dictionary lacks
    is a KeyError. *)
Fixpoint common_dist (array_dists : gmap string Distribution) (in_dist : Distribution)
    (col_vars : list string) : option Distribution :=
  match col_vars with
  | [] => Some in_dist
  | v :: col_vars' =>
      d ← array_dists !! v;
      in_dist' ← Distribution_of_value
                   (Z.min (Distribution_value in_dist) (Distribution_value d));
      common_dist array_dists in_dist' col_vars'
  end.

Definition sort_distributed_analysis (sort_node : Sort)
    (array_dists : gmap string Distribution) : option (gmap string Distribution) :=
  in_dist ← array_dists !! sort_key_arr sort_node;
  in_dist ← common_dist array_dists in_dist (df_vars sort_node).*2;
  let array_dists := foldl (λ ds v, <[v := in_dist]> ds) array_dists (df_vars sort_node).*2 in
  Some (<[sort_key_arr sort_node := in_dist]> array_dists).

(** The three blocks [sort_distributed_run] emits, each with the variables
    put in place of its arguments. *)
Inductive Stmt :=
  | SortImpl (key : string) (cols : list string)
  | TupImpl (cols : list string)
  | ParSortImpl (key : string) (cols : list string).

(** The loop of lines 175-178. *)
Fixpoint is_parallel (array_dists : gmap string Distribution) (parallel : bool)
    (vars : list string) : option bool :=
  match vars with
  | [] => Some parallel
  | v :: vars' =>
      d ← array_dists !! v;
      is_parallel array_dists
        (if bool_decide (d ≠ OneD) && bool_decide (d ≠ OneD_Var) then false else parallel)
        vars'
  end.

(** [sort_distributed_run] (lines 172-272). *)
Definition sort_distributed_run (sort_node : Sort)
    (array_dists : gmap string Distribution) : option (list Stmt) :=
  let data_vars := (df_vars sort_node).*2 in
  parallel ← is_parallel array_dists true (sort_key_arr sort_node :: data_vars);
  let key_arr := sort_key_arr sort_node in
  let nodes := [SortImpl key_arr data_vars] in
  if negb parallel then Some nodes
  else
    let nodes := nodes ++ [TupImpl data_vars] in
    let nodes := nodes ++ [ParSortImpl key_arr data_vars] in
    Some nodes.

Section Run.
Context {V : Type} `{!Inhabited V}.

(** What the emitted blocks do to the arrays of the workers. *)
Definition exec_stmt (rng : nat → nat → Z) (st : Stmt) (world : list (Worker V))
  : M (list (Worker V)) :=
  match st with
  | SortImpl _ _ => mret (sort_impl <$> world)
  | TupImpl _ => mret world
  | ParSortImpl _ _ => par_sort_impl rng world
  end.

Fixpoint exec_nodes (rng : nat → nat → Z) (nodes : list Stmt) (world : list (Worker V))
  : M (list (Worker V)) :=
  match nodes with
  | [] => mret world
  | st :: nodes' => world' ← exec_stmt rng st world; exec_nodes rng nodes' world'
  end.

(** One sort call: the blocks are emitted for the node, then run. *)
Definition sort_call (rng : nat → nat → Z) (sort_node : Sort)
    (array_dists : gmap string Distribution) (world : list (Worker V))
  : M (list (Worker V)) :=
  nodes ← lift (sort_distributed_run sort_node array_dists);
  exec_nodes rng nodes world.

End Run.

(** ** The node in the compiler passes *)

(** A Python dict in insertion order, here from column names to values. Its
    keys are distinct. *)
Module PyDict.

(** [d[k]]; [None] is KeyError. *)
Fixpoint getitem {A} (d : list (string * A)) (k : string) : option A :=
  match d with
  | [] => None
  | kv :: d' => if decide (kv.1 = k) then Some kv.2 else getitem d' k
  end.

(** [d[k] = v]: the value of a key the dict has is replaced where it stands,
    a new key is appended. *)
Fixpoint setitem {A} (d : list (string * A)) (k : string) (v : A) : list (string * A) :=
  match d with
  | [] => [(k, v)]
  | kv :: d' => if decide (kv.1 = k) then (k, v) :: d' else kv :: setitem d' k v
  end.

(** [d.pop(k)]: the entry of [k] is removed; [None] is KeyError. *)
Fixpoint pop {A} (d : list (string * A)) (k : string) : option (list (string * A)) :=
  match d with
  | [] => None
  | kv :: d' => if decide (kv.1 = k) then Some d' else d'' ← pop d' k; Some (kv :: d'')
  end.

End PyDict.

(** The first loop of [remove_dead_sort] (lines 105-109): the names of the
    columns whose variable is not live, in the order of the dict. *)
Definition dead_cols (df_vars : list (string * string)) (lives : gset string)
  : list string :=
  foldl (λ dead cv, if decide (cv.2 ∈ lives) then dead else dead ++ [cv.1]) [] df_vars.

(** The second loop (lines 111-112): [sort_node.df_vars.pop(cname)] for every
    dead column. *)
Fixpoint pop_cols (dead : list string) (df_vars : list (string * string))
  : option (list (string * string)) :=
  match dead with
  | [] => Some df_vars
  | cname :: dead' => df_vars' ← PyDict.pop df_vars cname; pop_cols dead' df_vars'
  end.

(** [remove_dead_sort] (lines 103-118). The outer [None] is an exception; the
    inner one is the [None] the function returns for a node that is removed,
    otherwise it returns the node, whose [df_vars] it has updated. *)
Definition remove_dead_sort (sort_node : Sort) (lives : gset string)
  : option (option Sort) :=
  df_vars' ← pop_cols (dead_cols (df_vars sort_node) lives) (df_vars sort_node);
  if bool_decide (length df_vars' = 0%nat) && bool_decide (sort_key_arr sort_node ∉ lives)
  then Some None
  else Some (Some (mkSort (df_in sort_node) (sort_key_arr sort_node) df_vars')).

(** [sort_usedefs] (lines 124-134): the use map and the def map; an argument
    that is [None] stands for a fresh empty set. *)
Definition sort_usedefs (sort_node : Sort) (use_set def_set : option (gset string))
  : gset string * gset string :=
  let use_set := default ∅ use_set in
  let def_set := default ∅ def_set in
  let use_set := use_set ∪ {[sort_key_arr sort_node]} in
  let use_set := use_set ∪ list_to_set (df_vars sort_node).*2 in
  (use_set, def_set).

(** The loop of lines 95-97 and of lines 152-154: for every column name of
    [list(sort_node.df_vars.keys())] the variable of the column is replaced by
    what [inner] makes of it. *)
Fixpoint replace_cols (inner : string → string) (names : list string)
    (df_vars : list (string * string)) : option (list (string * string)) :=
  match names with
  | [] => Some df_vars
  | col_name :: names' =>
      v ← PyDict.getitem df_vars col_name;
      replace_cols inner names' (PyDict.setitem df_vars col_name (inner v))
  end.

(** [visit_vars_sort] (lines 87-97), debug printing off. numba's
    [visit_vars_inner] is a parameter. *)
Definition visit_vars_sort {CB C} (visit_vars_inner : string → CB → C → string)
    (sort_node : Sort) (callback : CB) (cbdata : C) : option Sort :=
  let key_arr := visit_vars_inner (sort_key_arr sort_node) callback cbdata in
  df_vars' ← replace_cols (λ v, visit_vars_inner v callback cbdata)
                (df_vars sort_node).*1 (df_vars sort_node);
  Some (mkSort (df_in sort_node) key_arr df_vars').

(** [apply_copies_sort] (lines 147-156). numba's [replace_vars_inner] is a
    parameter. *)
Definition apply_copies_sort {D} (replace_vars_inner : string → D → string)
    (sort_node : Sort) (var_dict : D) : option Sort :=
  let key_arr := replace_vars_inner (sort_key_arr sort_node) var_dict in
  df_vars' ← replace_cols (λ v, replace_vars_inner v var_dict)
                (df_vars sort_node).*1 (df_vars sort_node);
  Some (mkSort (df_in sort_node) key_arr df_vars').

(** The numba types [to_string_list_typ] tells apart: the string array, a
    tuple with its component types ([types.Tuple] and [types.UniTuple], read
    through [count] and [types]), a list, the string, and any other type by
    its name. *)
#[warnings="-register-all"]
Inductive Typ :=
  | string_array_type
  | string_type
  | List (dtype : Typ)
  | Tuple (types : list Typ)
  | OtherType (name : string).

(** [to_string_list_typ] (lines 160-170). *)
Fixpoint to_string_list_typ (typ : Typ) : Typ :=
  match typ with
  | string_array_type => List string_type
  | Tuple types => Tuple (to_string_list_typ <$> types)
  | _ => typ
  end.

(** [typ == string_array_type] *)
Definition is_string_array (typ : Typ) : bool :=
  match typ with
  | string_array_type => true
  | _ => false
  end.

(** [col_shape[0]] for what numba's [equiv_set.get_shape] returned: a tuple
    of dimensions, or [None] when the shape is not known; indexing [None] or
    the empty tuple raises. *)
Definition first_dim {D} (col_shape : option (list D)) : option D :=
  shape ← col_shape; shape !! 0%nat.

(** The loop of lines 47-52 of [sort_array_analysis]. *)
Fixpoint column_shapes {D} (get_shape : string → option (list D))
    (typemap : gmap string Typ) (col_vars : list string) (all_shapes : list D)
  : option (list D) :=
  match col_vars with
  | [] => Some all_shapes
  | col_var :: col_vars' =>
      typ ← typemap !! col_var;
      if is_string_array typ then column_shapes get_shape typemap col_vars' all_shapes
      else
        d ← first_dim (get_shape col_var);
        column_shapes get_shape typemap col_vars' (all_shapes ++ [d])
  end.

(** [sort_array_analysis] (lines 39-57); numba's [equiv_set.get_shape] is a
    parameter. The result is the list of dimensions [equiv_set.insert_equiv]
    is called with, or [None] when it is not called; the function itself
    returns two empty lists. *)
Definition sort_array_analysis {D} (get_shape : string → option (list D))
    (sort_node : Sort) (typemap : gmap string Typ) : option (option (list D)) :=
  let col_shape := get_shape (sort_key_arr sort_node) in
  typ ← typemap !! sort_key_arr sort_node;
  all_shapes ← (if is_string_array typ then Some []
                else d ← first_dim col_shape; Some [d]);
  all_shapes ← column_shapes get_shape typemap (df_vars sort_node).*2 all_shapes;
  Some (if decide (1 < length all_shapes)%nat then Some all_shapes else None).

(** ** Notions the statements use *)

(** The order of the (index, key) pairs by key. *)
Definition key_le : relation (nat * Z) := λ a b, a.2 ≤ b.2.

(** The number of rows the routing loop counted toward destination [d]. *)
Definition count_dest (d : Z) (dests : list Z) : Z :=
  Z.of_nat (length (filter (λ x, x = d) dests)).

(** The node id the routing loop holds when it reaches row [i], having
    started from [init]. *)
Definition node_before (init : Z) (dests : list Z) (i : nat) : Z :=
  match i with
  | O => init
  | S i' => default 0 (dests !! i')
  end.

(** No element exceeds its predecessor ([prev] before the first) by more
    than one. *)
Fixpoint steps_le_one (prev : Z) (ds : list Z) : Prop :=
  match ds with
  | [] => True
  | d :: ds' => d ≤ prev + 1 ∧ steps_le_one d ds'
  end.

(** The slice of the send buffer [buf] that the counts [sc] of its owner
    assign to worker [w]: [sc[w]] cells from displacement [calc_disp(sc)[w]]. *)
Definition slice_for {A} (sc : list Z) (w : nat) (buf : list A) : list A :=
  take (Z.to_nat (sc !!! w)) (drop (Z.to_nat (calc_disp sc !!! w)) buf).

(** What worker [w] holds after an exchange in which the worker of rank [s]
    sends [bufs[s]] with the send counts [scs[s]]: the slices for [w], in the
    rank order of their sources. *)
Definition received {A} (scs : list (list Z)) (w : nat) (bufs : list (list A))
  : list A :=
  concat (zip_with (λ sc buf, slice_for sc w buf) scs bufs).

(** The counts worker [w] receives. *)
Definition recv_counts_of (scs : list (list Z)) (w : nat) : list Z :=
  (λ sc : list Z, sc !!! w) <$> scs.

(** The send counts of all the workers are well formed: one count per
    worker, none negative. *)
Definition counts_ok (scs : list (list Z)) : Prop :=
  Forall (λ sc, length sc = length scs ∧ Forall (Z.le 0) sc) scs.

(** What the worker of rank [s] hands to the exchange of the buffers [bufs]
    under the send counts [scs]. *)
Definition side_ok {A} (scs : list (list Z)) (s : nat) (buf : list A)
    (side : Side A) : Prop :=
  sendbuf side = buf
  ∧ s_counts side = scs !!! s
  ∧ s_disp side = calc_disp (scs !!! s)
  ∧ r_counts side = recv_counts_of scs s
  ∧ r_disp side = calc_disp (recv_counts_of scs s)
  ∧ length (recvbuf side) = Z.to_nat (Py.sum (recv_counts_of scs s)).

Definition sides_ok {A} (scs : list (list Z)) (bufs : list (list A))
    (sides : list (Side A)) : Prop :=
  length sides = length scs
  ∧ ∀ (s : nat) side, sides !! s = Some side → side_ok scs s (bufs !!! s) side.

(** The metadata of worker [w] once [finalize_shuffle_meta] has run, with
    [out] as its [out_arr]. *)
Definition final_meta (scs : list (list Z)) (w : nat) (out : list Z) : ShuffleMeta :=
  mkShuffleMeta (scs !!! w) (recv_counts_of scs w) out (Py.sum (recv_counts_of scs w))
    (OwnArray (calc_disp (scs !!! w))) (OwnArray (calc_disp (recv_counts_of scs w))).

(** The collective calls of one run of [parallel_sort], in order. *)
Definition shuffle_trace : list Collective :=
  [CReduce; CGatherv; CBcast; CAlltoall; CAlltoallv; CAlltoallvTup].

Section Rows.
Context {V : Type} `{!Inhabited V}.

(** What the workers hold after the exchange under the send counts [scs]:
    worker [w] has received its slices of the key arrays and, column by
    column, the same slices of the data columns. *)
Definition exchanged (scs : list (list Z)) (world : list (Worker V)) : list (Worker V) :=
  imap (λ w x,
          mkWorker (received scs w (key_arr <$> world))
            ((λ j, received scs w ((λ y : Worker V, data y !!! j) <$> world))
               <$> seq 0 (length (data x))))
       world.

(** A worker holds [N] data columns, each as long as its key array. *)
Definition wf_worker (N : nat) (x : Worker V) : Prop :=
  length (data x) = N ∧ Forall (λ c, length c = length (key_arr x)) (data x).

(** The rows a worker holds: row [i] is the key [i] with the value [i] of
    every column. *)
Definition rows_of (x : Worker V) : list (Z * list V) :=
  imap (λ i k, (k, (λ c : list V, c !!! i) <$> data x)) (key_arr x).

(** The rows of all the workers, in rank order, and their keys. *)
Definition all_rows (world : list (Worker V)) : list (Z * list V) :=
  concat (rows_of <$> world).
Definition all_keys (world : list (Worker V)) : list Z :=
  concat (key_arr <$> world).

(** Column [j] of a list of rows, and the worker that holds given rows as
    a key array and [N] columns. *)
Definition column (j : nat) (R : list (Z * list V)) : list V :=
  (λ r : Z * list V, r.2 !!! j) <$> R.
Definition worker_of (N : nat) (R : list (Z * list V)) : Worker V :=
  mkWorker (R.*1) ((λ j, column j R) <$> seq 0 N).

End Rows.

(** A string array occurs in a type, at the top or inside tuples. *)
Fixpoint has_string_array (typ : Typ) : bool :=
  match typ with
  | string_array_type => true
  | Tuple types => existsb has_string_array types
  | _ => false
  end.

(** The columns whose variable is live. *)
Definition live_cols (df_vars : list (string * string)) (lives : gset string)
  : list (string * string) :=
  filter (λ cv, cv.2 ∈ lives) df_vars.

(** The variables of a node: the key and the column variables. *)
Definition node_vars (sort_node : Sort) : list string :=
  sort_key_arr sort_node :: (df_vars sort_node).*2.

(** The variables of a list that are not string arrays. *)
Definition numeric_vars (typemap : gmap string Typ) (vars : list string) : list string :=
  filter (λ v, is_string_array <$> typemap !! v = Some false) vars.

(** ** Example inputs *)

(** The scenario of the specification: two workers, keys with a tag column. *)
Definition two_workers : list (Worker string) :=
  [mkWorker [5; 1; 9] [["a"; "b"; "c"]]; mkWorker [3; 8; 2] [["d"; "e"; "f"]]].

(** Three workers, the last one empty. *)
Definition three_workers : list (Worker string) :=
  [mkWorker [9; 1] [["i"; "a"]];
   mkWorker [8; 5; 7] [["h"; "e"; "g"]];
   mkWorker [] [[]]].

(** A generator whose draw [k] is [k], and one that draws [0] except for the
    second draw of the worker of rank 1. *)
Definition rng_count (r k : nat) : Z := Z.of_nat k.
Definition rng_low (r k : nat) : Z :=
  match r, k with
  | 1%nat, 1%nat => 1
  | _, _ => 0
  end.

(** A sort node over a key and one column, both one-dimensionally
    partitioned, and the same node with a replicated column. *)
Definition example_node : Sort := mkSort "df" "key" [("tag", "tag_arr")].
Definition partitioned_dists : gmap string Distribution :=
  <["key" := OneD]> (<["tag_arr" := OneD_Var]> ∅).
Definition replicated_dists : gmap string Distribution :=
  <["key" := OneD]> (<["tag_arr" := REP]> ∅).

(** Three workers whose keys are in order and spread over the whole range. *)
Definition striped_workers : list (Worker string) :=
  [mkWorker [1; 4; 7] [["a"; "d"; "g"]];
   mkWorker [2; 5; 8] [["b"; "e"; "h"]];
   mkWorker [3; 6; 9] [["c"; "f"; "i"]]].

(** A node with three columns, for the compiler passes. *)
Definition pass_node : Sort :=
  mkSort "df" "key" [("a", "a_arr"); ("b", "b_arr"); ("c", "c_arr")].

(** Classifications in which the column is weaker than the key, and a
    variable that is none of the node's. *)
Definition mixed_dists : gmap string Distribution :=
  <["key" := OneD]> (<["a_arr" := OneD_Var]> (<["other" := REP]> ∅)).

(** Types and shapes for the node of the passes: column [a] is a string
    array, whose shape is not known. *)
Definition pass_typemap : gmap string Typ :=
  <["key" := OtherType "array(int64, 1d, C)"]>
    (<["a_arr" := string_array_type]>
       (<["b_arr" := OtherType "array(float64, 1d, C)"]>
          (<["c_arr" := OtherType "array(int64, 1d, C)"]> ∅))).

Definition pass_shapes (v : string) : option (list string) :=
  if decide (v = "a_arr") then None else Some [v +:+ "_size0"].

(** * Properties *)

(** ** Indexing *)

Lemma getitem_nonneg {A} (l : list A) (i : Z) :
  0 ≤ i < Z.of_nat (length l) → Py.getitem l i = l !! Z.to_nat i.
Proof.
  intros Hi. unfold Py.getitem.
  destruct (Z.ltb_spec i 0); [lia|].
  destruct (Z.leb_spec 0 i); [|lia].
  destruct (Z.ltb_spec i (Z.of_nat (length l))); [done|lia].
Qed.

Lemma getitem_is_Some {A} (l : list A) (i : Z) :
  0 ≤ i < Z.of_nat (length l) → is_Some (Py.getitem l i).
Proof.
  intros Hi. rewrite getitem_nonneg by done.
  apply lookup_lt_is_Some. lia.
Qed.


Lemma setitem_nonneg {A} (l : list A) (i : Z) (x : A) :
  0 ≤ i < Z.of_nat (length l) → Py.setitem l i x = Some (<[Z.to_nat i := x]> l).
Proof.
  intros Hi. unfold Py.setitem.
  destruct (Z.ltb_spec i 0); [lia|].
  destruct (Z.leb_spec 0 i); [|lia].
  destruct (Z.ltb_spec i (Z.of_nat (length l))); [done|lia].
Qed.

Lemma wrap_int32_small (x : Z) : - 2 ^ 31 ≤ x < 2 ^ 31 → Py.wrap_int32 x = x.
Proof. intros Hx. unfold Py.wrap_int32. rewrite Z.mod_small; lia. Qed.

Lemma sum_app (l1 l2 : list Z) : Py.sum (l1 ++ l2) = Py.sum l1 + Py.sum l2.
Proof. unfold Py.sum. induction l1 as [|x l1 IH]; simpl; lia. Qed.

Lemma sum_replicate_0 (n : nat) : Py.sum (replicate n 0) = 0.
Proof. induction n as [|n IH]; [done|]. unfold Py.sum in *. simpl. lia. Qed.

Lemma sum_insert (l : list Z) (i : nat) (x y : Z) :
  l !! i = Some x → Py.sum (<[i := y]> l) = Py.sum l - x + y.
Proof.
  revert i. induction l as [|a l IH]; intros [|i] Hi; simplify_eq/=.
  - unfold Py.sum. simpl. lia.
  - unfold Py.sum in *. simpl. rewrite (IH i Hi). lia.
Qed.

(** ** The sort *)

Lemma insert_pair_perm x l : insert_pair x l ≡ₚ x :: l.
Proof.
  induction l as [|y l IH]; simpl; [done|].
  destruct (x.2 <=? y.2); [done|].
  rewrite IH. apply Permutation_swap.
Qed.

Lemma sort_pairs_perm l : sort_pairs l ≡ₚ l.
Proof.
  induction l as [|x l IH]; simpl; [done|].
  by rewrite insert_pair_perm, IH.
Qed.

Lemma insert_pair_sorted x l :
  Sorted key_le l → Sorted key_le (insert_pair x l).
Proof.
  induction 1 as [|y l Hs IH Hhd]; simpl.
  - repeat constructor.
  - destruct (Z.leb_spec x.2 y.2) as [Hle|Hgt].
    + constructor; [by constructor|]. by constructor.
    + constructor; [done|].
      destruct l as [|z l]; simpl in *.
      * constructor. unfold key_le. lia.
      * destruct (Z.leb_spec x.2 z.2).
        -- constructor. unfold key_le. lia.
        -- inversion Hhd; subst. by constructor.
Qed.

Lemma sort_pairs_sorted l : Sorted key_le (sort_pairs l).
Proof.
  induction l as [|x l IH]; simpl; [constructor|].
  by apply insert_pair_sorted.
Qed.

Lemma imap_pair_fst {A} (l : list A) : (imap pair l).*1 = seq 0 (length l).
Proof.
  rewrite fmap_imap.
  rewrite (imap_ext _ (λ i _, id i)) by done.
  by rewrite (imap_seq_0 l id), list_fmap_id.
Qed.

Lemma imap_pair_snd {A} (l : list A) : (imap pair l).*2 = l.
Proof.
  rewrite fmap_imap.
  rewrite (imap_ext _ (const id)) by done.
  by rewrite imap_const, list_fmap_id.
Qed.

Lemma sort_perm_perm keys : sort_perm keys ≡ₚ seq 0 (length keys).
Proof.
  unfold sort_perm. rewrite sort_pairs_perm. by rewrite imap_pair_fst.
Qed.

Lemma sort_perm_length keys : length (sort_perm keys) = length keys.
Proof. by rewrite sort_perm_perm, length_seq. Qed.

Lemma permute_fmap {A B} (f : A → B) p (l : list A) :
  permute p (f <$> l) = f <$> permute p l.
Proof.
  unfold permute. rewrite list_fmap_omap.
  apply list_omap_ext. apply Forall2_same_length_lookup_2; [done|].
  intros i x y Hx Hy. simplify_eq. by rewrite list_lookup_fmap.
Qed.

Lemma permute_cons_S {A} (x : A) l p : permute (S <$> p) (x :: l) = permute p l.
Proof.
  unfold permute. induction p as [|i p IH]; [done|].
  csimpl. by rewrite IH.
Qed.

Lemma permute_seq {A} (l : list A) : permute (seq 0 (length l)) l = l.
Proof.
  induction l as [|x l IH]; [done|].
  simpl. rewrite <-fmap_S_seq.
  change (x :: permute (S <$> seq 0 (length l)) (x :: l) = x :: l).
  by rewrite permute_cons_S, IH.
Qed.

Lemma permute_perm {A} p (l : list A) :
  p ≡ₚ seq 0 (length l) → permute p l ≡ₚ l.
Proof.
  intros Hp. unfold permute. rewrite Hp. fold (permute (seq 0 (length l)) l).
  by rewrite permute_seq.
Qed.

Lemma permute_length {A} p (l : list A) :
  Forall (λ i, (i < length l)%nat) p → length (permute p l) = length p.
Proof.
  unfold permute. induction 1 as [|i p Hi _ IH]; [done|]. csimpl.
  destruct (lookup_lt_is_Some_2 l i Hi) as [x ->]. simpl. by f_equal.
Qed.

Lemma permute_pairs (keys : list Z) (l : list (nat * Z)) :
  Forall (λ x, keys !! x.1 = Some x.2) l → permute (l.*1) keys = l.*2.
Proof.
  unfold permute. induction 1 as [|x l Hx _ IH]; [done|].
  csimpl. rewrite Hx. simpl. by f_equal.
Qed.

Lemma ndarray_sort_pairs keys : ndarray_sort keys = (sort_pairs (imap pair keys)).*2.
Proof.
  unfold ndarray_sort, sort_perm. apply permute_pairs.
  rewrite sort_pairs_perm. apply Forall_forall. intros [i k] Hik.
  apply elem_of_lookup_imap in Hik as (j & y & ? & ?). by simplify_eq/=.
Qed.

Lemma ndarray_sort_perm keys : ndarray_sort keys ≡ₚ keys.
Proof.
  rewrite ndarray_sort_pairs, sort_pairs_perm. by rewrite imap_pair_snd.
Qed.

Lemma ndarray_sort_length keys : length (ndarray_sort keys) = length keys.
Proof. by rewrite ndarray_sort_perm. Qed.

Lemma Sorted_fmap_snd (l : list (nat * Z)) : Sorted key_le l → Sorted Z.le (l.*2).
Proof.
  induction 1 as [|x l Hs IH Hhd]; simpl; constructor; [done|].
  destruct Hhd; simpl; by constructor.
Qed.

Lemma ndarray_sort_sorted keys : Sorted Z.le (ndarray_sort keys).
Proof. rewrite ndarray_sort_pairs. apply Sorted_fmap_snd, sort_pairs_sorted. Qed.

(** ** The sampler *)

Lemma sampleSize_pos n_pes : 1 ≤ n_pes → 0 < sampleSize n_pes.
Proof. unfold sampleSize, samplePointsPerPartitionHint, MIN_SAMPLES. lia. Qed.

Lemma fraction_pos n_pes n_total : 1 ≤ n_pes → (0 < fraction n_pes n_total)%Q.
Proof.
  intros Hn. unfold fraction. apply Q.min_glb_lt; [|done].
  apply Qlt_shift_div_l.
  - change 0%Q with (inject_Z 0). rewrite <-Zlt_Qlt. lia.
  - rewrite Qmult_0_l. change 0%Q with (inject_Z 0).
    rewrite <-Zlt_Qlt. by apply sampleSize_pos.
Qed.

Lemma n_loc_samples_range n_pes n_total n_local :
  1 ≤ n_pes → 0 ≤ n_local → 0 ≤ n_loc_samples n_pes n_total n_local ≤ n_local.
Proof.
  intros Hn Hl. unfold n_loc_samples. split; [|lia].
  apply Z.min_glb; [|done].
  rewrite <-(Qceiling_Z 0). apply Qceiling_resp_le.
  apply Qmult_le_0_compat.
  - apply Qlt_le_weak. by apply fraction_pos.
  - change 0%Q with (inject_Z 0). by rewrite <-Zle_Qle.
Qed.

Lemma n_loc_samples_pos n_pes n_total n_local :
  1 ≤ n_pes → 0 < n_local → 0 < n_loc_samples n_pes n_total n_local.
Proof.
  intros Hn Hl. unfold n_loc_samples. apply Z.min_glb_lt; [|done].
  rewrite Zlt_Qlt. eapply Qlt_le_trans; [|apply Qle_ceiling].
  apply Qmult_lt_0_compat; [by apply fraction_pos|].
  change 0%Q with (inject_Z 0). by rewrite <-Zlt_Qlt.
Qed.


Lemma mapM_Some_fmap {A B} (f : A → option B) (g : A → B) (l : list A) :
  Forall (λ x, f x = Some (g x)) l → mapM f l = Some (g <$> l).
Proof.
  intros Hl. apply mapM_Some. apply Forall2_fmap_r.
  by apply Forall_Forall2_diag.
Qed.

Lemma take_inds_in_range (key_arr : list Z) (inds : list Z) :
  Forall (λ i, 0 ≤ i < Z.of_nat (length key_arr)) inds →
  take_inds key_arr inds = Some ((λ i, key_arr !!! Z.to_nat i) <$> inds).
Proof.
  intros Hinds. apply mapM_Some_fmap.
  eapply Forall_impl; [done|]. intros i Hi. simpl in *.
  rewrite getitem_nonneg by done.
  apply list_lookup_lookup_total_lt. lia.
Qed.

Lemma draw_samples_Some rng n_pes n_total (key_arr : list Z) :
  1 ≤ n_pes →
  ∃ samples, draw_samples rng n_pes n_total key_arr = Some samples
    ∧ Z.of_nat (length samples)
      = n_loc_samples n_pes n_total (Z.of_nat (length key_arr))
    ∧ Forall (.∈ key_arr) samples.
Proof.
  intros Hn. unfold draw_samples. set (n_local := Z.of_nat (length key_arr)).
  pose proof (n_loc_samples_range n_pes n_total n_local Hn ltac:(lia)) as Hc.
  set (c := n_loc_samples n_pes n_total n_local) in *.
  unfold randint.
  destruct (Z.ltb_spec c 0); [lia|].
  destruct (Z.eqb_spec c 0) as [->|Hc0]; [by exists []|].
  destruct (Z.leb_spec n_local 0); [lia|]. simpl.
  rewrite take_inds_in_range.
  - eexists. split; [done|]. rewrite !length_fmap, length_seq. split; [lia|].
    apply Forall_fmap, Forall_fmap, Forall_forall. intros k _. simpl.
    apply list_elem_of_lookup_total_2.
    pose proof (Z.mod_pos_bound (rng k) (n_local - 0)). lia.
  - apply Forall_fmap, Forall_forall. intros k _. simpl.
    pose proof (Z.mod_pos_bound (rng k) (n_local - 0)). lia.
Qed.

(** ** The bounds of the root *)

Lemma Sorted_Z_lookup (l : list Z) (i j : nat) (x y : Z) :
  Sorted Z.le l → (i ≤ j)%nat → l !! i = Some x → l !! j = Some y → x ≤ y.
Proof.
  intros Hs. apply (Sorted_StronglySorted _) in Hs.
  revert i j. induction Hs as [|a l Hs IH Hall]; intros i j Hij Hi Hj; [done|].
  destruct i as [|i], j as [|j]; simplify_eq/=; try lia.
  - eapply Forall_forall in Hall; [done|]. by eapply list_elem_of_lookup_2.
  - eapply (IH i j); [lia|done..].
Qed.

Lemma Sorted_Z_of_lookup (l : list Z) :
  (∀ i x y, l !! i = Some x → l !! S i = Some y → x ≤ y) → Sorted Z.le l.
Proof.
  induction l as [|a l IH]; intros Hl; constructor.
  - apply IH. intros i x y Hx Hy. by apply (Hl (S i)).
  - destruct l as [|b l]; constructor. by apply (Hl 0%nat).
Qed.

Lemma ceil_div_nonneg (a b : Z) :
  0 ≤ a → 1 ≤ b → ∃ step, Py.ceil_div a b = Some step ∧ 0 ≤ step.
Proof.
  intros Ha Hb. unfold Py.ceil_div.
  destruct (Z.eqb_spec b 0); [lia|]. eexists; split; [done|].
  rewrite <-(Qceiling_Z 0). apply Qceiling_resp_le.
  apply Qle_shift_div_l.
  - change 0%Q with (inject_Z 0). rewrite <-Zlt_Qlt. lia.
  - rewrite Qmult_0_l. change 0%Q with (inject_Z 0). by rewrite <-Zle_Qle.
Qed.

Lemma ceil_div_spec (a b step : Z) :
  0 < b → Py.ceil_div a b = Some step → (step - 1) * b < a ≤ step * b.
Proof.
  intros Hb. unfold Py.ceil_div. destruct (Z.eqb_spec b 0); [lia|].
  intros [= <-].
  assert (0 < inject_Z b)%Q as HbQ
    by (change 0%Q with (inject_Z 0); rewrite <-Zlt_Qlt; lia).
  assert (¬ (inject_Z b == 0)%Q) as Hb0
    by (intros H; rewrite H in HbQ; discriminate).
  pose proof (Qle_ceiling (inject_Z a / inject_Z b)) as H1.
  pose proof (Qceiling_lt (inject_Z a / inject_Z b)) as H2.
  apply (Qmult_le_r _ _ _ HbQ) in H1.
  apply (Qmult_lt_r _ _ _ HbQ) in H2.
  rewrite (Qmult_comm (_ / _)), Qmult_div_r in H1, H2 by exact Hb0.
  rewrite <-inject_Z_mult in H1, H2.
  rewrite <-Zle_Qle in H1. rewrite <-Zlt_Qlt in H2. lia.
Qed.

Lemma fill_bounds_spec (all_samples : list Z) (step : Z) (k : nat) :
  ∀ (a : Z) (bounds : list Z),
  0 ≤ step → (1 ≤ length all_samples)%nat → 0 ≤ a →
  a + Z.of_nat k ≤ Z.of_nat (length bounds) →
  ∃ bounds',
    fill_bounds all_samples step (Z.of_nat (length all_samples))
      (seqZ a (Z.of_nat k)) bounds = Some bounds'
    ∧ length bounds' = length bounds
    ∧ ∀ j : nat,
        bounds' !! j =
          if decide (a ≤ Z.of_nat j < a + Z.of_nat k)
          then all_samples !! Z.to_nat
                 (Z.min ((Z.of_nat j + 1) * step) (Z.of_nat (length all_samples) - 1))
          else bounds !! j.
Proof.
  induction k as [|k IH]; intros a bounds Hstep Hlen Ha Hk.
  - exists bounds. split_and!; [done..|]. intros j. case_decide; [lia|done].
  - rewrite seqZ_cons by lia. simpl.
    set (n := Z.of_nat (length all_samples)) in *.
    assert (0 ≤ Z.min ((a + 1) * step) (n - 1) < n) as Hidx by (unfold n; nia).
    rewrite getitem_nonneg by done.
    destruct (lookup_lt_is_Some_2 all_samples
      (Z.to_nat (Z.min ((a + 1) * step) (n - 1))) ltac:(lia)) as [v Hv].
    rewrite Hv. simpl. rewrite setitem_nonneg by lia. simpl.
    replace (Z.pred (Z.of_nat (S k))) with (Z.of_nat k) by lia.
    destruct (IH (Z.succ a) (<[Z.to_nat a := v]> bounds)) as (bounds' & Hfill & Hl & Hlook);
      [done|done|lia|rewrite length_insert; lia|].
    exists bounds'. split; [done|]. split; [by rewrite Hl, length_insert|].
    intros j. rewrite Hlook.
    destruct (decide (Z.of_nat j = a)) as [Hja|Hja].
    + repeat case_decide; try lia. subst a.
      rewrite Nat2Z.id in *. rewrite list_lookup_insert_eq by lia. done.
    + rewrite list_lookup_insert_ne by lia.
      repeat case_decide; try lia; done.
Qed.

Lemma root_bounds_spec (all_samples : list Z) (n_pes : Z) (bounds : list Z) :
  1 ≤ n_pes → all_samples ≠ [] → Z.of_nat (length bounds) = n_pes - 1 →
  ∃ step bounds',
    Py.ceil_div (Z.of_nat (length all_samples)) n_pes = Some step
    ∧ 0 ≤ step
    ∧ root_bounds all_samples n_pes bounds = Some bounds'
    ∧ Z.of_nat (length bounds') = n_pes - 1
    ∧ (∀ j : nat, Z.of_nat j < n_pes - 1 →
        bounds' !! j = ndarray_sort all_samples !! Z.to_nat
          (Z.min ((Z.of_nat j + 1) * step) (Z.of_nat (length all_samples) - 1)))
    ∧ Sorted Z.le bounds'.
Proof.
  intros Hn Hne Hlen. unfold root_bounds.
  rewrite ndarray_sort_length.
  destruct (ceil_div_nonneg (Z.of_nat (length all_samples)) n_pes) as (step & -> & Hstep);
    [lia|done|].
  exists step. simpl.
  assert (1 ≤ length (ndarray_sort all_samples))%nat as Hpos.
  { rewrite ndarray_sort_length. destruct all_samples; simpl; [done|lia]. }
  destruct (fill_bounds_spec (ndarray_sort all_samples) step (Z.to_nat (n_pes - 1))
    0 bounds) as (bounds' & Hfill & Hl & Hlook); [done|done|lia|lia|].
  rewrite ndarray_sort_length in Hfill, Hlook.
  unfold Py.range. rewrite Z2Nat.id in Hfill by lia.
  exists bounds'. split_and!; [done|done|done|lia| |].
  - intros j Hj. rewrite Hlook. case_decide; [done|lia].
  - apply Sorted_Z_of_lookup. intros i x y Hx Hy.
    assert (S i < length bounds')%nat as Hi by (by eapply lookup_lt_Some).
    rewrite Hlook in Hx, Hy. repeat case_decide; try lia.
    eapply (Sorted_Z_lookup (ndarray_sort all_samples)); [apply ndarray_sort_sorted| |done..].
    nia.
Qed.

(** ** The routing loop *)

Lemma update_shuffle_meta_Some (m : ShuffleMeta) (node_id : Z) :
  0 ≤ node_id < Z.of_nat (length (send_counts m)) →
  ∃ c, send_counts m !! Z.to_nat node_id = Some c
    ∧ update_shuffle_meta m node_id =
        Some (mkShuffleMeta (<[Z.to_nat node_id := Py.wrap_int32 (c + 1)]> (send_counts m))
                (recv_counts m) (out_arr m) (n_out m) (send_disp_f m) (recv_disp_f m)).
Proof.
  intros Hn. unfold update_shuffle_meta.
  rewrite getitem_nonneg by done.
  destruct (lookup_lt_is_Some_2 (send_counts m) (Z.to_nat node_id) ltac:(lia)) as [c Hc].
  exists c. split; [done|]. rewrite Hc. simpl.
  by rewrite setitem_nonneg by done.
Qed.

Lemma advance_Some (n_pes : Z) (bounds : list Z) (key node_id : Z) :
  Z.of_nat (length bounds) = n_pes - 1 → 0 ≤ node_id ≤ n_pes - 1 →
  ∃ node_id', advance n_pes bounds key node_id = Some node_id'
    ∧ node_id ≤ node_id' ≤ node_id + 1 ∧ node_id' ≤ n_pes - 1.
Proof.
  intros Hb Hn. unfold advance.
  destruct (Z.ltb_spec node_id (n_pes - 1)).
  - destruct (getitem_is_Some bounds node_id ltac:(lia)) as [b ->]. simpl.
    eexists; split; [done|]. destruct (b <=? key); lia.
  - eexists; split; [done|]. lia.
Qed.

Lemma route_loop_Some (n_pes : Z) (bounds : list Z) (keys : list Z) :
  ∀ (node_id : Z) (m : ShuffleMeta),
  Z.of_nat (length bounds) = n_pes - 1 → 0 ≤ node_id ≤ n_pes - 1 →
  Z.of_nat (length (send_counts m)) = n_pes →
  ∃ dests m', route_loop n_pes bounds keys node_id m = Some (dests, m')
    ∧ length dests = length keys
    ∧ Forall (λ d, node_id ≤ d ≤ n_pes - 1) dests
    ∧ Sorted Z.le dests
    ∧ length (send_counts m') = length (send_counts m)
    ∧ recv_counts m' = recv_counts m ∧ out_arr m' = out_arr m ∧ n_out m' = n_out m
    ∧ send_disp_f m' = send_disp_f m ∧ recv_disp_f m' = recv_disp_f m.
Proof.
  induction keys as [|key keys IH]; intros node_id m Hb Hn Hm.
  - exists [], m. by split_and!.
  - simpl.
    destruct (advance_Some n_pes bounds key node_id Hb Hn) as (node_id' & -> & Hn' & Hn'').
    simpl.
    destruct (update_shuffle_meta_Some m node_id' ltac:(lia)) as (c & Hc & ->). simpl.
    edestruct (IH node_id') as (dests & m' & -> & Hlen & Hall & Hs & Hl & ? & ? & ? & ? & ?);
      [done|lia|simpl; rewrite length_insert; done|].
    simpl in *. exists (node_id' :: dests), m'. split; [done|].
    split; [simpl; by rewrite Hlen|]. split.
    { constructor; [lia|]. eapply Forall_impl; [done|]. simpl. lia. }
    split.
    { constructor; [done|]. destruct Hall; constructor. lia. }
    rewrite length_insert in Hl. by split_and!.
Qed.

Lemma getitem_Some_nonneg {A} (l : list A) (i : Z) (x : A) :
  Py.getitem l i = Some x → 0 ≤ i → i < Z.of_nat (length l).
Proof.
  unfold Py.getitem. intros Hx Hi.
  destruct (Z.ltb_spec i 0); [lia|].
  destruct (Z.leb_spec 0 i); [|lia].
  by destruct (Z.ltb_spec i (Z.of_nat (length l))).
Qed.

Lemma advance_mono (n_pes : Z) (bounds : list Z) (key node_id node_id' : Z) :
  advance n_pes bounds key node_id = Some node_id' →
  node_id ≤ node_id' ≤ node_id + 1.
Proof.
  unfold advance. destruct (node_id <? n_pes - 1).
  - destruct (Py.getitem bounds node_id) as [b|]; [|done]. simpl.
    intros [= <-]. destruct (b <=? key); lia.
  - intros [= <-]. lia.
Qed.

Lemma count_dest_cons (d x : Z) (dests : list Z) :
  count_dest d (x :: dests) = (if decide (x = d) then 1 else 0) + count_dest d dests.
Proof.
  unfold count_dest. rewrite filter_cons. case_decide; simpl; lia.
Qed.

Lemma route_loop_counts (n_pes : Z) (bounds : list Z) (keys : list Z) :
  ∀ (node_id : Z) (m : ShuffleMeta) dests m' (B : Z),
  route_loop n_pes bounds keys node_id m = Some (dests, m') →
  0 ≤ node_id →
  Forall (λ c, 0 ≤ c ≤ B) (send_counts m) →
  B + Z.of_nat (length keys) < 2 ^ 31 →
  (∀ d : nat, send_counts m' !! d
     = (λ c, c + count_dest (Z.of_nat d) dests) <$> send_counts m !! d)
  ∧ Py.sum (send_counts m') = Py.sum (send_counts m) + Z.of_nat (length keys).
Proof.
  induction keys as [|key keys IH]; intros node_id m dests m' B Hr Hn Hc HB.
  - simpl in Hr. simplify_eq. split; [|simpl; lia].
    intros d. unfold count_dest. simpl.
    destruct (send_counts m' !! d); simpl; [f_equal; lia|done].
  - simpl in Hr.
    destruct (advance n_pes bounds key node_id) as [node_id'|] eqn:Hadv; [|done].
    simpl in Hr. apply advance_mono in Hadv.
    destruct (update_shuffle_meta m node_id') as [m1|] eqn:Hupd; [|done].
    simpl in Hr.
    destruct (route_loop n_pes bounds keys node_id' m1) as [[dests1 m2]|] eqn:Hr1; [|done].
    simpl in Hr. simplify_eq.
    assert (node_id' < Z.of_nat (length (send_counts m))) as Hlt.
    { unfold update_shuffle_meta in Hupd.
      destruct (Py.getitem (send_counts m) node_id') as [c|] eqn:Hg; [|done].
      eapply getitem_Some_nonneg; [done|lia]. }
    destruct (update_shuffle_meta_Some m node_id' ltac:(lia)) as (c & Hc1 & Hupd').
    rewrite Hupd' in Hupd. simplify_eq.
    assert (0 ≤ c ≤ B) as HcB.
    { eapply Forall_forall in Hc; [done|]. by eapply list_elem_of_lookup_2. }
    simpl in HB.
    rewrite wrap_int32_small in Hr1 by lia.
    destruct (IH _ _ _ _ (B + 1) Hr1) as [Hcounts Hsum]; [lia| |lia|].
    { simpl. apply Forall_insert; [|lia].
      eapply Forall_impl; [done|]. simpl. lia. }
    simpl in *. split.
    + intros d. rewrite Hcounts, count_dest_cons.
      destruct (decide (d = Z.to_nat node_id')) as [->|Hne].
      * rewrite list_lookup_insert_eq by lia. rewrite Hc1. simpl.
        case_decide; [f_equal; lia|lia].
      * rewrite list_lookup_insert_ne by done.
        case_decide; [lia|]. destruct (send_counts m !! d); simpl; [f_equal; lia|done].
    + rewrite Hsum. rewrite (sum_insert _ _ c) by done. lia.
Qed.

Lemma np_zeros_Some (n : Z) : 0 ≤ n → np_zeros n = Some (replicate (Z.to_nat n) 0).
Proof. intros Hn. unfold np_zeros. by destruct (Z.ltb_spec n 0); [lia|]. Qed.

Lemma route_Some (key_arr : list Z) (n_pes : Z) (bounds : list Z) :
  1 ≤ n_pes → Z.of_nat (length bounds) = n_pes - 1 →
  ∃ dests m, route key_arr n_pes bounds = Some (dests, m)
    ∧ length dests = length key_arr
    ∧ Forall (λ d, 0 ≤ d < n_pes) dests
    ∧ Sorted Z.le dests
    ∧ Z.of_nat (length (send_counts m)) = n_pes.
Proof.
  intros Hn Hb. unfold route, alloc_shuffle_metadata.
  rewrite np_zeros_Some by lia. simpl.
  edestruct (route_loop_Some n_pes bounds key_arr 0) as (dests & m & -> & Hlen & Hall & Hs & Hl & _);
    [done|lia| |].
  { simpl. rewrite length_replicate. lia. }
  exists dests, m. split_and!; [done|done| |done|].
  - eapply Forall_impl; [done|]. simpl. lia.
  - rewrite Hl. simpl. rewrite length_replicate. lia.
Qed.

Lemma route_counts (key_arr : list Z) (n_pes : Z) (bounds : list Z) dests m :
  route key_arr n_pes bounds = Some (dests, m) →
  Z.of_nat (length key_arr) < 2 ^ 31 →
  (∀ d : nat, Z.of_nat d < n_pes →
     send_counts m !! d = Some (count_dest (Z.of_nat d) dests))
  ∧ Py.sum (send_counts m) = Z.of_nat (length key_arr).
Proof.
  unfold route, alloc_shuffle_metadata. intros Hr Hlen.
  destruct (np_zeros n_pes) as [zs|] eqn:Hz; [|done]. simpl in Hr.
  unfold np_zeros in Hz. destruct (Z.ltb_spec n_pes 0); [done|]. simplify_eq.
  eapply (route_loop_counts _ _ _ _ _ _ _ 0) in Hr as [Hcounts Hsum]; simpl; [|done| |lia].
  - simpl in *. split.
    + intros d Hd. rewrite Hcounts.
      rewrite lookup_replicate_2 by lia. simpl. f_equal; lia.
    + rewrite Hsum, sum_replicate_0. lia.
  - apply Forall_replicate. lia.
Qed.

Lemma route_loop_step (n_pes : Z) (bounds : list Z) (keys : list Z) :
  ∀ (node_id : Z) (m : ShuffleMeta) dests m',
  route_loop n_pes bounds keys node_id m = Some (dests, m') →
  ∀ (i : nat) (key : Z), keys !! i = Some key →
    advance n_pes bounds key (node_before node_id dests i) = dests !! i.
Proof.
  induction keys as [|key0 keys IH]; intros node_id m dests m' Hr i key Hi; [done|].
  simpl in Hr.
  destruct (advance n_pes bounds key0 node_id) as [node_id'|] eqn:Hadv; [|done].
  simpl in Hr.
  destruct (update_shuffle_meta m node_id') as [m1|]; [|done]. simpl in Hr.
  destruct (route_loop n_pes bounds keys node_id' m1) as [[dests1 m2]|] eqn:Hr1; [|done].
  simpl in Hr. simplify_eq.
  destruct i as [|i]; simplify_eq/=; [done|].
  rewrite <-(IH _ _ _ _ Hr1 i key Hi). by destruct i.
Qed.

Lemma update_shuffle_meta_length (m1 m2 : ShuffleMeta) (node_id : Z) m1' :
  length (send_counts m2) = length (send_counts m1) →
  update_shuffle_meta m1 node_id = Some m1' →
  ∃ m2', update_shuffle_meta m2 node_id = Some m2'
    ∧ length (send_counts m2') = length (send_counts m1').
Proof.
  intros Hlen. unfold update_shuffle_meta, Py.getitem, Py.setitem. rewrite Hlen.
  set (j := if node_id <? 0 then _ else _).
  destruct ((0 <=? j) && (j <? Z.of_nat (length (send_counts m1)))) eqn:Hj; [|done].
  apply andb_prop in Hj as [Hj1 Hj2].
  destruct (lookup_lt_is_Some_2 (send_counts m2) (Z.to_nat j) ltac:(lia)) as [c2 ->].
  destruct (send_counts m1 !! Z.to_nat j) as [c1|]; [|done]. simpl.
  intros [= <-]. eexists. split; [done|]. simpl. by rewrite !length_insert.
Qed.

Lemma route_loop_take (n_pes : Z) (bounds : list Z) (keys : list Z) :
  ∀ (node_id : Z) (m1 m2 : ShuffleMeta) dests m',
  length (send_counts m2) = length (send_counts m1) →
  route_loop n_pes bounds keys node_id m1 = Some (dests, m') →
  ∀ i : nat, ∃ m'',
    route_loop n_pes bounds (take i keys) node_id m2 = Some (take i dests, m'').
Proof.
  induction keys as [|key0 keys IH]; intros node_id m1 m2 dests m' Hlen Hr i.
  - simpl in Hr. simplify_eq. exists m2. by destruct i.
  - simpl in Hr.
    destruct (advance n_pes bounds key0 node_id) as [node_id'|] eqn:Hadv; [|done].
    simpl in Hr.
    destruct (update_shuffle_meta m1 node_id') as [m1'|] eqn:Hupd; [|done]. simpl in Hr.
    destruct (route_loop n_pes bounds keys node_id' m1') as [[dests1 m1'']|] eqn:Hr1;
      [|done].
    simpl in Hr. simplify_eq.
    destruct i as [|i]; simpl; [by eexists|].
    rewrite Hadv. simpl.
    destruct (update_shuffle_meta_length m1 m2 node_id' m1' Hlen Hupd) as (m2' & -> & Hlen').
    simpl.
    destruct (IH _ _ m2' _ _ Hlen' Hr1 i) as [m'' ->]. by eexists.
Qed.

Lemma Sorted_Z_block (l : list Z) (i j k : nat) (d : Z) :
  Sorted Z.le l → (i ≤ j ≤ k)%nat →
  l !! i = Some d → l !! k = Some d → l !! j = Some d.
Proof.
  intros Hs Hijk Hi Hk.
  destruct (lookup_lt_is_Some_2 l j) as [x Hx].
  { apply lookup_lt_Some in Hk. lia. }
  pose proof (Sorted_Z_lookup l i j d x Hs ltac:(lia) Hi Hx).
  pose proof (Sorted_Z_lookup l j k x d Hs ltac:(lia) Hx Hk).
  rewrite Hx. f_equal. lia.
Qed.

(** ** The routing loop against the boundary lookup *)

Lemma upper_bound_range (bounds : list Z) (x : Z) :
  0 ≤ upper_bound bounds x ≤ Z.of_nat (length bounds).
Proof.
  unfold upper_bound. pose proof (length_filter (λ b, b ≤ x) bounds). lia.
Qed.

Lemma upper_bound_mono (bounds : list Z) (x y : Z) :
  x ≤ y → upper_bound bounds x ≤ upper_bound bounds y.
Proof.
  intros Hxy. unfold upper_bound.
  induction bounds as [|b bounds IH]; [done|].
  rewrite !filter_cons. repeat case_decide; simpl; lia.
Qed.

Lemma filter_le_nil (bounds : list Z) (x a : Z) :
  Forall (Z.le a) bounds → ¬ a ≤ x → filter (λ b, b ≤ x) bounds = [].
Proof.
  intros Hall Ha. induction Hall as [|b bounds Hb _ IH]; [done|].
  rewrite filter_cons. case_decide; [lia|done].
Qed.

Lemma upper_bound_sorted (bounds : list Z) (x : Z) (i : nat) (b : Z) :
  Sorted Z.le bounds → bounds !! i = Some b →
  b ≤ x ↔ Z.of_nat i < upper_bound bounds x.
Proof.
  intros Hs. apply (Sorted_StronglySorted _) in Hs. revert i.
  induction Hs as [|a bounds Hs IH Hall]; intros i Hi; [done|].
  unfold upper_bound in *. rewrite filter_cons.
  destruct i as [|i]; simplify_eq/=.
  - case_decide; simpl; [lia|].
    rewrite (filter_le_nil bounds x b) by done. simpl. lia.
  - case_decide; simpl.
    + rewrite (IH i Hi). lia.
    + rewrite (filter_le_nil bounds x a) by done.
      eapply Forall_forall in Hall; [|by eapply list_elem_of_lookup_2]. simpl. lia.
Qed.

Lemma advance_upper_bound (n_pes : Z) (bounds : list Z) (key node_id : Z) :
  Z.of_nat (length bounds) = n_pes - 1 → Sorted Z.le bounds →
  0 ≤ node_id ≤ upper_bound bounds key → upper_bound bounds key ≤ node_id + 1 →
  advance n_pes bounds key node_id = Some (upper_bound bounds key).
Proof.
  intros Hb Hs Hn Hu. pose proof (upper_bound_range bounds key) as Hr.
  unfold advance. destruct (Z.ltb_spec node_id (n_pes - 1)).
  - rewrite getitem_nonneg by lia.
    destruct (lookup_lt_is_Some_2 bounds (Z.to_nat node_id) ltac:(lia)) as [b Hlk].
    rewrite Hlk. simpl. f_equal.
    pose proof (upper_bound_sorted bounds key _ b Hs Hlk) as Hiff.
    destruct (Z.leb_spec b key); lia.
  - f_equal. lia.
Qed.

Lemma route_loop_upper_bound (n_pes : Z) (bounds : list Z) (keys : list Z) :
  ∀ (node_id : Z) (m : ShuffleMeta),
  Z.of_nat (length bounds) = n_pes - 1 → Sorted Z.le bounds →
  Z.of_nat (length (send_counts m)) = n_pes →
  Sorted Z.le keys →
  0 ≤ node_id → Forall (λ key, node_id ≤ upper_bound bounds key) keys →
  steps_le_one node_id (upper_bound bounds <$> keys) →
  ∃ m', route_loop n_pes bounds keys node_id m
          = Some (upper_bound bounds <$> keys, m').
Proof.
  induction keys as [|key keys IH]; intros node_id m Hb Hs Hm Hk Hn Hge Hst.
  - by exists m.
  - simpl in *. destruct Hst as [Hst1 Hst2].
    apply Forall_cons in Hge as [Hge1 Hge2].
    rewrite advance_upper_bound by (done || lia). simpl.
    pose proof (upper_bound_range bounds key) as Hr.
    destruct (update_shuffle_meta_Some m (upper_bound bounds key) ltac:(lia))
      as (c & _ & ->). simpl.
    apply (Sorted_StronglySorted _) in Hk.
    apply StronglySorted_inv in Hk as [Hk Hall].
    edestruct (IH (upper_bound bounds key)) as [m' ->]; [done|done| | |lia| |done|].
    + simpl. by rewrite length_insert.
    + by apply StronglySorted_Sorted.
    + eapply Forall_impl; [exact Hall|]. intros y Hy. simpl. by apply upper_bound_mono.
    + by eexists.
Qed.

(** ** Displacements and slices *)

Lemma calc_disp_from_length acc counts :
  length (calc_disp_from acc counts) = length counts.
Proof. revert acc. induction counts as [|c counts IH]; intros acc; simpl; [done|]. by rewrite IH. Qed.

Lemma calc_disp_from_lookup counts : ∀ acc (k : nat),
  (k < length counts)%nat →
  calc_disp_from acc counts !! k = Some (acc + Py.sum (take k counts)).
Proof.
  induction counts as [|c counts IH]; intros acc k Hk; simpl in *; [lia|].
  destruct k as [|k]; simpl.
  - f_equal. unfold Py.sum. simpl. lia.
  - rewrite IH by lia. f_equal. unfold Py.sum. simpl. lia.
Qed.

Lemma calc_disp_lookup counts (k : nat) :
  (k < length counts)%nat → calc_disp counts !! k = Some (Py.sum (take k counts)).
Proof. intros Hk. unfold calc_disp. by rewrite calc_disp_from_lookup. Qed.

Lemma sum_nonneg (l : list Z) : Forall (Z.le 0) l → 0 ≤ Py.sum l.
Proof. unfold Py.sum. induction 1; simpl; lia. Qed.

Lemma sum_take_le (l : list Z) (k : nat) :
  Forall (Z.le 0) l → 0 ≤ Py.sum (take k l) ≤ Py.sum l.
Proof.
  intros Hl. rewrite <-(take_drop k l) at 3. rewrite sum_app.
  pose proof (sum_nonneg (take k l) (Forall_take _ _ _ Hl)).
  pose proof (sum_nonneg (drop k l) (Forall_drop _ _ _ Hl)). lia.
Qed.

Lemma sum_take_S (l : list Z) (k : nat) (c : Z) :
  l !! k = Some c → Py.sum (take (S k) l) = Py.sum (take k l) + c.
Proof.
  intros Hk. rewrite (take_S_r _ _ _ Hk), sum_app. unfold Py.sum. simpl. lia.
Qed.

Lemma list_inserts_take_drop {A} (i : nat) (k l : list A) :
  (i + length k ≤ length l)%nat →
  list_inserts i k l = take i l ++ k ++ drop (i + length k) l.
Proof.
  intros Hl. rewrite <-(take_drop i l) at 1.
  assert (length (take i l) = i) as Hi by (rewrite length_take; lia).
  rewrite <-Hi at 1. rewrite <-(Nat.add_0_r (length (take i l))).
  rewrite list_inserts_app_r. f_equal.
  rewrite <-(take_drop (length k) (drop i l)) at 1.
  rewrite list_inserts_0_r by (rewrite length_take, length_drop; lia).
  by rewrite drop_drop.
Qed.

(** ** The variable size all-to-all *)

Lemma recv_all_spec {A} (w : nat) (me : Side A) (srcs : list (Side A)) :
  ∀ (s : nat) (out : list A),
  r_disp me = calc_disp (r_counts me) →
  Forall (Z.le 0) (r_counts me) →
  length (r_counts me) = (s + length srcs)%nat →
  length out = Z.to_nat (Py.sum (r_counts me)) →
  (∀ (k : nat) src, srcs !! k = Some src →
     ∃ cnt off, s_counts src !! w = Some cnt
       ∧ r_counts me !! (s + k)%nat = Some cnt
       ∧ s_disp src !! w = Some off
       ∧ 0 ≤ off ∧ off + cnt ≤ Z.of_nat (length (sendbuf src))) →
  recv_all w me s srcs out =
    Some (take (Z.to_nat (Py.sum (take s (r_counts me)))) out
          ++ concat ((λ src, take (Z.to_nat (s_counts src !!! w))
                               (drop (Z.to_nat (s_disp src !!! w)) (sendbuf src)))
                     <$> srcs)).
Proof.
  induction srcs as [|src srcs IH]; intros s out Hd Hnn Hlen Hout Hsrc.
  - simpl in *. rewrite app_nil_r, Nat.add_0_r in *.
    rewrite (take_ge (r_counts me)) by lia. by rewrite take_ge by lia.
  - simpl. destruct (Hsrc 0%nat src eq_refl) as (cnt & off & Hc & Hrc & Ho & Hoff & Hfit).
    rewrite Nat.add_0_r in Hrc. simpl in Hlen.
    unfold recv_from. rewrite Hc, Ho, Hrc. simpl.
    rewrite Hd, calc_disp_lookup by lia. simpl.
    assert (0 ≤ cnt) as Hcnt.
    { eapply Forall_forall in Hnn; [done|]. by eapply list_elem_of_lookup_2. }
    pose proof (sum_take_le (r_counts me) s Hnn) as Hs1.
    pose proof (sum_take_le (r_counts me) (S s) Hnn) as Hs2.
    rewrite (sum_take_S _ _ _ Hrc) in Hs2.
    rewrite decide_True by (split_and!; lia).
    change (Some ?x ≫= ?f) with (f x). cbv beta.
    set (seg := take (Z.to_nat cnt) (drop (Z.to_nat off) (sendbuf src))).
    assert (length seg = Z.to_nat cnt) as Hseg.
    { unfold seg. rewrite length_take, length_drop. lia. }
    rewrite (IH (S s)); [|done|done|lia|by rewrite length_inserts| ].
    + f_equal. rewrite (sum_take_S _ _ _ Hrc).
      rewrite list_inserts_take_drop by lia.
      rewrite (list_lookup_total_correct _ _ _ Hc), (list_lookup_total_correct _ _ _ Ho).
      fold seg. rewrite (app_assoc _ seg (concat _)). f_equal.
      rewrite app_assoc. apply take_app_length'.
      rewrite length_app, length_take, Hseg. lia.
    + intros k src' Hk. destruct (Hsrc (S k) src' Hk) as (cnt' & off' & ? & ? & ? & ? & ?).
      exists cnt', off'. split_and!; try done.
      by replace (S s + k)%nat with (s + S k)%nat by lia.
Qed.

Lemma recv_counts_of_nonneg (scs : list (list Z)) (w : nat) :
  counts_ok scs → (w < length scs)%nat → Forall (Z.le 0) (recv_counts_of scs w).
Proof.
  intros Hok Hw. unfold recv_counts_of. apply Forall_fmap.
  eapply Forall_impl; [exact Hok|]. intros sc [Hlen Hnn]. simpl.
  eapply Forall_forall in Hnn; [done|].
  apply list_elem_of_lookup_total_2. lia.
Qed.

Lemma exchange_at_spec {A} (scs : list (list Z)) (bufs : list (list A))
    (sides : list (Side A)) (w : nat) :
  counts_ok scs →
  Forall2 (λ sc buf, Py.sum sc = Z.of_nat (length buf)) scs bufs →
  sides_ok scs bufs sides → (w < length scs)%nat →
  exchange_at sides w = Some (received scs w bufs).
Proof.
  intros Hok Hsum [Hlen Hsides] Hw. unfold exchange_at.
  destruct (lookup_lt_is_Some_2 sides w ltac:(lia)) as [me Hme].
  rewrite Hme. simpl.
  destruct (Hsides w me Hme) as (_ & _ & _ & Hrc & Hrd & Hout).
  rewrite (recv_all_spec w me sides 0 (recvbuf me)).
  - simpl. f_equal. unfold received. f_equal.
    apply list_eq. intros k. rewrite list_lookup_fmap, lookup_zip_with.
    destruct (sides !! k) as [src|] eqn:Hk; simpl.
    + destruct (Hsides k src Hk) as (Hb & Hsc & Hsd & _).
      pose proof (lookup_lt_Some _ _ _ Hk) as Hk'.
      destruct (lookup_lt_is_Some_2 scs k ltac:(lia)) as [sc Hsck].
      pose proof (Forall2_length _ _ _ Hsum) as Hbl.
      destruct (lookup_lt_is_Some_2 bufs k ltac:(lia)) as [buf Hbk].
      rewrite Hsck, Hbk. simpl. f_equal.
      rewrite (list_lookup_total_correct _ _ _ Hsck) in Hsc, Hsd.
      rewrite (list_lookup_total_correct _ _ _ Hbk) in Hb.
      unfold slice_for. by rewrite Hb, Hsc, Hsd.
    + apply lookup_ge_None in Hk.
      by rewrite (lookup_ge_None_2 scs k) by lia.
  - by rewrite Hrd, Hrc.
  - rewrite Hrc. by apply recv_counts_of_nonneg.
  - rewrite Hrc. unfold recv_counts_of. rewrite length_fmap. lia.
  - by rewrite Hrc.
  - intros k src Hk. simpl.
    destruct (Hsides k src Hk) as (Hb & Hsc & Hsd & _).
    pose proof (lookup_lt_Some _ _ _ Hk) as Hk'.
    destruct (lookup_lt_is_Some_2 scs k ltac:(lia)) as [sc Hsck].
    rewrite (list_lookup_total_correct _ _ _ Hsck) in Hsc, Hsd.
    pose proof (Forall2_length _ _ _ Hsum) as Hbl.
    destruct (lookup_lt_is_Some_2 bufs k ltac:(lia)) as [buf Hbk].
    rewrite (list_lookup_total_correct _ _ _ Hbk) in Hb.
    pose proof (Forall2_lookup_lr _ _ _ _ _ _ Hsum Hsck Hbk) as Hs. simpl in Hs.
    eapply Forall_forall in Hok; [|by eapply list_elem_of_lookup_2].
    destruct Hok as [Hscl Hnn].
    destruct (lookup_lt_is_Some_2 sc w ltac:(lia)) as [cnt Hcnt].
    exists cnt, (Py.sum (take w sc)). rewrite Hsc, Hsd, Hrc, Hb.
    split; [done|]. split.
    { unfold recv_counts_of. rewrite list_lookup_fmap, Hsck. simpl.
      by rewrite (list_lookup_total_correct _ _ _ Hcnt). }
    split; [apply calc_disp_lookup; lia|].
    pose proof (sum_take_le sc w Hnn).
    pose proof (sum_take_le sc (S w) Hnn) as Hs2.
    rewrite (sum_take_S _ _ _ Hcnt) in Hs2. lia.
Qed.

Lemma exchange_spec {A} (scs : list (list Z)) (bufs : list (list A))
    (sides : list (Side A)) :
  counts_ok scs →
  Forall2 (λ sc buf, Py.sum sc = Z.of_nat (length buf)) scs bufs →
  sides_ok scs bufs sides →
  exchange sides = Some ((λ w, received scs w bufs) <$> seq 0 (length scs)).
Proof.
  intros Hok Hsum Hsides. unfold exchange.
  destruct Hsides as [Hlen Hs]. rewrite Hlen.
  apply mapM_Some_fmap. apply Forall_forall. intros w Hw.
  apply elem_of_seq in Hw. apply exchange_at_spec; [done|done|by split|lia].
Qed.

(** ** What is received: naturality and conservation *)

Lemma slice_for_fmap {A B} (f : A → B) (sc : list Z) (w : nat) (buf : list A) :
  slice_for sc w (f <$> buf) = f <$> slice_for sc w buf.
Proof. unfold slice_for. by rewrite fmap_take, fmap_drop. Qed.

Lemma concat_fmap_fmap {A B} (f : A → B) (ls : list (list A)) :
  concat (fmap (M:=list) f <$> ls) = f <$> concat ls.
Proof.
  induction ls as [|l ls IH]; [done|]. csimpl. by rewrite fmap_app, <-IH.
Qed.

Lemma received_fmap {A B} (f : A → B) (scs : list (list Z)) (w : nat)
    (bufs : list (list A)) :
  received scs w (fmap (M:=list) f <$> bufs) = f <$> received scs w bufs.
Proof.
  unfold received. rewrite <-concat_fmap_fmap. f_equal.
  revert bufs. induction scs as [|sc scs IH]; intros [|buf bufs]; simpl; try done.
  by rewrite slice_for_fmap, IH.
Qed.

Lemma slices_from (sc' : list Z) {A} (buf : list A) : ∀ pre : list Z,
  Forall (Z.le 0) (pre ++ sc') →
  concat ((λ w, slice_for (pre ++ sc') w buf) <$> seq (length pre) (length sc'))
  = take (Z.to_nat (Py.sum sc')) (drop (Z.to_nat (Py.sum pre)) buf).
Proof.
  induction sc' as [|c sc' IH]; intros pre Hnn; [done|].
  simpl.
  assert ((pre ++ c :: sc') !! length pre = Some c) as Hc.
  { by rewrite lookup_app_r, Nat.sub_diag by lia. }
  assert (0 ≤ c) as Hc0.
  { eapply Forall_forall in Hnn; [done|]. by eapply list_elem_of_lookup_2. }
  assert (Forall (Z.le 0) pre ∧ Forall (Z.le 0) sc') as [Hpre' Hsc'].
  { apply Forall_app in Hnn as [? Hnn']. by apply Forall_cons in Hnn' as [_ ?]. }
  pose proof (sum_nonneg pre Hpre') as Hpre.
  pose proof (sum_nonneg sc' Hsc') as Hs'.
  specialize (IH (pre ++ [c])). rewrite <-app_assoc in IH. simpl in IH.
  rewrite length_app in IH. simpl in IH. rewrite Nat.add_1_r in IH.
  change (list_fmap nat (list A)) with (@fmap list _ nat (list A)).
  rewrite IH by done. clear IH.
  unfold slice_for at 1. rewrite (list_lookup_total_correct _ _ _ Hc).
  assert (calc_disp (pre ++ c :: sc') !! length pre = Some (Py.sum pre)) as Hd.
  { rewrite calc_disp_lookup by (rewrite length_app; simpl; lia).
    by rewrite take_app_length. }
  rewrite (list_lookup_total_correct _ _ _ Hd).
  rewrite sum_app. replace (Py.sum [c]) with c by (unfold Py.sum; simpl; lia).
  replace (Py.sum (c :: sc')) with (c + Py.sum sc') by (unfold Py.sum; simpl; lia).
  rewrite Z2Nat.inj_add by lia. rewrite <-drop_drop.
  rewrite take_take_drop. f_equal. lia.
Qed.

Lemma slices_concat (sc : list Z) {A} (buf : list A) :
  Forall (Z.le 0) sc → Py.sum sc = Z.of_nat (length buf) →
  concat ((λ w, slice_for sc w buf) <$> seq 0 (length sc)) = buf.
Proof.
  intros Hnn Hsum. pose proof (slices_from sc buf [] Hnn) as H.
  change (Py.sum []) with 0 in H. simpl in H.
  rewrite H, Hsum. rewrite take_ge; [done|]. rewrite length_drop. lia.
Qed.

Lemma concat_fmap_app {A X} (g h : X → list A) (l : list X) :
  concat ((λ x, g x ++ h x) <$> l) ≡ₚ concat (g <$> l) ++ concat (h <$> l).
Proof.
  induction l as [|x l IH]; [done|]. csimpl. rewrite IH.
  rewrite <-!app_assoc. apply Permutation_app_head.
  apply Permutation_app_swap_app.
Qed.

Lemma concat_swap {A X Y} (f : X → Y → list A) (l1 : list X) (l2 : list Y) :
  concat ((λ a, concat ((λ b, f a b) <$> l2)) <$> l1)
  ≡ₚ concat ((λ b, concat ((λ a, f a b) <$> l1)) <$> l2).
Proof.
  induction l1 as [|a l1 IH]; simpl.
  - induction l2 as [|b l2 IH2]; [done|]. simpl. by rewrite <-IH2.
  - rewrite IH. by rewrite (concat_fmap_app (λ b, f a b)).
Qed.

Lemma received_conservation {A} (scs : list (list Z)) (bufs : list (list A)) :
  counts_ok scs →
  Forall2 (λ sc buf, Py.sum sc = Z.of_nat (length buf)) scs bufs →
  concat ((λ w, received scs w bufs) <$> seq 0 (length scs)) ≡ₚ concat bufs.
Proof.
  intros Hok Hsum. unfold received.
  rewrite (list_fmap_ext _ (λ w, concat ((λ p : list Z * list A,
             slice_for p.1 w p.2) <$> zip scs bufs)) (seq 0 (length scs))).
  2:{ intros i w _. rewrite zip_with_zip. f_equal.
      apply list_fmap_ext. by intros ? [??] ?. }
  rewrite (concat_swap (λ w (p : list Z * list A), slice_for p.1 w p.2)).
  apply reflexive_eq. f_equal.
  assert (length scs = length scs) as Hn by done. revert Hn.
  generalize (length scs) at 2 3. intros n Hn.
  assert (Forall (λ sc, length sc = n ∧ Forall (Z.le 0) sc) scs) as Hok'.
  { unfold counts_ok in Hok. by rewrite Hn in Hok. }
  clear Hok Hn. induction Hsum as [|sc buf scs bufs Hs _ IH]; [done|].
  apply Forall_cons in Hok' as [[Hlen Hnn] Hok']. simpl. f_equal; [|by apply IH].
  rewrite <-Hlen. by apply slices_concat.
Qed.

(** ** Rows and columns *)

Section RowsFacts.
Context {V : Type} `{!Inhabited V}.
Implicit Types (x : Worker V) (R : list (Z * list V)).

Lemma total_lookups_seq {A} `{!Inhabited A} (l : list A) :
  (λ j, l !!! j) <$> seq 0 (length l) = l.
Proof.
  apply list_eq. intros i. rewrite list_lookup_fmap.
  destruct (decide (i < length l)%nat) as [Hi|Hi].
  - rewrite lookup_seq_lt by done. simpl.
    by rewrite list_lookup_lookup_total_lt.
  - rewrite lookup_seq_ge by lia. by rewrite lookup_ge_None_2 by lia.
Qed.

Lemma rows_of_length x : length (rows_of x) = length (key_arr x).
Proof. unfold rows_of. by rewrite length_imap. Qed.

Lemma rows_of_arity N x :
  wf_worker N x → Forall (λ r, length r.2 = N) (rows_of x).
Proof.
  intros [HN _]. apply Forall_forall. intros r Hr.
  apply elem_of_lookup_imap in Hr as (i & k & -> & _). simpl.
  by rewrite length_fmap.
Qed.

Lemma rows_of_worker_of N R :
  Forall (λ r, length r.2 = N) R → rows_of (worker_of N R) = R.
Proof.
  intros HR. unfold rows_of, worker_of. simpl.
  apply list_eq. intros i. rewrite list_lookup_imap, list_lookup_fmap.
  destruct (R !! i) as [[k vs]|] eqn:Hi; simpl; [|done].
  f_equal. f_equal. rewrite <-list_fmap_compose.
  eapply Forall_lookup_1 in HR; [|done]. simpl in HR. subst N.
  rewrite <-(total_lookups_seq vs) at 2.
  apply list_fmap_ext. intros j ? _. simpl. unfold column.
  apply list_lookup_total_correct. by rewrite list_lookup_fmap, Hi.
Qed.

Lemma worker_of_rows N x : wf_worker N x → worker_of N (rows_of x) = x.
Proof.
  destruct x as [keys cols]. intros [HN Hcols]. simpl in *.
  unfold worker_of, rows_of. simpl. f_equal.
  - rewrite fmap_imap. rewrite (imap_ext _ (const id)) by done.
    by rewrite imap_const, list_fmap_id.
  - subst N. transitivity ((λ j, cols !!! j) <$> seq 0 (length cols));
      [|apply total_lookups_seq].
    apply list_fmap_ext. intros i j Hj.
    apply lookup_seq in Hj as [-> Hj].
    destruct (lookup_lt_is_Some_2 cols i Hj) as [c Hc].
    rewrite (list_lookup_total_correct _ _ _ Hc).
    eapply Forall_lookup_1 in Hcols; [|done]. simpl in Hcols.
    unfold column. rewrite fmap_imap.
    rewrite (imap_ext _ (λ i' _, c !!! i')).
    2:{ intros i' k Hk. simpl. apply list_lookup_total_correct.
        by rewrite list_lookup_fmap, Hc. }
    rewrite imap_seq_0, <-Hcols. apply total_lookups_seq.
Qed.

Lemma worker_of_wf N R : wf_worker N (worker_of N R).
Proof.
  split; simpl.
  - by rewrite length_fmap, length_seq.
  - apply Forall_fmap, Forall_forall. intros j _. simpl.
    unfold column. by rewrite !length_fmap.
Qed.

Lemma column_fmap_lookup N R (j : nat) :
  (j < N)%nat → data (worker_of N R) !!! j = column j R.
Proof.
  intros Hj. simpl. apply list_lookup_total_correct.
  by rewrite list_lookup_fmap, lookup_seq_lt.
Qed.

End RowsFacts.

(** ** The stages of [parallel_sort] *)

Lemma mapM_lookup {A B} (f : A → option B) (l : list A) (ys : list B) :
  length l = length ys →
  (∀ i x y, l !! i = Some x → ys !! i = Some y → f x = Some y) →
  mapM f l = Some ys.
Proof. intros Hlen Hl. apply mapM_Some_2. by apply Forall2_same_length_lookup_2. Qed.

Lemma mapM_id_imap {A B} (f : nat → A → option B) (g : nat → A → B) (l : list A) :
  (∀ i x, l !! i = Some x → f i x = Some (g i x)) →
  mapM id (imap f l) = Some (imap g l).
Proof.
  intros Hf. apply mapM_lookup; [by rewrite !length_imap|].
  intros i x y. rewrite !list_lookup_imap.
  destruct (l !! i) as [a|] eqn:Ha; simpl; [|done].
  intros [= <-] [= <-]. by apply Hf.
Qed.

Lemma mapM_id_imap_lookup {A B} (f : nat → A → option B) (l : list A) (ys : list B)
    (i : nat) (y : B) :
  mapM id (imap f l) = Some ys → ys !! i = Some y →
  ∃ x, l !! i = Some x ∧ f i x = Some y.
Proof.
  intros Hm Hy. apply mapM_Some_1 in Hm.
  destruct (Forall2_lookup_r _ _ _ _ _ Hm Hy) as (o & Ho & Hoy).
  rewrite list_lookup_imap in Ho. destruct (l !! i) as [x|]; simplify_eq/=.
  by exists x.
Qed.

Section Stages.
Context {V : Type} `{!Inhabited V}.
Implicit Types (x : Worker V) (world : list (Worker V)).

Lemma samples_Some (rng : nat → nat → Z) world (n_total : Z) :
  world ≠ [] →
  ∃ samples,
    mapM id (imap (λ r w, draw_samples (rng r) (Z.of_nat (length world)) n_total
                            (key_arr w)) world) = Some samples
    ∧ length samples = length world
    ∧ (all_keys world ≠ [] → concat samples ≠ []).
Proof.
  intros Hne.
  assert (1 ≤ Z.of_nat (length world)) as Hn by (destruct world; simpl; [done|lia]).
  set (n_pes := Z.of_nat (length world)) in *.
  exists (imap (λ r w, default [] (draw_samples (rng r) n_pes n_total (key_arr w))) world).
  split; [|split].
  - apply mapM_id_imap. intros r x _.
    by destruct (draw_samples_Some (rng r) n_pes n_total (key_arr x) Hn) as (s & -> & _).
  - by rewrite length_imap.
  - intros Hkeys Hempty. apply Hkeys. unfold all_keys.
    clearbody n_pes. clear Hne Hkeys. revert rng Hempty.
    induction world as [|x world IH]; intros rng Hempty; [done|].
    rewrite imap_cons in Hempty. simpl in Hempty.
    apply app_eq_nil in Hempty as [Hx Hrest]. csimpl.
    rewrite (IH (λ r, rng (S r)) Hrest), app_nil_r.
    destruct (draw_samples_Some (rng 0%nat) n_pes n_total (key_arr x) Hn)
      as (s & Hs & Hlen & _).
    rewrite Hs in Hx. simpl in Hx. subst s. simpl in Hlen.
    destruct (key_arr x) as [|k keys]; [done|].
    pose proof (n_loc_samples_pos n_pes n_total (Z.of_nat (length (k :: keys))) Hn) as Hpos.
    simpl length in *. lia.
Qed.

Lemma local_bounds_root (all_samples : list Z) (n_pes : Z) :
  1 ≤ n_pes → all_samples ≠ [] ∨ n_pes = 1 →
  ∃ bounds, local_bounds MPI_ROOT all_samples n_pes = Some bounds
    ∧ Z.of_nat (length bounds) = n_pes - 1 ∧ Sorted Z.le bounds.
Proof.
  intros Hn Hcase. unfold local_bounds, empty_like_type.
  destruct (Z.ltb_spec (n_pes - 1) 0); [lia|]. simpl.
  destruct (decide (all_samples = [])) as [->|Hne].
  - destruct Hcase as [?| ->]; [done|]. by exists [].
  - destruct (root_bounds_spec all_samples n_pes (replicate (Z.to_nat (n_pes - 1)) 0))
      as (step & bounds & _ & _ & Hb & Hlen & _ & Hs); [done|done| |].
    { rewrite length_replicate. lia. }
    by exists bounds.
Qed.

Lemma local_bounds_other (my_rank : Z) (all_samples : list Z) (n_pes : Z) :
  1 ≤ n_pes → my_rank ≠ MPI_ROOT →
  local_bounds my_rank all_samples n_pes = Some (replicate (Z.to_nat (n_pes - 1)) 0).
Proof.
  intros Hn Hr. unfold local_bounds, empty_like_type.
  destruct (Z.ltb_spec (n_pes - 1) 0); [lia|]. simpl.
  by destruct (Z.eqb_spec my_rank MPI_ROOT).
Qed.

Lemma bounds_Some (samples : list (list Z)) :
  samples ≠ [] → concat samples ≠ [] ∨ length samples = 1%nat →
  ∃ bs bounds,
    mapM id (imap (λ r a, local_bounds (Z.of_nat r) a (Z.of_nat (length samples)))
               (imap (λ r _, if Z.of_nat r =? MPI_ROOT then concat samples else [])
                     samples)) = Some bs
    ∧ length bs = length samples
    ∧ bs !! 0%nat = Some bounds
    ∧ Z.of_nat (length bounds) = Z.of_nat (length samples) - 1
    ∧ Sorted Z.le bounds.
Proof.
  intros Hne Hcase. set (n_pes := Z.of_nat (length samples)).
  assert (1 ≤ n_pes) as Hn by (unfold n_pes; destruct samples; simpl; [done|lia]).
  destruct (local_bounds_root (concat samples) n_pes Hn) as (bounds & Hb & Hlen & Hs).
  { destruct Hcase; [by left|right; unfold n_pes; lia]. }
  eexists _, bounds. split; [|split; [|split]].
  - apply (mapM_id_imap _ (λ r a, default [] (local_bounds (Z.of_nat r) a n_pes))).
    intros r a Ha. rewrite list_lookup_imap in Ha.
    destruct (samples !! r); simplify_eq/=.
    destruct (Z.eqb_spec (Z.of_nat r) MPI_ROOT) as [->|Hr].
    + by rewrite Hb.
    + by rewrite local_bounds_other.
  - by rewrite !length_imap.
  - rewrite !list_lookup_imap.
    destruct (lookup_lt_is_Some_2 samples 0%nat) as [s0 ->]; [unfold n_pes in Hn; lia|].
    simpl. change (Z.of_nat 0) with MPI_ROOT. by rewrite Hb.
  - done.
Qed.

Lemma bcast_root {A} (bs : list A) (b : A) tr :
  bs !! 0%nat = Some b →
  bcast bs tr = Some (replicate (length bs) b, tr ++ [CBcast]).
Proof.
  intros Hb. unfold bcast, call. destruct bs as [|b0 bs]; [done|].
  simpl in *. by simplify_eq.
Qed.

Lemma routed_Some world (n_pes : Z) (bounds : list Z) :
  1 ≤ n_pes → Z.of_nat (length bounds) = n_pes - 1 →
  ∀ n : nat, (length world ≤ n)%nat →
  ∃ routed,
    mapM (λ wb : Worker V * list Z, route (key_arr wb.1) n_pes wb.2)
         (zip world (replicate n bounds)) = Some routed
    ∧ Forall2 (λ x r, route (key_arr x) n_pes bounds = Some r) world routed.
Proof.
  intros Hn Hb. induction world as [|x world IH]; intros n Hlen.
  - exists []. by destruct n.
  - destruct n as [|n]; simpl in Hlen; [lia|].
    destruct (IH n ltac:(lia)) as (routed & Hr & Hall).
    destruct (route_Some (key_arr x) n_pes bounds Hn Hb) as (dests & m & Hx & _).
    exists ((dests, m) :: routed). split; [|by constructor].
    simpl. rewrite Hx. simpl. rewrite Hr. done.
Qed.

Lemma route_send_counts (keys : list Z) (n_pes : Z) (bounds : list Z) r :
  1 ≤ n_pes → Z.of_nat (length bounds) = n_pes - 1 →
  Z.of_nat (length keys) < 2 ^ 31 →
  route keys n_pes bounds = Some r →
  Z.of_nat (length (send_counts r.2)) = n_pes
  ∧ Forall (Z.le 0) (send_counts r.2)
  ∧ Py.sum (send_counts r.2) = Z.of_nat (length keys).
Proof.
  intros Hn Hb Hlen Hr. destruct r as [dests m].
  destruct (route_Some keys n_pes bounds Hn Hb) as (dests' & m' & Hr' & _ & _ & _ & Hl).
  rewrite Hr in Hr'. simplify_eq/=.
  destruct (route_counts _ _ _ _ _ Hr Hlen) as [Hcounts Hsum].
  split; [done|]. split; [|done].
  apply Forall_lookup. intros d c Hc.
  pose proof (lookup_lt_Some _ _ _ Hc).
  rewrite Hcounts in Hc by lia. simplify_eq. unfold count_dest. lia.
Qed.

Lemma alltoall_Some (scs : list (list Z)) tr :
  counts_ok scs →
  alltoall scs tr
  = Some ((λ w, recv_counts_of scs w) <$> seq 0 (length scs), tr ++ [CAlltoall]).
Proof.
  intros Hok. unfold alltoall, call.
  rewrite (mapM_Some_fmap _ (λ w, recv_counts_of scs w)); [done|].
  apply Forall_forall. intros w Hw. apply elem_of_seq in Hw.
  apply mapM_Some_fmap. eapply Forall_impl; [exact Hok|].
  intros sc [Hlen _]. simpl. apply list_lookup_lookup_total_lt. lia.
Qed.

Lemma finalize_impl_Some (m : ShuffleMeta) (scs : list (list Z)) (w : nat) :
  counts_ok scs → (w < length scs)%nat → send_counts m = scs !!! w →
  finalize_impl m (recv_counts_of scs w)
  = Some (final_meta scs w
            (replicate (Z.to_nat (Py.sum (recv_counts_of scs w))) 0)).
Proof.
  intros Hok Hw Hm. unfold finalize_impl, np_zeros.
  pose proof (sum_nonneg _ (recv_counts_of_nonneg scs w Hok Hw)).
  destruct (Z.ltb_spec (Py.sum (recv_counts_of scs w)) 0); [lia|]. simpl.
  unfold final_meta. by rewrite Hm.
Qed.

Lemma finalize_shuffle_meta_Some (metas : list ShuffleMeta) (scs : list (list Z)) tr :
  send_counts <$> metas = scs → counts_ok scs →
  finalize_shuffle_meta metas tr
  = Some ((λ w, final_meta scs w
                  (replicate (Z.to_nat (Py.sum (recv_counts_of scs w))) 0))
            <$> seq 0 (length scs), tr ++ [CAlltoall]).
Proof.
  intros Hm Hok. unfold finalize_shuffle_meta.
  unfold mbind, M_bind. rewrite Hm, alltoall_Some by done.
  unfold lift. rewrite (mapM_lookup _ _ ((λ w, final_meta scs w
      (replicate (Z.to_nat (Py.sum (recv_counts_of scs w))) 0)) <$> seq 0 (length scs)));
    [done| |].
  - rewrite length_zip, !length_fmap, length_seq. subst scs.
    rewrite length_fmap. lia.
  - intros i [m recv] y Hi Hy. apply lookup_zip_Some in Hi as [Hmi Hri].
    rewrite list_lookup_fmap in Hri. rewrite list_lookup_fmap in Hy.
    destruct (seq 0 (length scs) !! i) as [w|] eqn:Hw; simplify_eq/=.
    apply lookup_seq in Hw as [-> Hw]. simpl.
    apply finalize_impl_Some; [done|done|].
    symmetry. apply list_lookup_total_correct. by rewrite list_lookup_fmap, Hmi.
Qed.

Lemma side_of_final_ok {A} (scs : list (list Z)) (s : nat) (buf out : list A)
    (o : list Z) :
  length out = Z.to_nat (Py.sum (recv_counts_of scs s)) →
  side_ok scs s buf (side_of buf out (final_meta scs s o)).
Proof. intros Hout. by split_and!. Qed.

Lemma alltoallv_Some (keys : list (list Z)) (scs : list (list Z)) tr :
  counts_ok scs →
  Forall2 (λ sc buf, Py.sum sc = Z.of_nat (length buf)) scs keys →
  alltoallv keys
    ((λ w, final_meta scs w
             (replicate (Z.to_nat (Py.sum (recv_counts_of scs w))) 0))
       <$> seq 0 (length scs)) tr
  = Some ((λ w, final_meta scs w (received scs w keys)) <$> seq 0 (length scs),
          tr ++ [CAlltoallv]).
Proof.
  intros Hok Hsum. unfold alltoallv, mbind, M_bind, call.
  pose proof (Forall2_length _ _ _ Hsum) as Hlen.
  rewrite (exchange_spec scs keys); [|done|done|].
  - unfold mret, M_ret. do 2 f_equal.
    rewrite zip_with_fmap_l, zip_with_fmap_r, zip_with_diag.
    by apply list_fmap_ext.
  - split.
    + rewrite length_zip_with, length_fmap, length_seq. lia.
    + intros s side Hs. apply lookup_zip_with_Some in Hs as (k & m & -> & Hk & Hm).
      rewrite list_lookup_fmap in Hm.
      destruct (seq 0 (length scs) !! s) as [w|] eqn:Hw; simplify_eq/=.
      apply lookup_seq in Hw as [-> Hw]. simpl.
      rewrite (list_lookup_total_correct _ _ _ Hk).
      apply side_of_final_ok. by rewrite length_replicate.
Qed.

Lemma alloc_arr_tup_Some (scs : list (list Z)) world (outs : nat → list Z) :
  counts_ok scs → length world = length scs →
  mapM (λ wm : Worker V * ShuffleMeta, alloc_arr_tup (n_out wm.2) (data wm.1))
       (zip world ((λ w, final_meta scs w (outs w)) <$> seq 0 (length scs)))
  = Some (imap (λ w x, (λ _, replicate (Z.to_nat (Py.sum (recv_counts_of scs w)))
                               inhabitant) <$> data x) world).
Proof.
  intros Hok Hlen. apply mapM_lookup.
  - rewrite length_zip, length_imap, length_fmap, length_seq. lia.
  - intros i [x m] y Hi Hy. apply lookup_zip_Some in Hi as [Hx Hm].
    rewrite list_lookup_fmap in Hm. rewrite list_lookup_imap, Hx in Hy.
    destruct (seq 0 (length scs) !! i) as [w|] eqn:Hw; simplify_eq/=.
    apply lookup_seq in Hw as [-> Hw]. simpl. unfold alloc_arr_tup.
    pose proof (sum_nonneg _ (recv_counts_of_nonneg scs i Hok Hw)).
    by destruct (Z.ltb_spec (Py.sum (recv_counts_of scs i)) 0); [lia|].
Qed.

Lemma column_sides_Some (scs : list (list Z)) world (outs : nat → list Z)
    (N j : nat) :
  length world = length scs → Forall (wf_worker N) world → (j < N)%nat →
  let metas := (λ w, final_meta scs w (outs w)) <$> seq 0 (length scs) in
  column_sides j (data <$> world)
    (imap (λ w x, (λ _, replicate (Z.to_nat (Py.sum (recv_counts_of scs w)))
                          inhabitant) <$> data x) world)
    (send_counts <$> metas) (recv_counts <$> metas)
    (send_disp <$> metas) (recv_disp <$> metas)
  = Some (imap (λ s y, side_of (data y !!! j)
                         (replicate (Z.to_nat (Py.sum (recv_counts_of scs s))) inhabitant)
                         (final_meta scs s (outs s))) world).
Proof.
  intros Hlen Hwf Hj metas. unfold column_sides. apply mapM_lookup.
  - by rewrite length_seq, length_imap, length_fmap.
  - intros i s side Hs Hside. apply lookup_seq in Hs as [-> Hs].
    rewrite length_fmap in Hs. simpl.
    rewrite list_lookup_imap in Hside.
    destruct (world !! i) as [y|] eqn:Hy; simplify_eq/=.
    eapply Forall_lookup_1 in Hwf as [HN _]; [|done].
    destruct (lookup_lt_is_Some_2 (data y) j ltac:(lia)) as [col Hcol].
    assert (metas !! i = Some (final_meta scs i (outs i))) as Hm.
    { unfold metas. by rewrite list_lookup_fmap, lookup_seq_lt by lia. }
    rewrite (list_lookup_fmap data), Hy. csimpl.
    rewrite list_lookup_imap, Hy. csimpl. rewrite Hcol. csimpl.
    rewrite (list_lookup_fmap _ (data y)), Hcol. csimpl.
    rewrite !list_lookup_fmap, Hm. csimpl.
    by rewrite (list_lookup_total_correct _ _ _ Hcol).
Qed.

Lemma alltoallv_tup_Some (scs : list (list Z)) world (outs : nat → list Z)
    (N : nat) tr :
  counts_ok scs → Forall (wf_worker N) world →
  Forall2 (λ sc x, Py.sum sc = Z.of_nat (length (key_arr x))) scs world →
  let metas := (λ w, final_meta scs w (outs w)) <$> seq 0 (length scs) in
  alltoallv_tup (data <$> world)
    (imap (λ w x, (λ _, replicate (Z.to_nat (Py.sum (recv_counts_of scs w)))
                          inhabitant) <$> data x) world)
    (send_counts <$> metas) (recv_counts <$> metas)
    (send_disp <$> metas) (recv_disp <$> metas) tr
  = Some (imap (λ w x, (λ j, received scs w ((λ y : Worker V, data y !!! j) <$> world))
                         <$> seq 0 (length (data x))) world,
          tr ++ [CAlltoallvTup]).
Proof.
  intros Hok Hwf Hsum metas. unfold alltoallv_tup, call.
  pose proof (Forall2_length _ _ _ Hsum) as Hlen. symmetry in Hlen.
  rewrite (mapM_lookup _ _ (imap (λ w x, (λ j, received scs w
      ((λ y : Worker V, data y !!! j) <$> world)) <$> seq 0 (length (data x))) world));
    [done| |].
  { by rewrite !length_imap, length_fmap. }
  intros w [w' d] y Hw Hy. rewrite list_lookup_imap, list_lookup_fmap in Hw.
  rewrite list_lookup_imap in Hy.
  destruct (world !! w) as [x|] eqn:Hx; simplify_eq/=.
  pose proof (lookup_lt_Some _ _ _ Hx) as Hw.
  apply mapM_Some_fmap. apply Forall_forall. intros j Hj.
  apply elem_of_seq in Hj.
  pose proof (Forall_lookup_1 _ _ _ _ Hwf Hx) as [HN _].
  unfold metas. rewrite (column_sides_Some scs world outs N j) by (done || lia).
  simpl.
  apply exchange_at_spec; [done| | |lia].
  - apply Forall2_fmap_r. apply Forall2_same_length_lookup_2; [done|].
    intros s sc z Hsc Hz.
    pose proof (Forall2_lookup_lr _ _ _ _ _ _ Hsum Hsc Hz) as Hs. simpl in Hs.
    pose proof (Forall_lookup_1 _ _ _ _ Hwf Hz) as [HNz Hcols].
    rewrite Hs. unfold compose.
    destruct (lookup_lt_is_Some_2 (data z) j ltac:(lia)) as [col Hcol].
    rewrite (list_lookup_total_correct _ _ _ Hcol).
    eapply Forall_lookup_1 in Hcols; [|done]. simpl in Hcols. lia.
  - split; [by rewrite length_imap|].
    intros s side Hs. rewrite list_lookup_imap in Hs.
    destruct (world !! s) as [z|] eqn:Hz; simplify_eq/=.
    assert (((λ y : Worker V, data y !!! j) <$> world) !!! s = data z !!! j) as ->.
    { apply list_lookup_total_correct. by rewrite list_lookup_fmap, Hz. }
    apply side_of_final_ok. by rewrite length_replicate.
Qed.

Lemma parallel_sort_run (rng : nat → nat → Z) world (N : nat) tr :
  world ≠ [] → Forall (wf_worker N) world →
  Forall (λ x, Z.of_nat (length (key_arr x)) < 2 ^ 31) world →
  all_keys world ≠ [] ∨ length world = 1%nat →
  ∃ samples bounds scs,
    mapM id (imap (λ r w, draw_samples (rng r) (Z.of_nat (length world))
                            (Py.sum ((λ w, Z.of_nat (length (key_arr w))) <$> world))
                            (key_arr w)) world) = Some samples
    ∧ local_bounds MPI_ROOT (concat samples) (Z.of_nat (length world)) = Some bounds
    ∧ Z.of_nat (length bounds) = Z.of_nat (length world) - 1
    ∧ Sorted Z.le bounds
    ∧ Forall2 (λ x sc, ∃ r, route (key_arr x) (Z.of_nat (length world)) bounds = Some r
                          ∧ send_counts r.2 = sc) world scs
    ∧ counts_ok scs
    ∧ Forall2 (λ sc x, Py.sum sc = Z.of_nat (length (key_arr x))) scs world
    ∧ parallel_sort rng world tr = Some (exchanged scs world, tr ++ shuffle_trace).
Proof.
  intros Hne Hwf H32 Hcase. unfold parallel_sort.
  set (n_pes := Z.of_nat (length world)).
  assert (1 ≤ n_pes) as Hn by (unfold n_pes; destruct world; simpl; [done|lia]).
  set (n_total := Py.sum ((λ w, Z.of_nat (length (key_arr w))) <$> world)).
  destruct (samples_Some rng world n_total Hne) as (samples & Hsamples & Hslen & Hsne).
  destruct (bounds_Some samples) as (bs & bounds & Hbs & Hbslen & Hb0 & Hblen & Hbsorted).
  { intros ->. by destruct world. }
  { destruct Hcase as [?|?]; [left; auto|right; lia]. }
  rewrite Hslen in Hbs, Hblen. fold n_pes in Hbs, Hblen.
  assert (local_bounds MPI_ROOT (concat samples) n_pes = Some bounds) as Hroot.
  { destruct (mapM_id_imap_lookup _ _ _ _ _ Hbs Hb0) as (a & Ha & Hlb).
    rewrite list_lookup_imap in Ha.
    destruct (samples !! 0%nat); simplify_eq/=. done. }
  destruct (routed_Some world n_pes bounds Hn Hblen (length bs) ltac:(lia))
    as (routed & Hrouted & Hroute).
  set (scs := (λ r : list Z * ShuffleMeta, send_counts r.2) <$> routed).
  pose proof (Forall2_length _ _ _ Hroute) as Hrlen.
  assert (Forall2 (λ x sc, ∃ r, route (key_arr x) n_pes bounds = Some r
                              ∧ send_counts r.2 = sc) world scs) as Hscs.
  { unfold scs. apply Forall2_fmap_r. eapply Forall2_impl; [exact Hroute|].
    intros x r Hr. by exists r. }
  assert (Forall2 (λ sc x, Z.of_nat (length sc) = n_pes ∧ Forall (Z.le 0) sc
                     ∧ Py.sum sc = Z.of_nat (length (key_arr x))) scs world) as Hfacts.
  { apply Forall2_same_length_lookup_2; [unfold scs; rewrite length_fmap; lia|].
    intros s sc x Hsc Hx.
    destruct (Forall2_lookup_lr _ _ _ _ _ _ Hscs Hx Hsc) as (r & Hr & <-).
    apply (route_send_counts (key_arr x) n_pes bounds r); [done|done| |done].
    by eapply (Forall_lookup_1 _ _ _ _ H32). }
  assert (length scs = length world) as Hscslen.
  { unfold scs. rewrite length_fmap. lia. }
  assert (counts_ok scs) as Hok.
  { unfold counts_ok. apply Forall_lookup. intros s sc Hsc.
    destruct (Forall2_lookup_l _ _ _ _ _ Hfacts Hsc) as (x & _ & Hl & Hnn & _).
    split; [unfold n_pes in Hl; lia|done]. }
  assert (Forall2 (λ sc x, Py.sum sc = Z.of_nat (length (key_arr x))) scs world) as Hsum.
  { eapply Forall2_impl; [exact Hfacts|]. by intros sc x (_ & _ & ?). }
  exists samples, bounds, scs. split_and!; [done..|].
  unfold mbind, M_bind, dist_reduce, call, lift. fold n_total.
  fold n_pes in Hsamples. rewrite Hsamples. unfold gatherv, call. rewrite Hbs.
  rewrite (bcast_root bs bounds) by done.
  rewrite Hrouted.
  rewrite (finalize_shuffle_meta_Some _ scs);
    [|unfold scs; by rewrite <-list_fmap_compose|done].
  rewrite (alltoallv_Some (key_arr <$> world) scs);
    [|done|by apply Forall2_fmap_r].
  rewrite (alloc_arr_tup_Some scs world) by done.
  rewrite (alltoallv_tup_Some scs world _ N) by done.
  unfold mret, M_ret, shuffle_trace. rewrite <-!app_assoc. simpl. do 2 f_equal.
  unfold exchanged. apply list_eq. intros w.
  rewrite lookup_zip_with, list_lookup_fmap, !list_lookup_imap.
  destruct (world !! w) as [x|] eqn:Hx; simpl.
  - rewrite lookup_seq_lt by (apply lookup_lt_Some in Hx; lia). done.
  - apply lookup_ge_None in Hx. by rewrite lookup_seq_ge by lia.
Qed.

Lemma parallel_sort_spec (rng : nat → nat → Z) world (N : nat) tr :
  world ≠ [] → Forall (wf_worker N) world →
  Forall (λ x, Z.of_nat (length (key_arr x)) < 2 ^ 31) world →
  all_keys world ≠ [] ∨ length world = 1%nat →
  ∃ bounds scs,
    Z.of_nat (length bounds) = Z.of_nat (length world) - 1
    ∧ Sorted Z.le bounds
    ∧ Forall2 (λ x sc, ∃ r, route (key_arr x) (Z.of_nat (length world)) bounds = Some r
                          ∧ send_counts r.2 = sc) world scs
    ∧ counts_ok scs
    ∧ Forall2 (λ sc x, Py.sum sc = Z.of_nat (length (key_arr x))) scs world
    ∧ parallel_sort rng world tr = Some (exchanged scs world, tr ++ shuffle_trace).
Proof.
  intros Hne Hwf H32 Hcase.
  destruct (parallel_sort_run rng world N tr Hne Hwf H32 Hcase)
    as (samples & bounds & scs & _ & _ & Hrest).
  by exists bounds, scs.
Qed.

End Stages.

(** ** Rows through the exchange and through the local sort *)

Section RowsThrough.
Context {V : Type} `{!Inhabited V}.
Implicit Types (x : Worker V) (world : list (Worker V)).

Lemma received_Forall {A} (P : A → Prop) (scs : list (list Z)) (w : nat)
    (bufs : list (list A)) :
  Forall (Forall P) bufs → Forall P (received scs w bufs).
Proof.
  intros Hb. unfold received. apply Forall_concat.
  revert scs. induction Hb as [|buf bufs Hbuf _ IH]; intros [|sc scs]; simpl;
    constructor; [|by apply IH].
  unfold slice_for. by apply Forall_take, Forall_drop.
Qed.

Lemma exchanged_rows (scs : list (list Z)) world (N : nat) :
  Forall (wf_worker N) world →
  exchanged scs world
  = (λ w, worker_of N (received scs w (rows_of <$> world))) <$> seq 0 (length world).
Proof.
  intros Hwf. unfold exchanged. rewrite <-imap_seq_0.
  apply imap_ext. intros w x Hx. simpl.
  pose proof (Forall_lookup_1 _ _ _ _ Hwf Hx) as [HN _].
  unfold worker_of. f_equal.
  - rewrite <-received_fmap. f_equal. rewrite <-list_fmap_compose.
    apply list_fmap_ext. intros s y Hy. simpl.
    pose proof (Forall_lookup_1 _ _ _ _ Hwf Hy) as Hwfy.
    by rewrite <-(worker_of_rows N y Hwfy) at 1.
  - rewrite HN. apply list_fmap_ext. intros ? j Hj.
    apply lookup_seq in Hj as [-> Hj]. simpl.
    unfold column. rewrite <-received_fmap. f_equal.
    rewrite <-list_fmap_compose.
    apply list_fmap_ext. intros s y Hy. simpl.
    pose proof (Forall_lookup_1 _ _ _ _ Hwf Hy) as Hwfy.
    rewrite <-(worker_of_rows N y Hwfy) at 1.
    by rewrite column_fmap_lookup.
Qed.

Lemma received_rows_arity (scs : list (list Z)) (w : nat) world (N : nat) :
  Forall (wf_worker N) world →
  Forall (λ r : Z * list V, length r.2 = N) (received scs w (rows_of <$> world)).
Proof.
  intros Hwf. apply received_Forall. apply Forall_fmap.
  eapply Forall_impl; [exact Hwf|]. intros x Hx. by apply rows_of_arity.
Qed.

Lemma all_rows_exchanged (scs : list (list Z)) world (N : nat) :
  Forall (wf_worker N) world → counts_ok scs →
  Forall2 (λ sc x, Py.sum sc = Z.of_nat (length (key_arr x))) scs world →
  all_rows (exchanged scs world) ≡ₚ all_rows world.
Proof.
  intros Hwf Hok Hsum. unfold all_rows.
  rewrite (exchanged_rows scs world N Hwf).
  rewrite <-list_fmap_compose.
  rewrite (list_fmap_ext _ (λ w, received scs w (rows_of <$> world))
             (seq 0 (length world))).
  2:{ intros ? w _. simpl. apply rows_of_worker_of. by apply received_rows_arity. }
  rewrite <-(Forall2_length _ _ _ Hsum).
  apply received_conservation; [done|].
  apply Forall2_fmap_r. eapply Forall2_impl; [exact Hsum|].
  intros sc x Hs. simpl. by rewrite rows_of_length.
Qed.

Lemma exchanged_wf (scs : list (list Z)) world (N : nat) :
  Forall (wf_worker N) world → Forall (wf_worker N) (exchanged scs world).
Proof.
  intros Hwf. rewrite (exchanged_rows scs world N Hwf).
  apply Forall_fmap, Forall_forall. intros w _. apply worker_of_wf.
Qed.

Lemma timsort_perm_full (keys : list Z) :
  timsort_perm keys 0 (Z.of_nat (length keys)) = sort_perm keys.
Proof.
  unfold timsort_perm. rewrite Nat2Z.id. simpl.
  rewrite Nat.sub_0_r, Nat.sub_diag, app_nil_r, take_ge by done.
  rewrite (list_fmap_ext _ id (sort_perm keys)) by done.
  apply list_fmap_id.
Qed.

Lemma sort_impl_eq x :
  sort_impl x
  = mkWorker (ndarray_sort (key_arr x)) (permute (sort_perm (key_arr x)) <$> data x).
Proof. unfold sort_impl, timsort_sort. by rewrite timsort_perm_full. Qed.

Lemma sort_impl_rows (N : nat) x :
  wf_worker N x →
  sort_impl x = worker_of N (permute (sort_perm (key_arr x)) (rows_of x)).
Proof.
  intros Hwf. rewrite sort_impl_eq. unfold ndarray_sort.
  rewrite <-(worker_of_rows N x Hwf) at 2 4.
  unfold worker_of. simpl. f_equal.
  - by rewrite permute_fmap.
  - rewrite <-list_fmap_compose. apply list_fmap_ext. intros ? j _. simpl.
    unfold column. by rewrite permute_fmap.
Qed.

Lemma permute_subseteq {A} (P : A → Prop) p (l : list A) :
  Forall P l → Forall P (permute p l).
Proof.
  intros Hl. apply Forall_forall. intros y Hy.
  apply list_elem_of_omap in Hy as (i & _ & Hi).
  by eapply (Forall_lookup_1 _ _ _ _ Hl).
Qed.

Lemma rows_of_sort_impl (N : nat) x :
  wf_worker N x →
  rows_of (sort_impl x) = permute (sort_perm (key_arr x)) (rows_of x).
Proof.
  intros Hwf. rewrite (sort_impl_rows N x Hwf).
  apply rows_of_worker_of. apply permute_subseteq. by apply rows_of_arity.
Qed.

Lemma rows_of_sort_impl_perm (N : nat) x :
  wf_worker N x → rows_of (sort_impl x) ≡ₚ rows_of x.
Proof.
  intros Hwf. rewrite (rows_of_sort_impl N x Hwf).
  apply permute_perm. by rewrite sort_perm_perm, rows_of_length.
Qed.

Lemma sort_impl_wf (N : nat) x : wf_worker N x → wf_worker N (sort_impl x).
Proof. intros Hwf. rewrite (sort_impl_rows N x Hwf). apply worker_of_wf. Qed.

Lemma sort_impl_length x : length (key_arr (sort_impl x)) = length (key_arr x).
Proof. rewrite sort_impl_eq. simpl. apply ndarray_sort_length. Qed.

Lemma all_rows_sort_impl (N : nat) world :
  Forall (wf_worker N) world → all_rows (sort_impl <$> world) ≡ₚ all_rows world.
Proof.
  unfold all_rows. induction 1 as [|x world Hx _ IH]; [done|].
  csimpl. by rewrite IH, (rows_of_sort_impl_perm N x Hx).
Qed.

Lemma all_keys_sort_impl_length world :
  length (all_keys (sort_impl <$> world)) = length (all_keys world).
Proof.
  unfold all_keys. induction world as [|x world IH]; [done|].
  rewrite !fmap_cons. change (concat (?l :: ?ls)) with (l ++ concat ls).
  by rewrite !length_app, sort_impl_length, IH.
Qed.

Lemma all_keys_sort_impl_nil world :
  all_keys world ≠ [] → all_keys (sort_impl <$> world) ≠ [].
Proof.
  intros Hne Hnil. apply Hne. apply nil_length_inv.
  by rewrite <-all_keys_sort_impl_length, Hnil.
Qed.

End RowsThrough.

(** ** The orchestrator *)

Lemma common_dist_REP (array_dists : gmap string Distribution) (cols : list string) :
  ∀ (in_dist common : Distribution),
  common_dist array_dists in_dist cols = Some common →
  Forall (λ v, is_Some (array_dists !! v)) cols
  ∧ (common = REP ↔ in_dist = REP ∨ Exists (λ v, array_dists !! v = Some REP) cols).
Proof.
  induction cols as [|v cols IH]; intros in_dist common Hc; simpl in Hc.
  - simplify_eq. split; [done|]. split; [by left|].
    intros [?|He]; [done|by inversion He].
  - destruct (array_dists !! v) as [d|] eqn:Hv; [|done]. simpl in Hc.
    destruct (Distribution_of_value _) as [in_dist'|] eqn:Hmin; [|done].
    simpl in Hc. destruct (IH _ _ Hc) as [Hall Hiff].
    split; [constructor; [by rewrite Hv|done]|].
    rewrite Hiff, Exists_cons, Hv.
    assert (in_dist' = REP ↔ in_dist = REP ∨ d = REP) as ->.
    { destruct in_dist, d; vm_compute in Hmin; simplify_eq; intuition congruence. }
    split.
    + intros [[?|?]|?]; [by left|right; left; by f_equal|by right; right].
    + intros [?|[[= ->]|?]]; [by left; left|by left; right|by right].
Qed.

Lemma is_parallel_spec (array_dists : gmap string Distribution) (vars : list string) :
  ∀ parallel : bool,
  Forall (λ v, is_Some (array_dists !! v)) vars →
  is_parallel array_dists parallel vars
  = Some (parallel && bool_decide (Forall (λ v, array_dists !! v ≠ Some REP) vars)).
Proof.
  induction vars as [|v vars IH]; intros parallel Hall; simpl.
  - by rewrite andb_true_r.
  - apply Forall_cons in Hall as [[d Hd] Hall]. rewrite Hd. simpl.
    rewrite IH by done. f_equal.
    destruct d; simpl.
    + rewrite (bool_decide_eq_false_2 (Forall _ (v :: vars))).
      * by rewrite andb_false_r.
      * intros [Hv _]%Forall_cons. by apply Hv.
    + f_equal. apply bool_decide_ext. rewrite Forall_cons, Hd.
      intuition congruence.
    + f_equal. apply bool_decide_ext. rewrite Forall_cons, Hd.
      intuition congruence.
Qed.

Lemma lookup_foldl_insert (c : Distribution) (cols : list string) :
  ∀ (ds : gmap string Distribution) (u : string),
  foldl (λ ds v, <[v := c]> ds) ds cols !! u
  = if decide (u ∈ cols) then Some c else ds !! u.
Proof.
  induction cols as [|v cols IH]; intros ds u; cbn [foldl].
  - case_decide as Hin; [by apply not_elem_of_nil in Hin|done].
  - rewrite IH. destruct (decide (u ∈ cols)) as [Hin|Hnin].
    + case_decide as Hin'; [done|]. exfalso. apply Hin'. by right.
    + destruct (decide (u = v)) as [->|Hne].
      * rewrite lookup_insert_eq. case_decide as Hin'; [done|].
        exfalso. apply Hin'. by left.
      * rewrite lookup_insert_ne by done.
        case_decide as Hin'; [|done]. by apply elem_of_cons in Hin' as [?|?].
Qed.

Lemma common_dist_same (ds : gmap string Distribution) (c : Distribution)
    (cols : list string) :
  Forall (λ v, ds !! v = Some c) cols → common_dist ds c cols = Some c.
Proof.
  induction 1 as [|v cols Hv _ IH]; [done|]. simpl. rewrite Hv. simpl.
  assert (Distribution_of_value (Z.min (Distribution_value c) (Distribution_value c))
          = Some c) as -> by (by destruct c).
  done.
Qed.

(** After [sort_distributed_analysis] the key array and every column carry
    the common classification. *)
Lemma sort_distributed_analysis_spec (sort_node : Sort)
    (array_dists array_dists' : gmap string Distribution) :
  sort_distributed_analysis sort_node array_dists = Some array_dists' →
  ∃ in_dist common,
    array_dists !! sort_key_arr sort_node = Some in_dist
    ∧ common_dist array_dists in_dist (df_vars sort_node).*2 = Some common
    ∧ Forall (λ v, array_dists' !! v = Some common)
        (sort_key_arr sort_node :: (df_vars sort_node).*2)
    ∧ common_dist array_dists' common (df_vars sort_node).*2 = Some common.
Proof.
  unfold sort_distributed_analysis. intros Ha.
  destruct (array_dists !! sort_key_arr sort_node) as [in_dist|] eqn:Hk; [|done].
  simpl in Ha.
  destruct (common_dist array_dists in_dist (df_vars sort_node).*2) as [common|] eqn:Hc;
    [|done].
  simpl in Ha. simplify_eq. exists in_dist, common. split; [done|]. split; [done|].
  assert (Forall (λ v, <[sort_key_arr sort_node := common]>
            (foldl (λ ds v0, <[v0 := common]> ds) array_dists (df_vars sort_node).*2)
            !! v = Some common) (sort_key_arr sort_node :: (df_vars sort_node).*2)) as Hall.
  { apply Forall_forall. intros v Hv.
    destruct (decide (v = sort_key_arr sort_node)) as [->|Hne].
    - by rewrite lookup_insert_eq.
    - rewrite lookup_insert_ne by done. rewrite lookup_foldl_insert.
      apply elem_of_cons in Hv as [?|Hv]; [done|]. by rewrite decide_True. }
  split; [done|]. apply common_dist_same. by apply Forall_cons in Hall as [_ ?].
Qed.

Lemma sort_distributed_run_spec (sort_node : Sort)
    (array_dists : gmap string Distribution) (in_dist common : Distribution) :
  array_dists !! sort_key_arr sort_node = Some in_dist →
  common_dist array_dists in_dist (df_vars sort_node).*2 = Some common →
  sort_distributed_run sort_node array_dists
  = Some (if decide (common = REP)
          then [SortImpl (sort_key_arr sort_node) (df_vars sort_node).*2]
          else [SortImpl (sort_key_arr sort_node) (df_vars sort_node).*2;
                TupImpl (df_vars sort_node).*2;
                ParSortImpl (sort_key_arr sort_node) (df_vars sort_node).*2]).
Proof.
  intros Hk Hc. apply common_dist_REP in Hc as [Hall Hiff].
  unfold sort_distributed_run.
  rewrite is_parallel_spec by (constructor; [by rewrite Hk|done]). simpl.
  case_decide as Hrep.
  - rewrite bool_decide_eq_false_2; [done|].
    rewrite Forall_cons, Hk. intros [Hk' Hcols].
    apply Hiff in Hrep as [->|Hex]; [done|].
    apply Exists_exists in Hex as (v & Hv & Hrep).
    by eapply Forall_forall in Hcols.
  - rewrite bool_decide_eq_true_2; [done|].
    rewrite Forall_cons, Hk. split.
    + intros [= ->]. apply Hrep, Hiff. by left.
    + apply Forall_forall. intros v Hv Hvrep. apply Hrep, Hiff. right.
      apply Exists_exists. by exists v.
Qed.

(** ** The whole call *)




Section Whole.
Context {V : Type} `{!Inhabited V}.
Implicit Types (x : Worker V) (world : list (Worker V)).


Lemma par_sort_impl_spec (rng : nat → nat → Z) world (N : nat) tr :
  world ≠ [] → Forall (wf_worker N) world →
  Forall (λ x, Z.of_nat (length (key_arr x)) < 2 ^ 31) world →
  all_keys world ≠ [] ∨ length world = 1%nat →
  ∃ scs,
    counts_ok scs
    ∧ Forall2 (λ sc x, Py.sum sc = Z.of_nat (length (key_arr x))) scs world
    ∧ par_sort_impl rng world tr
      = Some (sort_impl <$> exchanged scs world, tr ++ shuffle_trace).
Proof.
  intros Hne Hwf H32 Hcase.
  destruct (parallel_sort_spec rng world N tr Hne Hwf H32 Hcase)
    as (bounds & scs & _ & _ & _ & Hok & Hsum & Hps).
  exists scs. split_and!; [done..|].
  unfold par_sort_impl, mbind, M_bind. by rewrite Hps.
Qed.

Lemma elem_of_concat_of {A} (bufs : list (list A)) :
  Forall (Forall (.∈ concat bufs)) bufs.
Proof.
  apply Forall_forall. intros buf Hbuf. apply Forall_forall. intros a Ha.
  apply list_elem_of_In, in_concat. exists buf.
  by rewrite <-!list_elem_of_In.
Qed.

End Whole.

(** ** The scenario of the specification *)

(** Two workers with keys [5, 1, 9] and [3, 8, 2] and the tags a..f: the call
    returns the keys in order, every tag with its key. *)
Example spec_scenario :
  sort_call rng_count example_node partitioned_dists two_workers []
  = Some ([mkWorker [1; 2; 3] [["b"; "f"; "d"]]; mkWorker [5; 8; 9] [["a"; "e"; "c"]]],
          shuffle_trace).
Proof. vm_compute. reflexivity. Qed.

(** With a replicated column every worker sorts what it holds and nothing is
    exchanged. *)
Example replicated_scenario :
  sort_call rng_count example_node replicated_dists two_workers []
  = Some ([mkWorker [1; 5; 9] [["b"; "a"; "c"]]; mkWorker [2; 3; 8] [["f"; "d"; "e"]]],
          []).
Proof. vm_compute. reflexivity. Qed.

(** * The claims *)

(** ** C1 *)

(** Counterexample to C1 as stated: on the unsorted keys [5, 1] with the one
    boundary 3 the loop sends key 1 to worker 1, though no boundary is less
    than or equal to 1; and on the single key 10, which lies beyond both
    boundaries 2 and 3, it advances once only and sends the key to worker 1
    instead of worker 2. *)
Lemma route_not_boundary_lookup :
  (∃ dests m, route [5; 1] 2 [3] = Some (dests, m)
     ∧ dests = [1; 1] ∧ upper_bound [3] <$> [5; 1] = [1; 0]
     ∧ dests ≠ upper_bound [3] <$> [5; 1])
  ∧ (∃ dests m, route [10] 3 [2; 3] = Some (dests, m)
       ∧ dests = [1] ∧ upper_bound [2; 3] <$> [10] = [2]
       ∧ dests ≠ upper_bound [2; 3] <$> [10]).
Proof.
  split; eexists _, _; (split; [reflexivity|]);
    (split; [reflexivity|]); (split; [reflexivity|]); discriminate.
Qed.

(** C1, amended: for a non-decreasing local key sequence and a non-decreasing
    boundary sequence of [n_pes - 1] values, in which no key has more than one
    boundary up to it beyond those of the key before it (none before the
    first), the routing loop gives every key [x] the destination equal to the
    number of boundaries less than or equal to [x]. *)
Theorem route_boundary_lookup_on_sorted (key_arr bounds : list Z) (n_pes : Z) :
  Z.of_nat (length bounds) = n_pes - 1 →
  Sorted Z.le key_arr → Sorted Z.le bounds →
  steps_le_one 0 (upper_bound bounds <$> key_arr) →
  ∃ m, route key_arr n_pes bounds = Some (upper_bound bounds <$> key_arr, m).
Proof.
  intros Hb Hk Hs Hst. unfold route, alloc_shuffle_metadata.
  rewrite np_zeros_Some by lia. simpl.
  apply route_loop_upper_bound; try done.
  - simpl. rewrite length_replicate. lia.
  - apply Forall_forall. intros key _. apply upper_bound_range.
Qed.

Lemma route_boundary_lookup_on_sorted_witness :
  ∃ m, route [1; 4; 4; 9] 3 [3; 7] = Some (upper_bound [3; 7] <$> [1; 4; 4; 9], m).
Proof.
  apply (route_boundary_lookup_on_sorted [1; 4; 4; 9] [3; 7] 3).
  - reflexivity.
  - repeat constructor; lia.
  - repeat constructor; lia.
  - vm_compute. repeat split; discriminate.
Defined.

(** ** C6 *)



(** ** C7 *)

(** C7: on the root, with at least one gathered sample (or a single
    worker), the bounds are the [n_pes - 1] values of the ascending samples at
    the indices [min((i + 1) * step, n_samples - 1)], with [step] the ceiling
    of [n_samples / n_pes]; they are non-decreasing, and the broadcast leaves
    every worker with them. *)
Theorem root_bounds_are_strided_cuts (all_samples : list Z) (n_pes : Z) :
  1 ≤ n_pes → all_samples ≠ [] ∨ n_pes = 1 →
  let n_samples := Z.of_nat (length all_samples) in
  ∃ step bounds,
    Py.ceil_div n_samples n_pes = Some step
    ∧ (step - 1) * n_pes < n_samples ≤ step * n_pes
    ∧ Sorted Z.le (ndarray_sort all_samples)
    ∧ ndarray_sort all_samples ≡ₚ all_samples
    ∧ local_bounds MPI_ROOT all_samples n_pes = Some bounds
    ∧ Z.of_nat (length bounds) = n_pes - 1
    ∧ (∀ i : nat, Z.of_nat i < n_pes - 1 →
         bounds !! i = ndarray_sort all_samples !! Z.to_nat
                         (Z.min ((Z.of_nat i + 1) * step) (n_samples - 1)))
    ∧ Sorted Z.le bounds
    ∧ (∀ (others : list (list Z)) tr,
         bcast (bounds :: others) tr
         = Some (replicate (S (length others)) bounds, tr ++ [CBcast])).
Proof.
  intros Hn Hcase n_samples.
  destruct (ceil_div_nonneg n_samples n_pes) as (step & Hstep & _); [lia|done|].
  pose proof (ceil_div_spec n_samples n_pes step ltac:(lia) Hstep) as Hceil.
  assert (∃ bounds, local_bounds MPI_ROOT all_samples n_pes = Some bounds
            ∧ Z.of_nat (length bounds) = n_pes - 1
            ∧ (∀ i : nat, Z.of_nat i < n_pes - 1 →
                 bounds !! i = ndarray_sort all_samples !! Z.to_nat
                   (Z.min ((Z.of_nat i + 1) * step) (n_samples - 1)))
            ∧ Sorted Z.le bounds) as (bounds & Hb & Hlen & Hcut & Hs).
  { unfold local_bounds, empty_like_type.
    destruct (Z.ltb_spec (n_pes - 1) 0); [lia|]. simpl.
    destruct (decide (all_samples = [])) as [->|Hne].
    - destruct Hcase as [?| ->]; [done|]. exists []. split; [done|].
      split; [done|]. split; [intros i Hi; lia|constructor].
    - destruct (root_bounds_spec all_samples n_pes (replicate (Z.to_nat (n_pes - 1)) 0))
        as (step' & bounds & Hstep' & _ & Hb & Hlen & Hcut & Hs); [done|done| |].
      { rewrite length_replicate. lia. }
      fold n_samples in Hstep', Hcut. rewrite Hstep in Hstep'. simplify_eq.
      by exists bounds. }
  exists step, bounds.
  split; [done|]. split; [done|]. split; [apply ndarray_sort_sorted|].
  split; [apply ndarray_sort_perm|]. split; [done|]. split; [done|].
  split; [done|]. split; [done|].
  intros others tr. by rewrite (bcast_root (bounds :: others) bounds).
Qed.

Lemma root_bounds_are_strided_cuts_witness :
  ∃ step bounds,
    Py.ceil_div 5 3 = Some step
    ∧ (step - 1) * 3 < 5 ≤ step * 3
    ∧ Sorted Z.le (ndarray_sort [1; 1; 5; 7; 5])
    ∧ ndarray_sort [1; 1; 5; 7; 5] ≡ₚ [1; 1; 5; 7; 5]
    ∧ local_bounds MPI_ROOT [1; 1; 5; 7; 5] 3 = Some bounds
    ∧ Z.of_nat (length bounds) = 3 - 1
    ∧ (∀ i : nat, Z.of_nat i < 3 - 1 →
         bounds !! i = ndarray_sort [1; 1; 5; 7; 5] !! Z.to_nat
                         (Z.min ((Z.of_nat i + 1) * step) (5 - 1)))
    ∧ Sorted Z.le bounds
    ∧ (∀ (others : list (list Z)) tr,
         bcast (bounds :: others) tr
         = Some (replicate (S (length others)) bounds, tr ++ [CBcast])).
Proof.
  apply (root_bounds_are_strided_cuts [1; 1; 5; 7; 5] 3); [lia|left; discriminate].
Defined.

(** ** C9 *)

(** C9: after the routing loop every row has been counted toward one
    destination in [[0, n_pes)]: [send_counts[d]] is the number of rows sent
    to [d], the counts sum to [n_local], and with one worker every row goes to
    destination 0. The counts are [np.int32], so [n_local] is below [2^31]. *)
Theorem routing_counts_every_row_once (key_arr bounds : list Z) (n_pes : Z) :
  1 ≤ n_pes → Z.of_nat (length bounds) = n_pes - 1 →
  Z.of_nat (length key_arr) < 2 ^ 31 →
  ∃ dests m,
    route key_arr n_pes bounds = Some (dests, m)
    ∧ length dests = length key_arr
    ∧ Forall (λ d, 0 ≤ d < n_pes) dests
    ∧ Z.of_nat (length (send_counts m)) = n_pes
    ∧ (∀ d : nat, Z.of_nat d < n_pes →
         send_counts m !! d = Some (count_dest (Z.of_nat d) dests))
    ∧ Py.sum (send_counts m) = Z.of_nat (length key_arr)
    ∧ (n_pes = 1 → Forall (λ d, d = 0) dests).
Proof.
  intros Hn Hb H32.
  destruct (route_Some key_arr n_pes bounds Hn Hb) as (dests & m & Hr & Hlen & Hall & _ & Hl).
  destruct (route_counts _ _ _ _ _ Hr H32) as [Hcounts Hsum].
  exists dests, m. split_and!; try done.
  intros ->. eapply Forall_impl; [exact Hall|]. simpl. lia.
Qed.

Lemma routing_counts_every_row_once_witness :
  ∃ dests m,
    route [5; 1; 9] 2 [4] = Some (dests, m)
    ∧ length dests = length [5; 1; 9]
    ∧ Forall (λ d, 0 ≤ d < 2) dests
    ∧ Z.of_nat (length (send_counts m)) = 2
    ∧ (∀ d : nat, Z.of_nat d < 2 →
         send_counts m !! d = Some (count_dest (Z.of_nat d) dests))
    ∧ Py.sum (send_counts m) = Z.of_nat (length [5; 1; 9])
    ∧ (2 = 1 → Forall (λ d, d = 0) dests).
Proof.
  apply (routing_counts_every_row_once [5; 1; 9] [4] 2); [lia|reflexivity|].
  vm_compute. reflexivity.
Defined.

(** ** C10 *)

(** C10: the destinations the routing loop produces are non-decreasing in the
    row index; the destination of a row is what [advance] makes of its key and
    of the node id left by the rows before it, so it is fixed by the keys up
    to that row; and the rows of one destination are contiguous. *)
Theorem routing_scan_only_advances (key_arr bounds : list Z) (n_pes : Z) :
  1 ≤ n_pes → Z.of_nat (length bounds) = n_pes - 1 →
  ∃ dests m,
    route key_arr n_pes bounds = Some (dests, m)
    ∧ Sorted Z.le dests
    ∧ (∀ (i : nat) key, key_arr !! i = Some key →
         advance n_pes bounds key (node_before 0 dests i) = dests !! i)
    ∧ (∀ i : nat, ∃ m',
         route (take i key_arr) n_pes bounds = Some (take i dests, m'))
    ∧ (∀ (i j k : nat) d, (i ≤ j ≤ k)%nat →
         dests !! i = Some d → dests !! k = Some d → dests !! j = Some d).
Proof.
  intros Hn Hb.
  destruct (route_Some key_arr n_pes bounds Hn Hb) as (dests & m & Hr & _ & _ & Hs & _).
  exists dests, m. split_and!; try done.
  - unfold route, alloc_shuffle_metadata in Hr.
    rewrite np_zeros_Some in Hr by lia. simpl in Hr.
    by eapply route_loop_step.
  - intros i. unfold route, alloc_shuffle_metadata in *.
    rewrite np_zeros_Some in * by lia. simpl in *.
    eapply route_loop_take; [|exact Hr]. done.
  - intros i j k d. by apply Sorted_Z_block.
Qed.

Lemma routing_scan_only_advances_witness :
  ∃ dests m,
    route [5; 1; 9] 3 [4; 6] = Some (dests, m)
    ∧ Sorted Z.le dests
    ∧ (∀ (i : nat) key, [5; 1; 9] !! i = Some key →
         advance 3 [4; 6] key (node_before 0 dests i) = dests !! i)
    ∧ (∀ i : nat, ∃ m',
         route (take i [5; 1; 9]) 3 [4; 6] = Some (take i dests, m'))
    ∧ (∀ (i j k : nat) d, (i ≤ j ≤ k)%nat →
         dests !! i = Some d → dests !! k = Some d → dests !! j = Some d).
Proof.
  apply (routing_scan_only_advances [5; 1; 9] [4; 6] 3); [lia|reflexivity].
Defined.

(** ** C8 *)

Section Claims.
Context {V : Type} `{!Inhabited V}.
Implicit Types (x : Worker V) (world : list (Worker V)).

Lemma sort_call_eq (rng : nat → nat → Z) (sort_node : Sort)
    (array_dists : gmap string Distribution) world tr :
  sort_call rng sort_node array_dists world tr
  = match sort_distributed_run sort_node array_dists with
    | Some nodes => exec_nodes rng nodes world tr
    | None => None
    end.
Proof.
  unfold sort_call, mbind, M_bind, lift.
  by destruct (sort_distributed_run sort_node array_dists).
Qed.

Lemma exec_parallel_nodes (rng : nat → nat → Z) (key : string) (cols : list string)
    world tr :
  exec_nodes rng [SortImpl key cols; TupImpl cols; ParSortImpl key cols] world tr
  = (outs ← parallel_sort rng (sort_impl <$> world); mret (sort_impl <$> outs)) tr.
Proof.
  simpl. unfold par_sort_impl, mbind, M_bind, mret, M_ret.
  by destruct (parallel_sort rng (sort_impl <$> world) tr) as [[outs tr']|].
Qed.


(** ** C3 *)

Lemma sort_distributed_run_nodes (sort_node : Sort)
    (array_dists : gmap string Distribution) nodes :
  sort_distributed_run sort_node array_dists = Some nodes →
  nodes = [SortImpl (sort_key_arr sort_node) (df_vars sort_node).*2]
  ∨ nodes = [SortImpl (sort_key_arr sort_node) (df_vars sort_node).*2;
             TupImpl (df_vars sort_node).*2;
             ParSortImpl (sort_key_arr sort_node) (df_vars sort_node).*2].
Proof.
  unfold sort_distributed_run.
  destruct (is_parallel _ _ _) as [[|]|]; simpl; intros [= <-]; auto.
Qed.

(** C3: a sort call over at least one worker, each holding [N] columns as
    long as its keys and fewer than [2^31] rows, with at least one row in all
    or with a single worker, returns, and the rows the workers hold after it
    are a permutation of the rows they held before. *)
Theorem sort_call_conserves_rows (rng : nat → nat → Z) (sort_node : Sort)
    (array_dists : gmap string Distribution) world (N : nat) tr :
  is_Some (sort_distributed_run sort_node array_dists) →
  world ≠ [] → Forall (wf_worker N) world →
  Forall (λ x, Z.of_nat (length (key_arr x)) < 2 ^ 31) world →
  all_keys world ≠ [] ∨ length world = 1%nat →
  ∃ out tr',
    sort_call rng sort_node array_dists world tr = Some (out, tr')
    ∧ all_rows out ≡ₚ all_rows world.
Proof.
  intros [nodes Hnodes] Hne Hwf H32 Hcase. rewrite sort_call_eq, Hnodes.
  apply sort_distributed_run_nodes in Hnodes as [->| ->].
  - exists (sort_impl <$> world), tr. split; [done|].
    by apply (all_rows_sort_impl N).
  - rewrite exec_parallel_nodes.
    destruct (parallel_sort_spec rng (sort_impl <$> world) N tr)
      as (bounds & scs & _ & _ & _ & Hok & Hsum & Hps).
    + by destruct world.
    + apply Forall_fmap. eapply Forall_impl; [exact Hwf|]. apply sort_impl_wf.
    + apply Forall_fmap. eapply Forall_impl; [exact H32|].
      intros x Hx. unfold compose. by rewrite sort_impl_length.
    + destruct Hcase as [Hk|Hl]; [left; by apply all_keys_sort_impl_nil|right].
      by rewrite length_fmap.
    + assert (Forall (wf_worker N) (sort_impl <$> world)) as Hwf'.
      { apply Forall_fmap. eapply Forall_impl; [exact Hwf|]. apply sort_impl_wf. }
      eexists _, _. unfold mbind, M_bind. rewrite Hps. split; [done|].
      rewrite (all_rows_sort_impl N) by (by apply exchanged_wf).
      rewrite (all_rows_exchanged scs _ N) by done.
      by apply (all_rows_sort_impl N).
Qed.

(** ** C4 *)

(** C4: in the shuffle of [parallel_sort] the key array and every data
    column of a worker are cut by the same send counts and displacements, so
    that what worker [w] receives, as rows, is the concatenation of the slices
    of the rows of the sources: row [i] of the received key buffer and row
    [i] of every received column are one row of the input. *)
Theorem shuffle_keeps_rows_aligned (rng : nat → nat → Z) world (N : nat) tr :
  world ≠ [] → Forall (wf_worker N) world →
  Forall (λ x, Z.of_nat (length (key_arr x)) < 2 ^ 31) world →
  all_keys world ≠ [] ∨ length world = 1%nat →
  ∃ bounds scs,
    Forall2 (λ x sc, ∃ r, route (key_arr x) (Z.of_nat (length world)) bounds = Some r
                          ∧ send_counts r.2 = sc) world scs
    ∧ parallel_sort rng world tr = Some (exchanged scs world, tr ++ shuffle_trace)
    ∧ length (exchanged scs world) = length world
    ∧ ∀ (w : nat) out, exchanged scs world !! w = Some out →
        key_arr out = received scs w (key_arr <$> world)
        ∧ length (data out) = N
        ∧ (∀ (j : nat) col, data out !! j = Some col →
             col = received scs w ((λ y : Worker V, data y !!! j) <$> world))
        ∧ rows_of out = received scs w (rows_of <$> world)
        ∧ Forall (.∈ all_rows world) (rows_of out).
Proof.
  intros Hne Hwf H32 Hcase.
  destruct (parallel_sort_spec rng world N tr Hne Hwf H32 Hcase)
    as (bounds & scs & _ & _ & Hroute & Hok & Hsum & Hps).
  exists bounds, scs. split; [done|]. split; [done|].
  split; [unfold exchanged; by rewrite length_imap|].
  intros w out Hout.
  assert (rows_of out = received scs w (rows_of <$> world)) as Hrows.
  { rewrite (exchanged_rows scs world N Hwf) in Hout.
    rewrite list_lookup_fmap in Hout.
    destruct (seq 0 (length world) !! w) as [w'|] eqn:Hw; simplify_eq/=.
    apply lookup_seq in Hw as [-> _]. simpl.
    apply rows_of_worker_of. by apply received_rows_arity. }
  unfold exchanged in Hout. rewrite list_lookup_imap in Hout.
  destruct (world !! w) as [x|] eqn:Hx; simplify_eq/=.
  pose proof (Forall_lookup_1 _ _ _ _ Hwf Hx) as [HN _].
  split; [done|]. split; [by rewrite length_fmap, length_seq|]. split.
  - intros j col Hcol. rewrite list_lookup_fmap in Hcol.
    destruct (seq 0 (length (data x)) !! j) as [j'|] eqn:Hj; simplify_eq/=.
    by apply lookup_seq in Hj as [-> _].
  - split; [done|]. rewrite Hrows. apply received_Forall, elem_of_concat_of.
Qed.

End Claims.


Lemma sort_call_conserves_rows_witness :
  ∃ out tr',
    sort_call rng_count example_node partitioned_dists two_workers [] = Some (out, tr')
    ∧ all_rows out ≡ₚ all_rows two_workers.
Proof.
  apply (sort_call_conserves_rows rng_count example_node partitioned_dists
           two_workers 1 []).
  - eexists. reflexivity.
  - discriminate.
  - repeat constructor.
  - repeat constructor; vm_compute; reflexivity.
  - left. discriminate.
Defined.

Lemma shuffle_keeps_rows_aligned_witness :
  ∃ bounds scs,
    Forall2 (λ x sc, ∃ r, route (key_arr x) (Z.of_nat (length two_workers)) bounds = Some r
                          ∧ send_counts r.2 = sc) two_workers scs
    ∧ parallel_sort rng_count two_workers []
      = Some (exchanged scs two_workers, [] ++ shuffle_trace)
    ∧ length (exchanged scs two_workers) = length two_workers
    ∧ ∀ (w : nat) out, exchanged scs two_workers !! w = Some out →
        key_arr out = received scs w (key_arr <$> two_workers)
        ∧ length (data out) = 1%nat
        ∧ (∀ (j : nat) col, data out !! j = Some col →
             col = received scs w ((λ y : Worker string, data y !!! j) <$> two_workers))
        ∧ rows_of out = received scs w (rows_of <$> two_workers)
        ∧ Forall (.∈ all_rows two_workers) (rows_of out).
Proof.
  apply (shuffle_keeps_rows_aligned rng_count two_workers 1 []).
  - discriminate.
  - repeat constructor.
  - repeat constructor; vm_compute; reflexivity.
  - left. discriminate.
Defined.

(** ** C2 *)

(** C2 fails on the code. Three workers hold the keys [9, 1], [8, 5, 7] and
    none; the samples drawn are 1, 1 and 5, 7, 5, which gives the bounds 5
    and 7. On worker 0 the key 9 follows the key 1 and passes both bounds, but
    the loop advances once: 9 goes to worker 1, while 7 and 8 go to worker 2.
    The call returns the keys [1], [5, 9], [7, 8], which is not in order. *)
Theorem global_order_broken_by_single_advance :
  ∃ out tr',
    sort_call rng_low example_node partitioned_dists three_workers [] = Some (out, tr')
    ∧ key_arr <$> out = [[1]; [5; 9]; [7; 8]]
    ∧ data <$> out = [[["a"]]; [["e"; "i"]]; [["g"; "h"]]]
    ∧ ¬ Sorted Z.le (all_keys out).
Proof.
  eexists _, _. split; [vm_compute; reflexivity|].
  split; [reflexivity|]. split; [reflexivity|].
  intros Hs.
  pose proof (Sorted_Z_lookup _ 2 3 9 7 Hs ltac:(lia) eq_refl eq_refl). lia.
Qed.

(** ** C5 *)


(** * Further properties *)

(** ** Dictionaries *)

Lemma filter_Forall_id {A} (P : A → Prop) `{!∀ x, Decision (P x)} (l : list A) :
  Forall P l → filter P l = l.
Proof.
  induction 1 as [|x l Hx _ IH]; [done|].
  by rewrite filter_cons_True, IH.
Qed.

Lemma filter_Forall_nil {A} (P : A → Prop) `{!∀ x, Decision (P x)} (l : list A) :
  Forall (λ x, ¬ P x) l → filter P l = [].
Proof.
  induction 1 as [|x l Hx _ IH]; [done|].
  by rewrite filter_cons_False, IH.
Qed.

Lemma pop_filter {A} (d : list (string * A)) (k : string) :
  NoDup d.*1 → k ∈ d.*1 → PyDict.pop d k = Some (filter (λ kv, kv.1 ≠ k) d).
Proof.
  induction d as [|kv d IH]; intros Hnd Hk; [by apply elem_of_nil in Hk|].
  csimpl in *. apply NoDup_cons in Hnd as [Hkv Hnd].
  destruct (decide (kv.1 = k)) as [<-|Hne].
  - rewrite filter_cons_False by (intros ?; done). f_equal.
    symmetry. apply filter_Forall_id. apply Forall_forall.
    intros kv' Hkv' Heq. apply Hkv. rewrite <-Heq. by apply list_elem_of_fmap_2.
  - apply elem_of_cons in Hk as [?|Hk]; [done|].
    rewrite (IH Hnd Hk). simpl. by rewrite filter_cons_True.
Qed.

Lemma pop_None {A} (d : list (string * A)) (k : string) :
  k ∉ d.*1 → PyDict.pop d k = None.
Proof.
  induction d as [|kv d IH]; intros Hk; [done|].
  csimpl in *. apply not_elem_of_cons in Hk as [Hne Hk].
  rewrite decide_False by done. by rewrite (IH Hk).
Qed.

Lemma filter_fst_NoDup {A} (P : string * A → Prop) `{!∀ x, Decision (P x)}
    (d : list (string * A)) :
  NoDup d.*1 → NoDup (filter P d).*1.
Proof.
  induction d as [|kv d IH]; intros Hnd; [done|].
  csimpl in *. apply NoDup_cons in Hnd as [Hkv Hnd].
  rewrite filter_cons. destruct (decide (P kv)); [|by apply IH].
  csimpl. apply NoDup_cons. split; [|by apply IH].
  intros Hin. apply Hkv. apply list_elem_of_fmap in Hin as (kv' & -> & Hin).
  apply list_elem_of_filter in Hin as [_ Hin]. by apply list_elem_of_fmap_2.
Qed.

Lemma pop_cols_filter (dead : list string) : ∀ d : list (string * string),
  NoDup d.*1 → NoDup dead → dead ⊆ d.*1 →
  pop_cols dead d = Some (filter (λ kv, kv.1 ∉ dead) d).
Proof.
  induction dead as [|c dead IH]; intros d Hnd Hdead Hsub; simpl.
  - f_equal. symmetry. apply filter_Forall_id, Forall_forall.
    intros kv _. apply not_elem_of_nil.
  - apply NoDup_cons in Hdead as [Hc Hdead].
    rewrite pop_filter by (done || apply Hsub; left). simpl.
    rewrite IH.
    + f_equal. rewrite list_filter_filter. apply list_filter_iff.
      intros kv. rewrite not_elem_of_cons. tauto.
    + by apply filter_fst_NoDup.
    + done.
    + intros c' Hc'. assert (c' ∈ d.*1) as Hin by (apply Hsub; by right).
      apply list_elem_of_fmap in Hin as (kv & -> & Hin).
      apply list_elem_of_fmap_2, list_elem_of_filter. split; [|done].
      intros Heq. apply Hc. by rewrite <-Heq.
Qed.

Lemma dead_cols_filter (d : list (string * string)) (lives : gset string) :
  dead_cols d lives = (filter (λ cv, cv.2 ∉ lives) d).*1.
Proof.
  unfold dead_cols.
  assert (∀ acc, foldl (λ dead cv, if decide (cv.2 ∈ lives) then dead else dead ++ [cv.1])
                   acc d = acc ++ (filter (λ cv, cv.2 ∉ lives) d).*1) as Hacc;
    [|apply Hacc].
  induction d as [|cv d IH]; intros acc; simpl; [by rewrite app_nil_r|].
  rewrite IH, filter_cons. destruct (decide (cv.2 ∈ lives)).
  - by rewrite decide_False by (intros ?; done).
  - rewrite decide_True by done. csimpl. by rewrite <-app_assoc.
Qed.

Lemma filter_ext_in {A} (P Q : A → Prop) `{!∀ x, Decision (P x)} `{!∀ x, Decision (Q x)}
    (l : list A) :
  (∀ x, x ∈ l → P x ↔ Q x) → filter P l = filter Q l.
Proof.
  induction l as [|x l IH]; intros Hext; [done|].
  rewrite !filter_cons, IH by (intros y Hy; apply Hext; by right).
  destruct (decide (P x)) as [HP|HP], (decide (Q x)) as [HQ|HQ]; try done.
  - exfalso. apply HQ, Hext; [left|done].
  - exfalso. apply HP, Hext; [left|done].
Qed.

Lemma NoDup_fst_inj {A} (d : list (string * A)) (kv kv' : string * A) :
  NoDup d.*1 → kv ∈ d → kv' ∈ d → kv.1 = kv'.1 → kv = kv'.
Proof.
  induction d as [|x d IH]; intros Hnd Hkv Hkv' Heq; [by apply elem_of_nil in Hkv|].
  csimpl in *. apply NoDup_cons in Hnd as [Hx Hnd].
  apply elem_of_cons in Hkv as [->|Hkv], Hkv' as [->|Hkv']; try done.
  - exfalso. apply Hx. rewrite Heq. by apply list_elem_of_fmap_2.
  - exfalso. apply Hx. rewrite <-Heq. by apply list_elem_of_fmap_2.
  - by apply IH.
Qed.

Lemma pop_dead_cols (d : list (string * string)) (lives : gset string) :
  NoDup d.*1 → pop_cols (dead_cols d lives) d = Some (live_cols d lives).
Proof.
  intros Hnd. rewrite dead_cols_filter, pop_cols_filter.
  - f_equal. unfold live_cols. apply filter_ext_in. intros kv Hkv. split.
    + intros Hn. destruct (decide (kv.2 ∈ lives)) as [|Hdead]; [done|].
      exfalso. apply Hn. apply list_elem_of_fmap_2, list_elem_of_filter. done.
    + intros Hl Hin. apply list_elem_of_fmap in Hin as (kv' & Heq & Hin).
      apply list_elem_of_filter in Hin as [Hdead Hin].
      by rewrite (NoDup_fst_inj d kv kv' Hnd Hkv Hin Heq) in Hl.
  - done.
  - by apply filter_fst_NoDup.
  - intros c Hc. apply list_elem_of_fmap in Hc as (kv & -> & Hin).
    apply list_elem_of_filter in Hin as [_ Hin]. by apply list_elem_of_fmap_2.
Qed.

Lemma live_cols_nil (d : list (string * string)) (lives : gset string) :
  live_cols d lives = [] ↔ Forall (λ v, v ∉ lives) d.*2.
Proof.
  unfold live_cols. split.
  - intros Hnil. apply Forall_forall. intros v Hv Hl.
    apply list_elem_of_fmap in Hv as (cv & -> & Hcv).
    eapply filter_nil_not_elem_of; [exact Hnil| |exact Hcv]. done.
  - intros Hall. apply filter_Forall_nil. apply Forall_forall. intros cv Hcv.
    rewrite Forall_forall in Hall. apply Hall. by apply list_elem_of_fmap_2.
Qed.

Lemma remove_dead_sort_eq (sort_node : Sort) (lives : gset string) :
  NoDup (df_vars sort_node).*1 →
  remove_dead_sort sort_node lives
  = Some (if decide (Forall (λ v, v ∉ lives)
                       (sort_key_arr sort_node :: (df_vars sort_node).*2))
          then None
          else Some (mkSort (df_in sort_node) (sort_key_arr sort_node)
                       (live_cols (df_vars sort_node) lives))).
Proof.
  intros Hnd. unfold remove_dead_sort. rewrite pop_dead_cols by done. simpl.
  destruct (decide (Forall _ _)) as [Hall|Hsome].
  - apply Forall_cons in Hall as [Hk Hall].
    apply live_cols_nil in Hall. rewrite Hall. simpl.
    by rewrite bool_decide_true by done.
  - destruct (bool_decide _) eqn:Hlen; [|done]. simpl.
    destruct (bool_decide (_ ∉ _)) eqn:Hkey; [|done]. exfalso.
    apply bool_decide_eq_true in Hlen, Hkey. apply Hsome.
    apply Forall_cons. split; [done|].
    apply live_cols_nil. by apply nil_length_inv.
Qed.

Lemma getitem_app_r {A} (d1 d2 : list (string * A)) (k : string) :
  k ∉ d1.*1 → PyDict.getitem (d1 ++ d2) k = PyDict.getitem d2 k.
Proof.
  induction d1 as [|kv d1 IH]; intros Hk; [done|].
  csimpl in *. apply not_elem_of_cons in Hk as [Hne Hk].
  rewrite decide_False by done. by apply IH.
Qed.

Lemma setitem_app_r {A} (d1 d2 : list (string * A)) (k : string) (v : A) :
  k ∉ d1.*1 → PyDict.setitem (d1 ++ d2) k v = d1 ++ PyDict.setitem d2 k v.
Proof.
  induction d1 as [|kv d1 IH]; intros Hk; [done|].
  csimpl in *. apply not_elem_of_cons in Hk as [Hne Hk].
  rewrite decide_False by done. by rewrite IH.
Qed.

Lemma replace_cols_app (inner : string → string) (d2 : list (string * string)) :
  ∀ d1 : list (string * string),
  NoDup (d1 ++ d2).*1 →
  replace_cols inner d2.*1 (d1 ++ d2)
  = Some (d1 ++ ((λ cv, (cv.1, inner cv.2)) <$> d2)).
Proof.
  induction d2 as [|[c v] d2 IH]; intros d1 Hnd; csimpl; [done|].
  assert (c ∉ d1.*1) as Hc.
  { rewrite fmap_app in Hnd. apply NoDup_app in Hnd as (_ & Hdisj & _).
    intros Hin. apply (Hdisj c Hin). csimpl. left. }
  rewrite getitem_app_r by done. simpl. rewrite decide_True by done. simpl.
  rewrite setitem_app_r by done. simpl. rewrite decide_True by done.
  rewrite (cons_middle (c, inner v)), app_assoc. rewrite IH.
  - by rewrite <-app_assoc.
  - rewrite <-app_assoc. simpl. rewrite !fmap_app in *. csimpl in *. done.
Qed.

Lemma replace_cols_eq (inner : string → string) (d : list (string * string)) :
  NoDup d.*1 → replace_cols inner d.*1 d = Some ((λ cv, (cv.1, inner cv.2)) <$> d).
Proof. intros Hnd. by apply (replace_cols_app inner d []). Qed.

(** The induction principle of the types, with the components of a tuple. *)
Lemma Typ_Forall_ind (P : Typ → Prop) :
  P string_array_type → P string_type →
  (∀ t, P t → P (List t)) →
  (∀ ts, Forall P ts → P (Tuple ts)) →
  (∀ name, P (OtherType name)) →
  ∀ typ, P typ.
Proof.
  intros Hsa Hs Hl Ht Ho. fix IH 1. intros [| |t|ts|name].
  - exact Hsa.
  - exact Hs.
  - apply Hl, IH.
  - apply Ht. induction ts as [|t ts IHts]; constructor; [apply IH|apply IHts].
  - apply Ho.
Qed.

(** X1: with a well formed [df_vars], [remove_dead_sort] does not raise; it
    removes the node exactly when neither the key nor any column variable is
    live, and otherwise returns the node with exactly its live columns, in
    their order, the key and the frame unchanged. *)
Theorem remove_dead_sort_keeps_live_columns (sort_node : Sort) (lives : gset string) :
  NoDup (df_vars sort_node).*1 →
  ∃ res, remove_dead_sort sort_node lives = Some res
    ∧ (res = None
       ↔ Forall (λ v, v ∉ lives) (sort_key_arr sort_node :: (df_vars sort_node).*2))
    ∧ ∀ node', res = Some node' →
        df_in node' = df_in sort_node
        ∧ sort_key_arr node' = sort_key_arr sort_node
        ∧ df_vars node' = live_cols (df_vars sort_node) lives
        ∧ Forall (λ cv, cv.2 ∈ lives) (df_vars node')
        ∧ (∀ cv, cv ∈ df_vars sort_node → cv.2 ∈ lives → cv ∈ df_vars node')
        ∧ df_vars node' `sublist_of` df_vars sort_node.
Proof.
  intros Hnd. rewrite remove_dead_sort_eq by done. eexists. split; [done|].
  destruct (decide (Forall _ _)) as [Hall|Hsome].
  - split; [done|]. intros node' [=].
  - split; [split; [done|intros ?; done]|]. intros node' [= <-]. simpl.
    split; [done|]. split; [done|]. split; [done|]. unfold live_cols.
    split; [|split].
    + apply Forall_forall. intros cv Hcv. by apply list_elem_of_filter in Hcv as [? _].
    + intros cv Hcv Hl. by apply list_elem_of_filter.
    + apply sublist_filter.
Qed.

Lemma remove_dead_sort_keeps_live_columns_witness :
  ∃ res, remove_dead_sort pass_node {["c_arr"; "a_arr"]} = Some res
    ∧ (res = None
       ↔ Forall (λ v, v ∉ ({["c_arr"; "a_arr"]} : gset string))
           (sort_key_arr pass_node :: (df_vars pass_node).*2))
    ∧ ∀ node', res = Some node' →
        df_in node' = df_in pass_node
        ∧ sort_key_arr node' = sort_key_arr pass_node
        ∧ df_vars node' = live_cols (df_vars pass_node) {["c_arr"; "a_arr"]}
        ∧ Forall (λ cv, cv.2 ∈ ({["c_arr"; "a_arr"]} : gset string)) (df_vars node')
        ∧ (∀ cv, cv ∈ df_vars pass_node → cv.2 ∈ ({["c_arr"; "a_arr"]} : gset string)
             → cv ∈ df_vars node')
        ∧ df_vars node' `sublist_of` df_vars pass_node.
Proof.
  apply (remove_dead_sort_keeps_live_columns pass_node {["c_arr"; "a_arr"]}).
  apply (bool_decide_unpack _). vm_compute. exact I.
Defined.

Lemma live_cols_idemp (d : list (string * string)) (lives : gset string) :
  live_cols (live_cols d lives) lives = live_cols d lives.
Proof.
  unfold live_cols. apply filter_Forall_id, Forall_forall.
  intros cv Hcv. by apply list_elem_of_filter in Hcv as [? _].
Qed.

(** X2: removing the dead columns a second time, with the same live
    variables, changes nothing: a node that was kept is kept as it is, and
    its [df_vars] is again a dict. *)
Theorem remove_dead_sort_idempotent (sort_node node' : Sort) (lives : gset string) :
  NoDup (df_vars sort_node).*1 →
  remove_dead_sort sort_node lives = Some (Some node') →
  NoDup (df_vars node').*1
  ∧ remove_dead_sort node' lives = Some (Some node').
Proof.
  intros Hnd. rewrite remove_dead_sort_eq by done.
  destruct (decide (Forall _ _)) as [|Hsome]; [done|]. intros [= <-].
  assert (NoDup (live_cols (df_vars sort_node) lives).*1) as Hnd'.
  { by apply filter_fst_NoDup. }
  split; [done|]. rewrite remove_dead_sort_eq by done. simpl.
  rewrite live_cols_idemp. rewrite decide_False; [done|].
  intros Hall. apply Hsome. apply Forall_cons in Hall as [Hk Hall].
  apply Forall_cons. split; [done|].
  apply live_cols_nil. rewrite <-live_cols_idemp. by apply live_cols_nil.
Qed.

Lemma remove_dead_sort_idempotent_witness :
  NoDup (df_vars (mkSort "df" "key" [("a", "a_arr"); ("c", "c_arr")])).*1
  ∧ remove_dead_sort (mkSort "df" "key" [("a", "a_arr"); ("c", "c_arr")])
      {["c_arr"; "a_arr"]}
    = Some (Some (mkSort "df" "key" [("a", "a_arr"); ("c", "c_arr")])).
Proof.
  apply (remove_dead_sort_idempotent pass_node _ {["c_arr"; "a_arr"]}).
  - apply (bool_decide_unpack _). vm_compute. exact I.
  - vm_compute. reflexivity.
Defined.

(** X3: after [remove_dead_sort] has kept a node, every variable the node
    uses is live or is the key, the node uses no variable it did not use
    before, it uses at least one live variable, and it defines none. *)
Theorem kept_node_uses_live_variables (sort_node node' : Sort) (lives : gset string) :
  NoDup (df_vars sort_node).*1 →
  remove_dead_sort sort_node lives = Some (Some node') →
  (sort_usedefs node' None None).1 ⊆ lives ∪ {[sort_key_arr sort_node]}
  ∧ (sort_usedefs node' None None).1 ⊆ (sort_usedefs sort_node None None).1
  ∧ (∃ v, v ∈ (sort_usedefs node' None None).1 ∧ v ∈ lives)
  ∧ (sort_usedefs node' None None).2 = ∅.
Proof.
  intros Hnd. rewrite remove_dead_sort_eq by done.
  destruct (decide (Forall _ _)) as [|Hsome]; [done|]. intros [= <-].
  unfold sort_usedefs. simpl. split; [|split; [|split]]; [| | |done].
  - intros v. rewrite !elem_of_union, elem_of_list_to_set, !elem_of_singleton.
    intros [[Hv| ->]|Hv]; [set_solver|by right|left].
    apply list_elem_of_fmap in Hv as (cv & -> & Hcv).
    by apply list_elem_of_filter in Hcv as [? _].
  - intros v. rewrite !elem_of_union, !elem_of_list_to_set, !elem_of_singleton.
    intros [[Hv| ->]|Hv]; [set_solver|by left; right|right].
    apply list_elem_of_fmap in Hv as (cv & -> & Hcv).
    apply list_elem_of_filter in Hcv as [_ Hcv]. by apply list_elem_of_fmap_2.
  - apply not_Forall_Exists in Hsome; [|apply _].
    apply Exists_exists in Hsome as (v & Hv & Hl).
    exists v. split; [|by destruct (decide (v ∈ lives))].
    assert (v ∈ lives) as Hlive by (by destruct (decide (v ∈ lives))).
    rewrite !elem_of_union, elem_of_list_to_set, elem_of_singleton.
    apply elem_of_cons in Hv as [->|Hv]; [by left; right|right].
    apply list_elem_of_fmap in Hv as (cv & -> & Hcv).
    apply (list_elem_of_fmap_2 snd). by apply list_elem_of_filter.
Qed.

Lemma kept_node_uses_live_variables_witness :
  (sort_usedefs (mkSort "df" "key" [("a", "a_arr"); ("c", "c_arr")]) None None).1
    ⊆ {["c_arr"; "a_arr"]} ∪ {[sort_key_arr pass_node]}
  ∧ (sort_usedefs (mkSort "df" "key" [("a", "a_arr"); ("c", "c_arr")]) None None).1
      ⊆ (sort_usedefs pass_node None None).1
  ∧ (∃ v, v ∈ (sort_usedefs (mkSort "df" "key" [("a", "a_arr"); ("c", "c_arr")])
                 None None).1
          ∧ v ∈ ({["c_arr"; "a_arr"]} : gset string))
  ∧ (sort_usedefs (mkSort "df" "key" [("a", "a_arr"); ("c", "c_arr")]) None None).2 = ∅.
Proof.
  apply (kept_node_uses_live_variables pass_node _ {["c_arr"; "a_arr"]}).
  - apply (bool_decide_unpack _). vm_compute. exact I.
  - vm_compute. reflexivity.
Defined.

(** X4: with a well formed [df_vars], [visit_vars_sort] and
    [apply_copies_sort] do not raise and return the node with the key and
    every column variable replaced by what the inner function makes of it;
    the frame, the column names, their order and their number stay. *)
Theorem renaming_keeps_the_columns {CB C D}
    (visit_vars_inner : string → CB → C → string)
    (replace_vars_inner : string → D → string)
    (sort_node : Sort) (callback : CB) (cbdata : C) (var_dict : D) :
  NoDup (df_vars sort_node).*1 →
  (∃ node', visit_vars_sort visit_vars_inner sort_node callback cbdata = Some node'
     ∧ df_in node' = df_in sort_node
     ∧ sort_key_arr node' = visit_vars_inner (sort_key_arr sort_node) callback cbdata
     ∧ (df_vars node').*1 = (df_vars sort_node).*1
     ∧ (df_vars node').*2
       = (λ v, visit_vars_inner v callback cbdata) <$> (df_vars sort_node).*2)
  ∧ (∃ node', apply_copies_sort replace_vars_inner sort_node var_dict = Some node'
       ∧ df_in node' = df_in sort_node
       ∧ sort_key_arr node' = replace_vars_inner (sort_key_arr sort_node) var_dict
       ∧ (df_vars node').*1 = (df_vars sort_node).*1
       ∧ (df_vars node').*2
         = (λ v, replace_vars_inner v var_dict) <$> (df_vars sort_node).*2).
Proof.
  intros Hnd. unfold visit_vars_sort, apply_copies_sort.
  rewrite !replace_cols_eq by done. simpl.
  split; eexists; (split; [done|]); simpl; (split; [done|]); (split; [done|]);
    rewrite <-!list_fmap_compose; (split; [done|done]).
Qed.

Lemma renaming_keeps_the_columns_witness :
  (∃ node', visit_vars_sort (λ v (cb : string → string) (_ : unit), cb v) pass_node
              (λ v, v +:+ "_1") () = Some node'
     ∧ df_in node' = df_in pass_node
     ∧ sort_key_arr node' = sort_key_arr pass_node +:+ "_1"
     ∧ (df_vars node').*1 = (df_vars pass_node).*1
     ∧ (df_vars node').*2 = (λ v, v +:+ "_1") <$> (df_vars pass_node).*2)
  ∧ (∃ node', apply_copies_sort (λ v (d : gmap string string), default v (d !! v))
                pass_node {["b_arr" := "x"]} = Some node'
       ∧ df_in node' = df_in pass_node
       ∧ sort_key_arr node' = default "key" (({["b_arr" := "x"]} : gmap string string) !! "key")
       ∧ (df_vars node').*1 = (df_vars pass_node).*1
       ∧ (df_vars node').*2
         = (λ v, default v (({["b_arr" := "x"]} : gmap string string) !! v))
             <$> (df_vars pass_node).*2).
Proof.
  apply (renaming_keeps_the_columns (λ v (cb : string → string) (_ : unit), cb v)
           (λ v (d : gmap string string), default v (d !! v))
           pass_node (λ v, v +:+ "_1") () {["b_arr" := "x"]}).
  apply (bool_decide_unpack _). vm_compute. exact I.
Defined.

(** X5: the variables a node uses after [visit_vars_sort] are the images of
    the variables it used before. *)
Theorem renaming_renames_the_uses {CB C}
    (visit_vars_inner : string → CB → C → string)
    (sort_node node' : Sort) (callback : CB) (cbdata : C) :
  NoDup (df_vars sort_node).*1 →
  visit_vars_sort visit_vars_inner sort_node callback cbdata = Some node' →
  (sort_usedefs node' None None).1
  = set_map (λ v, visit_vars_inner v callback cbdata)
      (sort_usedefs sort_node None None).1.
Proof.
  intros Hnd. unfold visit_vars_sort. rewrite replace_cols_eq by done. simpl.
  intros [= <-]. unfold sort_usedefs. simpl.
  apply set_eq. intros v.
  rewrite elem_of_map, !elem_of_union, elem_of_list_to_set, elem_of_singleton.
  rewrite <-list_fmap_compose. split.
  - intros [[Hv| ->]|Hv]; [set_solver| |].
    + eexists. split; [done|]. rewrite !elem_of_union, elem_of_singleton. by left; right.
    + apply list_elem_of_fmap in Hv as (cv & -> & Hcv). simpl.
      eexists. split; [done|]. rewrite !elem_of_union, elem_of_list_to_set. right.
      by apply list_elem_of_fmap_2.
  - intros (u & -> & Hu).
    rewrite !elem_of_union, elem_of_list_to_set, elem_of_singleton in Hu.
    destruct Hu as [[Hu| ->]|Hu]; [set_solver|by left; right|right].
    apply list_elem_of_fmap in Hu as (cv & -> & Hcv).
    by apply (list_elem_of_fmap_2 (λ cv : string * string, visit_vars_inner cv.2 callback cbdata)).
Qed.

Lemma renaming_renames_the_uses_witness :
  (sort_usedefs (mkSort "df" "key_1" [("a", "a_arr_1"); ("b", "b_arr_1"); ("c", "c_arr_1")])
     None None).1
  = set_map (λ v, v +:+ "_1") (sort_usedefs pass_node None None).1.
Proof.
  apply (renaming_renames_the_uses (λ v (cb : string → string) (_ : unit), cb v)
           pass_node _ (λ v, v +:+ "_1") ()).
  - apply (bool_decide_unpack _). vm_compute. exact I.
  - vm_compute. reflexivity.
Defined.

Lemma existsb_Forall_false {A} (f : A → bool) (l : list A) :
  Forall (λ x, f x = false) l → existsb f l = false.
Proof. induction 1 as [|x l Hx _ IH]; simpl; [done|]. by rewrite Hx, IH. Qed.

Lemma existsb_false_Forall {A} (f : A → bool) (l : list A) :
  existsb f l = false → Forall (λ x, f x = false) l.
Proof.
  induction l as [|x l IH]; simpl; [constructor|].
  intros [Hx Hl]%orb_false_iff. constructor; [done|by apply IH].
Qed.

(** X6: the type [to_string_list_typ] returns mentions no string array, at
    the top or inside tuples; converting it again changes nothing; a type
    that mentions no string array is returned as it is; and a tuple keeps
    the number of its components. *)
Theorem to_string_list_typ_removes_string_arrays (typ : Typ) :
  has_string_array (to_string_list_typ typ) = false
  ∧ to_string_list_typ (to_string_list_typ typ) = to_string_list_typ typ
  ∧ (has_string_array typ = false → to_string_list_typ typ = typ)
  ∧ (∀ types, typ = Tuple types →
       ∃ types', to_string_list_typ typ = Tuple types' ∧ length types' = length types).
Proof.
  induction typ as [| |t IH|ts IH|name] using Typ_Forall_ind; simpl.
  - split_and!; [done..|]. intros ? [=].
  - split_and!; [done..|]. intros ? [=].
  - split_and!; [done..|]. intros ? [=].
  - split_and!.
    + apply existsb_Forall_false, Forall_fmap.
      eapply Forall_impl; [exact IH|]. by intros t (? & _).
    + f_equal. rewrite <-list_fmap_compose. apply Forall_fmap_ext_1.
      eapply Forall_impl; [exact IH|]. by intros t (_ & ? & _).
    + intros Hno%existsb_false_Forall. f_equal.
      rewrite <-(list_fmap_id ts) at 2. apply Forall_fmap_ext_1.
      apply Forall_forall. intros t Ht.
      rewrite Forall_forall in IH, Hno. destruct (IH t Ht) as (_ & _ & Hid & _).
      by apply Hid, Hno.
    + intros types [= <-]. eexists. split; [done|]. by rewrite length_fmap.
  - split_and!; [done..|]. intros ? [=].
Qed.

(** ** The array analysis *)

Lemma numeric_vars_cons (typemap : gmap string Typ) (v : string) (vars : list string)
    (typ : Typ) :
  typemap !! v = Some typ →
  numeric_vars typemap (v :: vars)
  = if is_string_array typ then numeric_vars typemap vars
    else v :: numeric_vars typemap vars.
Proof.
  intros Htyp. unfold numeric_vars. rewrite filter_cons, Htyp. simpl.
  destruct (is_string_array typ).
  - by rewrite decide_False.
  - by rewrite decide_True.
Qed.

Lemma column_shapes_eq {D} (get_shape : string → option (list D))
    (typemap : gmap string Typ) (col_vars : list string) :
  ∀ all_shapes : list D,
  Forall (λ v, ∃ typ, typemap !! v = Some typ
               ∧ (is_string_array typ = false → is_Some (first_dim (get_shape v))))
    col_vars →
  ∃ dims,
    column_shapes get_shape typemap col_vars all_shapes = Some (all_shapes ++ dims)
    ∧ Forall2 (λ v d, first_dim (get_shape v) = Some d)
        (numeric_vars typemap col_vars) dims.
Proof.
  induction col_vars as [|v col_vars IH]; intros all_shapes Hall.
  { exists []. split; [by rewrite app_nil_r|constructor]. }
  apply Forall_cons in Hall as [(typ & Htyp & Hshape) Hall]. simpl.
  rewrite Htyp. simpl. rewrite (numeric_vars_cons _ _ _ _ Htyp).
  destruct (is_string_array typ) eqn:Hs.
  - apply IH, Hall.
  - destruct (Hshape eq_refl) as [d Hd]. rewrite Hd. simpl.
    destruct (IH (all_shapes ++ [d]) Hall) as (dims & -> & Hdims).
    exists (d :: dims). split; [by rewrite <-app_assoc|]. by constructor.
Qed.

(** X7: when every variable of the node has a type and every one that is
    not a string array has a shape of at least one dimension,
    [sort_array_analysis] does not raise; it equates the first dimensions of
    the key and columns that are not string arrays, in their order, and it
    inserts an equivalence exactly when there are at least two of them. *)
Theorem array_analysis_equates_numeric_arrays {D} (get_shape : string → option (list D))
    (sort_node : Sort) (typemap : gmap string Typ) :
  Forall (λ v, ∃ typ, typemap !! v = Some typ
               ∧ (is_string_array typ = false → is_Some (first_dim (get_shape v))))
    (node_vars sort_node) →
  ∃ res dims,
    sort_array_analysis get_shape sort_node typemap = Some res
    ∧ Forall2 (λ v d, first_dim (get_shape v) = Some d)
        (numeric_vars typemap (node_vars sort_node)) dims
    ∧ res = (if decide (1 < length (numeric_vars typemap (node_vars sort_node)))%nat
             then Some dims else None).
Proof.
  intros Hall. unfold node_vars in *.
  apply Forall_cons in Hall as [(typ & Htyp & Hshape) Hall].
  unfold sort_array_analysis. rewrite Htyp. simpl.
  rewrite (numeric_vars_cons _ _ _ _ Htyp).
  destruct (is_string_array typ) eqn:Hs.
  - simpl.
    destruct (column_shapes_eq get_shape typemap _ [] Hall) as (dims & -> & Hdims).
    simpl. eexists _, dims. split; [done|]. split; [done|].
    by rewrite (Forall2_length _ _ _ Hdims).
  - destruct (Hshape eq_refl) as [d Hd]. rewrite Hd. simpl.
    destruct (column_shapes_eq get_shape typemap _ [d] Hall) as (dims & -> & Hdims).
    simpl. eexists _, (d :: dims). split; [done|]. split; [by constructor|].
    by rewrite (Forall2_length _ _ _ Hdims).
Qed.

Lemma array_analysis_equates_numeric_arrays_witness :
  ∃ res dims,
    sort_array_analysis pass_shapes pass_node pass_typemap = Some res
    ∧ Forall2 (λ v d, first_dim (pass_shapes v) = Some d)
        (numeric_vars pass_typemap (node_vars pass_node)) dims
    ∧ res = (if decide (1 < length (numeric_vars pass_typemap (node_vars pass_node)))%nat
             then Some dims else None).
Proof.
  apply (array_analysis_equates_numeric_arrays pass_shapes pass_node pass_typemap).
  repeat constructor; eexists; (split; [vm_compute; reflexivity|]);
    vm_compute; (done || eauto).
Defined.

(** ** The distribution passes *)

Lemma Distribution_of_value_min (a b : Distribution) :
  Distribution_of_value (Z.min (Distribution_value a) (Distribution_value b))
  = Some (if decide (Distribution_value a ≤ Distribution_value b) then a else b).
Proof. by destruct a, b. Qed.

Lemma common_dist_min (array_dists : gmap string Distribution) (cols : list string) :
  ∀ in_dist common : Distribution,
  common_dist array_dists in_dist cols = Some common →
  Distribution_value common ≤ Distribution_value in_dist
  ∧ Forall (λ v, ∃ d, array_dists !! v = Some d
                   ∧ Distribution_value common ≤ Distribution_value d) cols
  ∧ (common = in_dist ∨ Exists (λ v, array_dists !! v = Some common) cols).
Proof.
  induction cols as [|v cols IH]; intros in_dist common Hc; simpl in Hc.
  - simplify_eq. split; [lia|]. split; [constructor|by left].
  - destruct (array_dists !! v) as [d|] eqn:Hd; [|done]. simpl in Hc.
    rewrite Distribution_of_value_min in Hc. simpl in Hc.
    apply IH in Hc as (Hle & Hall & Hex).
    destruct (decide (Distribution_value in_dist ≤ Distribution_value d)) as [Hid|Hid].
    + split; [lia|]. split.
      * constructor; [|done]. exists d. split; [done|lia].
      * destruct Hex as [->|Hex]; [by left|right; by apply Exists_cons_tl].
    + split; [lia|]. split.
      * constructor; [|done]. by exists d.
      * right. destruct Hex as [->|Hex]; [by apply Exists_cons_hd|by apply Exists_cons_tl].
Qed.



(** X8: when [sort_distributed_analysis] returns, the key and every column
    variable have one classification; it is not above the classification any
    of them had, it is the classification one of them had, and the
    classification of the other variables is what it was. *)
Theorem analysis_gives_the_weakest_classification (sort_node : Sort)
    (array_dists array_dists' : gmap string Distribution) :
  sort_distributed_analysis sort_node array_dists = Some array_dists' →
  ∃ common,
    Forall (λ v, array_dists' !! v = Some common) (node_vars sort_node)
    ∧ Forall (λ v, ∃ d, array_dists !! v = Some d
                     ∧ Distribution_value common ≤ Distribution_value d)
        (node_vars sort_node)
    ∧ Exists (λ v, array_dists !! v = Some common) (node_vars sort_node)
    ∧ ∀ u, u ∉ node_vars sort_node → array_dists' !! u = array_dists !! u.
Proof.
  intros Ha.
  destruct (sort_distributed_analysis_spec _ _ _ Ha) as (in_dist & common & Hk & Hc & Hall & _).
  exists common. split; [done|].
  destruct (common_dist_min _ _ _ _ Hc) as (Hle & Hcols & Hex).
  split; [|split].
  - constructor; [by exists in_dist|done].
  - destruct Hex as [->|Hex]; [by apply Exists_cons_hd|by apply Exists_cons_tl].
  - intros u Hu. unfold node_vars in Hu. apply not_elem_of_cons in Hu as [Hne Hu].
    unfold sort_distributed_analysis in Ha. rewrite Hk in Ha. simpl in Ha.
    rewrite Hc in Ha. simpl in Ha. simplify_eq.
    rewrite lookup_insert_ne by done. rewrite lookup_foldl_insert.
    by rewrite decide_False.
Qed.

Lemma analysis_gives_the_weakest_classification_witness :
  ∃ common,
    Forall (λ v, (<["key" := OneD_Var]> (<["a_arr" := OneD_Var]> mixed_dists)) !! v
                 = Some common)
      (node_vars (mkSort "df" "key" [("a", "a_arr")]))
    ∧ Forall (λ v, ∃ d, mixed_dists !! v = Some d
                     ∧ Distribution_value common ≤ Distribution_value d)
        (node_vars (mkSort "df" "key" [("a", "a_arr")]))
    ∧ Exists (λ v, mixed_dists !! v = Some common)
        (node_vars (mkSort "df" "key" [("a", "a_arr")]))
    ∧ ∀ u, u ∉ node_vars (mkSort "df" "key" [("a", "a_arr")]) →
        (<["key" := OneD_Var]> (<["a_arr" := OneD_Var]> mixed_dists)) !! u
        = mixed_dists !! u.
Proof.
  apply (analysis_gives_the_weakest_classification (mkSort "df" "key" [("a", "a_arr")])
           mixed_dists).
  reflexivity.
Defined.


(** X10: [sort_distributed_analysis] is idempotent: run on the classifications
    it returned, it returns them again. *)
Theorem analysis_is_idempotent (sort_node : Sort)
    (array_dists array_dists' : gmap string Distribution) :
  sort_distributed_analysis sort_node array_dists = Some array_dists' →
  sort_distributed_analysis sort_node array_dists' = Some array_dists'.
Proof.
  intros Ha.
  destruct (sort_distributed_analysis_spec _ _ _ Ha) as (in_dist & common & Hk & Hc & Hall & Hc').
  apply Forall_cons in Hall as [Hk' Hall].
  unfold sort_distributed_analysis. rewrite Hk'. simpl. rewrite Hc'. simpl. f_equal.
  apply map_eq. intros u.
  destruct (decide (sort_key_arr sort_node = u)) as [<-|Hne].
  - by rewrite lookup_insert_eq.
  - rewrite lookup_insert_ne by done. rewrite lookup_foldl_insert.
    case_decide as Hu; [|done].
    rewrite Forall_forall in Hall. by rewrite Hall.
Qed.

Lemma analysis_is_idempotent_witness :
  sort_distributed_analysis (mkSort "df" "key" [("a", "a_arr")])
    (<["key" := OneD_Var]> (<["a_arr" := OneD_Var]> mixed_dists))
  = Some (<["key" := OneD_Var]> (<["a_arr" := OneD_Var]> mixed_dists)).
Proof.
  apply (analysis_is_idempotent (mkSort "df" "key" [("a", "a_arr")]) mixed_dists).
  reflexivity.
Defined.



(** ** The scan on keys in order *)

Lemma advance_capped (n_pes : Z) (bounds : list Z) (key node_id : Z) :
  Z.of_nat (length bounds) = n_pes - 1 → Sorted Z.le bounds →
  0 ≤ node_id ≤ upper_bound bounds key →
  advance n_pes bounds key node_id
  = Some (Z.min (upper_bound bounds key) (node_id + 1)).
Proof.
  intros Hlen Hs Hnode. unfold advance.
  pose proof (upper_bound_range bounds key) as Hub.
  destruct (Z.ltb_spec node_id (n_pes - 1)) as [Hlt|Hge].
  - rewrite getitem_nonneg by lia.
    destruct (lookup_lt_is_Some_2 bounds (Z.to_nat node_id) ltac:(lia)) as [b Hb].
    rewrite Hb. simpl. f_equal.
    pose proof (upper_bound_sorted bounds key _ b Hs Hb) as Hiff.
    rewrite Z2Nat.id in Hiff by lia.
    destruct (Z.leb_spec b key) as [Hle|Hgt]; [|lia].
    apply Hiff in Hle. lia.
  - f_equal. lia.
Qed.

Lemma route_loop_capped (n_pes : Z) (bounds : list Z) (keys : list Z) :
  ∀ (node_id : Z) (m : ShuffleMeta) dests m',
  Z.of_nat (length bounds) = n_pes - 1 → Sorted Z.le bounds → Sorted Z.le keys →
  0 ≤ node_id → Forall (λ key, node_id ≤ upper_bound bounds key) keys →
  route_loop n_pes bounds keys node_id m = Some (dests, m') →
  (∀ (i : nat) key, keys !! i = Some key →
     dests !! i = Some (Z.min (upper_bound bounds key) (node_before node_id dests i + 1)))
  ∧ Forall2 (λ key d, d ≤ upper_bound bounds key) keys dests.
Proof.
  induction keys as [|key keys IH]; intros node_id m dests m' Hlen Hs Hk Hn Hall Hr.
  { simpl in Hr. simplify_eq. split; [done|constructor]. }
  simpl in Hr. apply Forall_cons in Hall as [Hkey Hall].
  rewrite advance_capped in Hr by (done || lia). simpl in Hr.
  set (node_id' := Z.min (upper_bound bounds key) (node_id + 1)) in *.
  destruct (update_shuffle_meta m node_id') as [m1|]; [|done]. simpl in Hr.
  destruct (route_loop n_pes bounds keys node_id' m1) as [[dests' m'']|] eqn:Hrest;
    [|done].
  simpl in Hr. simplify_eq.
  apply (Sorted_StronglySorted _) in Hk. apply StronglySorted_inv in Hk as [Hk Hhd].
  apply IH in Hrest as [Hstep Hle]; [|done|done|by apply StronglySorted_Sorted|lia|].
  - split.
    + intros [|i] key' Hi; simplify_eq/=; [done|].
      rewrite (Hstep i key' Hi). do 2 f_equal. by destruct i.
    + constructor; [lia|done].
  - apply Forall_forall. intros key' Hkey'.
    rewrite Forall_forall in Hhd.
    pose proof (upper_bound_mono bounds key key' (Hhd key' Hkey')). lia.
Qed.

(** X12: on keys in order and bounds in order the scan does not raise and
    gives every key the number of bounds less than or equal to it, capped at
    one more than the destination of the key before it (at 1 for the first
    key); no key is sent past the worker its bounds assign to it. *)
Theorem scan_is_the_capped_lookup (key_arr bounds : list Z) (n_pes : Z) :
  Z.of_nat (length bounds) = n_pes - 1 →
  Sorted Z.le key_arr → Sorted Z.le bounds →
  ∃ dests m,
    route key_arr n_pes bounds = Some (dests, m)
    ∧ (∀ (i : nat) key, key_arr !! i = Some key →
         dests !! i
         = Some (Z.min (upper_bound bounds key) (node_before 0 dests i + 1)))
    ∧ Forall2 (λ key d, d ≤ upper_bound bounds key) key_arr dests.
Proof.
  intros Hlen Hk Hs.
  destruct (route_Some key_arr n_pes bounds ltac:(lia) Hlen) as (dests & m & Hr & _).
  exists dests, m. split; [done|].
  unfold route, alloc_shuffle_metadata in Hr.
  rewrite np_zeros_Some in Hr by lia. simpl in Hr.
  eapply route_loop_capped; [done|done|done|lia| |exact Hr].
  apply Forall_forall. intros key _. apply upper_bound_range.
Qed.

Lemma scan_is_the_capped_lookup_witness :
  ∃ dests m,
    route [1; 9; 9] 4 [2; 3; 5] = Some (dests, m)
    ∧ (∀ (i : nat) key, [1; 9; 9] !! i = Some key →
         dests !! i
         = Some (Z.min (upper_bound [2; 3; 5] key) (node_before 0 dests i + 1)))
    ∧ Forall2 (λ key d, d ≤ upper_bound [2; 3; 5] key) [1; 9; 9] dests.
Proof.
  apply (scan_is_the_capped_lookup [1; 9; 9] [2; 3; 5] 4).
  - reflexivity.
  - repeat constructor; lia.
  - repeat constructor; lia.
Defined.

(** ** The slices of keys in order *)

Lemma filter_lt_succ_length (l : list Z) (w : Z) :
  length (filter (λ x : Z, x < w + 1) l)
  = Nat.add (length (filter (λ x : Z, x < w) l)) (length (filter (λ x : Z, x = w) l)).
Proof.
  induction l as [|x l IH]; [done|].
  rewrite !filter_cons.
  destruct (decide (x < w + 1)), (decide (x < w)), (decide (x = w)); simpl; lia.
Qed.

Lemma sum_take_count_dest (dests sc : list Z) (w : nat) :
  Forall (Z.le 0) dests →
  (∀ d : nat, (d < w)%nat → sc !! d = Some (count_dest (Z.of_nat d) dests)) →
  Py.sum (take w sc) = Z.of_nat (length (filter (λ x, x < Z.of_nat w) dests)).
Proof.
  intros Hnn. induction w as [|w IH]; intros Hsc.
  - rewrite take_0. rewrite filter_Forall_nil; [done|].
    eapply Forall_impl; [exact Hnn|]. simpl. lia.
  - rewrite (sum_take_S _ _ _ (Hsc w ltac:(lia))).
    rewrite IH by (intros d Hd; apply Hsc; lia).
    unfold count_dest. rewrite Nat2Z.inj_succ, <-Z.add_1_r.
    rewrite filter_lt_succ_length. lia.
Qed.

Lemma Sorted_filter_lt_prefix (l : list Z) (w : Z) :
  Sorted Z.le l → ∀ (i : nat) x, l !! i = Some x →
  Nat.lt i (length (filter (λ y : Z, y < w) l)) ↔ x < w.
Proof.
  intros Hs. apply (Sorted_StronglySorted _) in Hs.
  induction Hs as [|a l Hs IH Hall]; intros i x Hi; [done|].
  rewrite filter_cons. destruct (decide (a < w)) as [Ha|Ha].
  - destruct i as [|i]; simplify_eq/=; [split; [done|lia]|].
    rewrite <-(IH i x Hi). lia.
  - rewrite filter_Forall_nil.
    + simpl. split; [lia|]. intros Hx. exfalso.
      destruct i as [|i]; simplify_eq/=; [lia|].
      rewrite Forall_forall in Hall.
      pose proof (Hall x (list_elem_of_lookup_2 _ _ _ Hi)). lia.
    + eapply Forall_impl; [exact Hall|]. simpl. lia.
Qed.

Lemma slice_for_dests (dests sc : list Z) (n_pes : Z) (w : nat) :
  Sorted Z.le dests → Forall (λ d, 0 ≤ d < n_pes) dests →
  (∀ d : nat, Z.of_nat d < n_pes → sc !! d = Some (count_dest (Z.of_nat d) dests)) →
  Z.of_nat w < n_pes →
  Forall (λ d, d = Z.of_nat w) (slice_for sc w dests).
Proof.
  intros Hs Hrange Hsc Hw. unfold slice_for.
  assert (Forall (Z.le 0) dests) as Hnn.
  { eapply Forall_impl; [exact Hrange|]. simpl. lia. }
  pose proof (Hsc w Hw) as Hcw.
  rewrite (list_lookup_total_correct _ _ _ Hcw).
  assert (calc_disp sc !!! w
          = Z.of_nat (length (filter (λ x, x < Z.of_nat w) dests))) as ->.
  { apply list_lookup_total_correct. rewrite calc_disp_lookup.
    - f_equal. apply sum_take_count_dest; [done|]. intros d Hd. apply Hsc. lia.
    - by apply lookup_lt_Some in Hcw. }
  rewrite Nat2Z.id. unfold count_dest. rewrite Nat2Z.id.
  apply Forall_lookup. intros j x Hj.
  apply lookup_take_Some in Hj as [Hj Hjc]. rewrite lookup_drop in Hj.
  pose proof (Sorted_filter_lt_prefix dests (Z.of_nat w) Hs _ x Hj) as Hlo.
  pose proof (Sorted_filter_lt_prefix dests (Z.of_nat w + 1) Hs _ x Hj) as Hhi.
  rewrite filter_lt_succ_length in Hhi. lia.
Qed.

Lemma slice_for_lookup_keys (keys bounds : list Z) (n_pes : Z) (m : ShuffleMeta) (w : nat) :
  1 ≤ n_pes → Z.of_nat (length bounds) = n_pes - 1 →
  Z.of_nat (length keys) < 2 ^ 31 →
  route keys n_pes bounds = Some (upper_bound bounds <$> keys, m) →
  Z.of_nat w < n_pes →
  Forall (λ k, upper_bound bounds k = Z.of_nat w) (slice_for (send_counts m) w keys).
Proof.
  intros Hn Hlen H32 Hr Hw.
  destruct (route_Some keys n_pes bounds Hn Hlen) as (dests & m0 & Hr' & _ & Hrange & Hs & _).
  rewrite Hr in Hr'. simplify_eq.
  destruct (route_counts _ _ _ _ _ Hr H32) as [Hcounts _].
  pose proof (slice_for_dests _ _ n_pes w Hs Hrange Hcounts Hw) as Hall.
  rewrite slice_for_fmap in Hall. by apply Forall_fmap in Hall.
Qed.

Lemma received_slices {A} (P : A → Prop) (scs : list (list Z)) (w : nat)
    (bufs : list (list A)) :
  (∀ (s : nat) sc buf, scs !! s = Some sc → bufs !! s = Some buf →
     Forall P (slice_for sc w buf)) →
  Forall P (received scs w bufs).
Proof.
  intros Hall. unfold received. apply Forall_concat, Forall_lookup.
  intros s l Hl. apply lookup_zip_with_Some in Hl as (sc & buf & -> & Hsc & Hbuf).
  by eapply Hall.
Qed.

Lemma Sorted_concat_blocks (f : Z → Z) (L : list (list Z)) :
  (∀ x y, x ≤ y → f x ≤ f y) →
  ∀ o : nat,
  (∀ (i : nat) l, L !! i = Some l →
     Sorted Z.le l ∧ Forall (λ k, f k = Z.of_nat (o + i)) l) →
  Sorted Z.le (concat L).
Proof.
  intros Hmono. induction L as [|l L IH]; intros o HL; [constructor|].
  simpl. destruct (HL 0%nat l eq_refl) as [Hl Hfl].
  apply StronglySorted_Sorted, StronglySorted_app_2.
  - intros x y Hx Hy. rewrite Forall_forall in Hfl. pose proof (Hfl x Hx) as Hfx.
    apply list_elem_of_In, in_concat in Hy as (l' & Hl' & Hy).
    apply list_elem_of_In in Hl', Hy.
    apply list_elem_of_lookup in Hl' as [i Hl'].
    destruct (HL (S i) l' Hl') as [_ Hf]. rewrite Forall_forall in Hf.
    pose proof (Hf y Hy) as Hfy.
    destruct (Z.le_gt_cases x y) as [|Hgt]; [done|].
    pose proof (Hmono y x ltac:(lia)). lia.
  - by apply (Sorted_StronglySorted _).
  - apply (Sorted_StronglySorted _). apply (IH (S o)).
    intros i l' Hl'. destruct (HL (S i) l' Hl') as [? Hf]. split; [done|].
    eapply Forall_impl; [exact Hf|]. simpl. intros k ->. lia.
Qed.

Lemma route_upper_bound (key_arr bounds : list Z) (n_pes : Z) :
  Z.of_nat (length bounds) = n_pes - 1 →
  Sorted Z.le key_arr → Sorted Z.le bounds →
  steps_le_one 0 (upper_bound bounds <$> key_arr) →
  ∃ m, route key_arr n_pes bounds = Some (upper_bound bounds <$> key_arr, m).
Proof.
  intros Hb Hk Hs Hst. unfold route, alloc_shuffle_metadata.
  rewrite np_zeros_Some by lia. simpl.
  apply route_loop_upper_bound; try done.
  - simpl. rewrite length_replicate. lia.
  - apply Forall_forall. intros key _. apply upper_bound_range.
Qed.

Lemma steps_le_one_single_bound (bounds keys : list Z) :
  Z.of_nat (length bounds) ≤ 1 →
  ∀ prev, 0 ≤ prev → steps_le_one prev (upper_bound bounds <$> keys).
Proof.
  intros Hlen. induction keys as [|key keys IH]; intros prev Hprev; [done|].
  pose proof (upper_bound_range bounds key). csimpl. split; [lia|].
  apply IH. lia.
Qed.

(** ** The order of the result *)

Section Order.
Context {V : Type} `{!Inhabited V}.
Implicit Types (x : Worker V) (world : list (Worker V)).

Lemma exchanged_lookup_keys world (bounds : list Z) (scs : list (list Z)) :
  Z.of_nat (length bounds) = Z.of_nat (length world) - 1 → Sorted Z.le bounds →
  Forall2 (λ x sc, ∃ r, route (key_arr x) (Z.of_nat (length world)) bounds = Some r
                        ∧ send_counts r.2 = sc) world scs →
  Forall (λ x, Z.of_nat (length (key_arr x)) < 2 ^ 31) world →
  Forall (λ x, Sorted Z.le (key_arr x)) world →
  Forall (λ x, steps_le_one 0 (upper_bound bounds <$> key_arr x)) world →
  ∀ (w : nat) x, exchanged scs world !! w = Some x →
    Forall (λ k, upper_bound bounds k = Z.of_nat w) (key_arr x).
Proof.
  intros Hblen Hbs Hroute H32 Hsorted Hsteps w x Hx.
  unfold exchanged in Hx. rewrite list_lookup_imap in Hx.
  destruct (world !! w) as [xw|] eqn:Hxw; simplify_eq/=.
  pose proof (lookup_lt_Some _ _ _ Hxw) as Hw.
  apply received_slices. intros s sc buf Hsc Hbuf.
  rewrite list_lookup_fmap in Hbuf.
  destruct (world !! s) as [y|] eqn:Hy; simplify_eq/=.
  destruct (Forall2_lookup_lr _ _ _ _ _ _ Hroute Hy Hsc) as (r & Hr & <-).
  destruct (route_upper_bound (key_arr y) bounds (Z.of_nat (length world)))
    as (m & Hm); [done| |done| |].
  { by eapply (Forall_lookup_1 _ _ _ _ Hsorted). }
  { by eapply (Forall_lookup_1 _ _ _ _ Hsteps). }
  rewrite Hm in Hr. simplify_eq. simpl.
  eapply slice_for_lookup_keys; [|done| |done|]; [lia| |lia].
  by eapply (Forall_lookup_1 _ _ _ _ H32).
Qed.

Lemma sort_impl_keys_sorted world :
  Forall (λ x, Sorted Z.le (key_arr x)) (sort_impl <$> world).
Proof.
  apply Forall_forall. intros y Hy. apply list_elem_of_fmap in Hy as (x & -> & _).
  rewrite sort_impl_eq. simpl. apply ndarray_sort_sorted.
Qed.

Lemma sort_impl_keys_Forall (P : Z → Prop) x :
  Forall P (key_arr x) → Forall P (key_arr (sort_impl x)).
Proof.
  intros HP. rewrite sort_impl_eq. simpl. by rewrite ndarray_sort_perm.
Qed.

Lemma all_keys_sorted_by_lookup world (bounds : list Z) :
  (∀ (w : nat) x, world !! w = Some x →
     Forall (λ k, upper_bound bounds k = Z.of_nat w) (key_arr x)) →
  Sorted Z.le (all_keys (sort_impl <$> world)).
Proof.
  intros Hall. unfold all_keys.
  apply (Sorted_concat_blocks (upper_bound bounds) _ (upper_bound_mono bounds) 0).
  intros w l Hl. rewrite !list_lookup_fmap in Hl.
  destruct (world !! w) as [x|] eqn:Hx; [|done].
  assert (l = key_arr (sort_impl x)) as -> by (by injection Hl).
  split.
  - rewrite sort_impl_eq. simpl. apply ndarray_sort_sorted.
  - apply sort_impl_keys_Forall. by apply Hall.
Qed.

Lemma all_rows_all_keys world : (all_rows world).*1 = all_keys world.
Proof.
  unfold all_rows, all_keys. rewrite <-concat_fmap_fmap, <-list_fmap_compose.
  f_equal. apply list_fmap_ext. intros _ x _. simpl.
  unfold rows_of. rewrite fmap_imap.
  rewrite (imap_ext _ (const id)) by done.
  by rewrite imap_const, list_fmap_id.
Qed.

Lemma all_keys_in_order world world' :
  all_rows world' ≡ₚ all_rows world → Sorted Z.le (all_keys world') →
  all_keys world' = ndarray_sort (all_keys world).
Proof.
  intros Hrows Hs. apply (Sorted_unique Z.le); [done|apply ndarray_sort_sorted|].
  rewrite ndarray_sort_perm, <-!all_rows_all_keys. by rewrite Hrows.
Qed.

Lemma par_sort_impl_order (rng : nat → nat → Z) world (N : nat) tr :
  world ≠ [] → Forall (wf_worker N) world →
  Forall (λ x, Z.of_nat (length (key_arr x)) < 2 ^ 31) world →
  all_keys world ≠ [] ∨ length world = 1%nat →
  Forall (λ x, Sorted Z.le (key_arr x)) world →
  ∃ samples bounds out,
    mapM id (imap (λ r w, draw_samples (rng r) (Z.of_nat (length world))
                            (Py.sum ((λ w, Z.of_nat (length (key_arr w))) <$> world))
                            (key_arr w)) world) = Some samples
    ∧ local_bounds MPI_ROOT (concat samples) (Z.of_nat (length world)) = Some bounds
    ∧ Z.of_nat (length bounds) = Z.of_nat (length world) - 1
    ∧ par_sort_impl rng world tr = Some (out, tr ++ shuffle_trace)
    ∧ length out = length world
    ∧ Forall (wf_worker N) out
    ∧ Forall (λ x, Sorted Z.le (key_arr x)) out
    ∧ all_rows out ≡ₚ all_rows world
    ∧ (Forall (λ x, steps_le_one 0 (upper_bound bounds <$> key_arr x)) world →
       Sorted Z.le (all_keys out)
       ∧ ∀ (w : nat) x, out !! w = Some x →
           Forall (λ k, upper_bound bounds k = Z.of_nat w) (key_arr x)).
Proof.
  intros Hne Hwf H32 Hcase Hsorted.
  destruct (parallel_sort_run rng world N tr Hne Hwf H32 Hcase)
    as (samples & bounds & scs & Hsamples & Hbounds & Hblen & Hbs & Hroute & Hok & Hsum & Hps).
  exists samples, bounds, (sort_impl <$> exchanged scs world).
  split; [done|]. split; [done|]. split; [done|]. split.
  { unfold par_sort_impl, mbind, M_bind. by rewrite Hps. }
  split; [unfold exchanged; by rewrite length_fmap, length_imap|].
  assert (Forall (wf_worker N) (exchanged scs world)) as Hwf' by (by apply exchanged_wf).
  split.
  { apply Forall_fmap. eapply Forall_impl; [exact Hwf'|]. apply sort_impl_wf. }
  split; [apply sort_impl_keys_sorted|]. split.
  { rewrite (all_rows_sort_impl N) by done. by apply (all_rows_exchanged scs _ N). }
  intros Hsteps.
  pose proof (exchanged_lookup_keys world bounds scs Hblen Hbs Hroute H32 Hsorted Hsteps)
    as Hkeys.
  split; [by eapply all_keys_sorted_by_lookup|].
  intros w x Hx. rewrite list_lookup_fmap in Hx.
  destruct (exchanged scs world !! w) as [y|] eqn:Hy; [|done].
  assert (x = sort_impl y) as -> by (by injection Hx).
  apply sort_impl_keys_Forall. by eapply Hkeys.
Qed.

End Order.

Section OrderClaims.
Context {V : Type} `{!Inhabited V}.
Implicit Types (x : Worker V) (world : list (Worker V)).

Lemma exec_parallel_nodes_par (rng : nat → nat → Z) (key : string) (cols : list string)
    world tr :
  exec_nodes rng [SortImpl key cols; TupImpl cols; ParSortImpl key cols] world tr
  = par_sort_impl rng (sort_impl <$> world) tr.
Proof.
  simpl. unfold mbind, M_bind, mret, M_ret.
  by destruct (par_sort_impl rng (sort_impl <$> world) tr) as [[outs tr']|].
Qed.

Lemma sort_impl_world_ok world (N : nat) :
  world ≠ [] → Forall (wf_worker N) world →
  Forall (λ x, Z.of_nat (length (key_arr x)) < 2 ^ 31) world →
  all_keys world ≠ [] ∨ length world = 1%nat →
  sort_impl <$> world ≠ []
  ∧ Forall (wf_worker N) (sort_impl <$> world)
  ∧ Forall (λ x, Z.of_nat (length (key_arr x)) < 2 ^ 31) (sort_impl <$> world)
  ∧ (all_keys (sort_impl <$> world) ≠ [] ∨ length (sort_impl <$> world) = 1%nat).
Proof.
  intros Hne Hwf H32 Hcase. split_and!.
  - by destruct world.
  - apply Forall_fmap. eapply Forall_impl; [exact Hwf|]. apply sort_impl_wf.
  - apply Forall_fmap. eapply Forall_impl; [exact H32|].
    intros x Hx. unfold compose. by rewrite sort_impl_length.
  - destruct Hcase as [Hk|Hl]; [left; by apply all_keys_sort_impl_nil|right].
    by rewrite length_fmap.
Qed.

(** X13: a sort call that takes either path returns, on every worker, keys
    in non-decreasing order and columns as long as the keys; the number of
    workers is unchanged. The order holds on each worker also when the
    result as a whole is not in order. *)
Theorem every_worker_ends_in_order (rng : nat → nat → Z) (sort_node : Sort)
    (array_dists : gmap string Distribution) world (N : nat) tr :
  is_Some (sort_distributed_run sort_node array_dists) →
  world ≠ [] → Forall (wf_worker N) world →
  Forall (λ x, Z.of_nat (length (key_arr x)) < 2 ^ 31) world →
  all_keys world ≠ [] ∨ length world = 1%nat →
  ∃ out tr',
    sort_call rng sort_node array_dists world tr = Some (out, tr')
    ∧ length out = length world
    ∧ Forall (wf_worker N) out
    ∧ Forall (λ x, Sorted Z.le (key_arr x)) out.
Proof.
  intros [nodes Hnodes] Hne Hwf H32 Hcase. rewrite sort_call_eq, Hnodes.
  apply sort_distributed_run_nodes in Hnodes as [->| ->].
  - exists (sort_impl <$> world), tr. split; [done|].
    split; [by rewrite length_fmap|]. split; [|apply sort_impl_keys_sorted].
    apply Forall_fmap. eapply Forall_impl; [exact Hwf|]. apply sort_impl_wf.
  - rewrite exec_parallel_nodes_par.
    destruct (sort_impl_world_ok world N Hne Hwf H32 Hcase) as (Hne' & Hwf' & H32' & Hcase').
    destruct (par_sort_impl_order rng (sort_impl <$> world) N tr Hne' Hwf' H32' Hcase'
                (sort_impl_keys_sorted world))
      as (samples & bounds & out & _ & _ & _ & Hrun & Hlen & Hwfo & Hso & _).
    exists out, (tr ++ shuffle_trace). split; [done|].
    split; [by rewrite Hlen, length_fmap|done].
Qed.

(** X14: [par_sort_impl] on workers whose keys are in order, with the bounds
    the root computes from the samples drawn: when on every worker no key has
    more than one bound up to it beyond those of the key before it, the keys
    of the result, read in rank order, are the keys of the input in
    non-decreasing order, worker [w] holds the keys with exactly [w] bounds
    less than or equal to them, and the rows are those of the input. *)
Theorem sorted_when_the_scan_is_the_lookup (rng : nat → nat → Z) world (N : nat) tr
    (samples : list (list Z)) (bounds : list Z) :
  world ≠ [] → Forall (wf_worker N) world →
  Forall (λ x, Z.of_nat (length (key_arr x)) < 2 ^ 31) world →
  all_keys world ≠ [] ∨ length world = 1%nat →
  Forall (λ x, Sorted Z.le (key_arr x)) world →
  mapM id (imap (λ r w, draw_samples (rng r) (Z.of_nat (length world))
                          (Py.sum ((λ w, Z.of_nat (length (key_arr w))) <$> world))
                          (key_arr w)) world) = Some samples →
  local_bounds MPI_ROOT (concat samples) (Z.of_nat (length world)) = Some bounds →
  Forall (λ x, steps_le_one 0 (upper_bound bounds <$> key_arr x)) world →
  ∃ out,
    par_sort_impl rng world tr = Some (out, tr ++ shuffle_trace)
    ∧ Sorted Z.le (all_keys out)
    ∧ all_keys out = ndarray_sort (all_keys world)
    ∧ (∀ (w : nat) x, out !! w = Some x →
         Forall (λ k, upper_bound bounds k = Z.of_nat w) (key_arr x))
    ∧ all_rows out ≡ₚ all_rows world.
Proof.
  intros Hne Hwf H32 Hcase Hsorted Hsamples Hbounds Hsteps.
  destruct (par_sort_impl_order rng world N tr Hne Hwf H32 Hcase Hsorted)
    as (samples' & bounds' & out & Hsamples' & Hbounds' & _ & Hrun & _ & _ & _ & Hrows & Hord).
  assert (samples' = samples) as -> by congruence.
  assert (bounds' = bounds) as -> by congruence.
  destruct (Hord Hsteps) as [Hs Hk].
  exists out. split; [done|]. split; [done|].
  split; [by apply all_keys_in_order|done].
Qed.

(** X15: with one or two workers and every array partitioned, the sort call
    returns, read in rank order, the keys of the input in non-decreasing
    order, whatever the samples drawn, and the rows of the input. *)
Theorem two_workers_sort_globally (rng : nat → nat → Z) (sort_node : Sort)
    (array_dists : gmap string Distribution) (in_dist common : Distribution)
    world (N : nat) tr :
  array_dists !! sort_key_arr sort_node = Some in_dist →
  common_dist array_dists in_dist (df_vars sort_node).*2 = Some common →
  common ≠ REP →
  world ≠ [] → (length world ≤ 2)%nat → Forall (wf_worker N) world →
  Forall (λ x, Z.of_nat (length (key_arr x)) < 2 ^ 31) world →
  all_keys world ≠ [] ∨ length world = 1%nat →
  ∃ out,
    sort_call rng sort_node array_dists world tr = Some (out, tr ++ shuffle_trace)
    ∧ Sorted Z.le (all_keys out)
    ∧ all_keys out = ndarray_sort (all_keys world)
    ∧ all_rows out ≡ₚ all_rows world.
Proof.
  intros Hk Hc Hrep Hne Hlen Hwf H32 Hcase. rewrite sort_call_eq.
  rewrite (sort_distributed_run_spec _ _ _ _ Hk Hc), decide_False by done.
  rewrite exec_parallel_nodes_par.
  destruct (sort_impl_world_ok world N Hne Hwf H32 Hcase) as (Hne' & Hwf' & H32' & Hcase').
  destruct (par_sort_impl_order rng (sort_impl <$> world) N tr Hne' Hwf' H32' Hcase'
              (sort_impl_keys_sorted world))
    as (samples & bounds & out & _ & _ & Hblen & Hrun & _ & _ & _ & Hrows & Hord).
  assert (Sorted Z.le (all_keys out)) as Hs.
  { apply Hord. apply Forall_forall. intros x _.
    apply steps_le_one_single_bound; [|done].
    rewrite length_fmap in Hblen. lia. }
  assert (all_rows out ≡ₚ all_rows world) as Hrows'.
  { rewrite Hrows. by apply (all_rows_sort_impl N). }
  exists out. split; [done|]. split; [done|].
  split; [by apply all_keys_in_order|done].
Qed.

End OrderClaims.

Lemma every_worker_ends_in_order_witness :
  ∃ out tr',
    sort_call rng_low example_node partitioned_dists three_workers [] = Some (out, tr')
    ∧ length out = length three_workers
    ∧ Forall (wf_worker 1) out
    ∧ Forall (λ x, Sorted Z.le (key_arr x)) out.
Proof.
  apply (every_worker_ends_in_order rng_low example_node partitioned_dists
           three_workers 1 []).
  - eexists. reflexivity.
  - discriminate.
  - repeat constructor.
  - repeat constructor; vm_compute; reflexivity.
  - left. discriminate.
Defined.

Lemma sorted_when_the_scan_is_the_lookup_witness :
  ∃ out,
    par_sort_impl rng_count striped_workers [] = Some (out, [] ++ shuffle_trace)
    ∧ Sorted Z.le (all_keys out)
    ∧ all_keys out = ndarray_sort (all_keys striped_workers)
    ∧ (∀ (w : nat) x, out !! w = Some x →
         Forall (λ k, upper_bound [4; 7] k = Z.of_nat w) (key_arr x))
    ∧ all_rows out ≡ₚ all_rows striped_workers.
Proof.
  apply (sorted_when_the_scan_is_the_lookup rng_count striped_workers 1 []
           [[1; 4; 7]; [2; 5; 8]; [3; 6; 9]] [4; 7]).
  - discriminate.
  - repeat constructor.
  - repeat constructor; vm_compute; reflexivity.
  - left. discriminate.
  - repeat constructor; lia.
  - vm_compute. reflexivity.
  - vm_compute. reflexivity.
  - vm_compute. repeat constructor; discriminate.
Defined.

Lemma two_workers_sort_globally_witness :
  ∃ out,
    sort_call rng_count example_node partitioned_dists two_workers []
    = Some (out, [] ++ shuffle_trace)
    ∧ Sorted Z.le (all_keys out)
    ∧ all_keys out = ndarray_sort (all_keys two_workers)
    ∧ all_rows out ≡ₚ all_rows two_workers.
Proof.
  apply (two_workers_sort_globally rng_count example_node partitioned_dists
           OneD OneD_Var two_workers 1 []).
  - reflexivity.
  - reflexivity.
  - discriminate.
  - discriminate.
  - simpl. lia.
  - repeat constructor.
  - repeat constructor; vm_compute; reflexivity.
  - left. discriminate.
Defined.

(** ** The samples and the bounds *)




Section Samples.
Context {V : Type} `{!Inhabited V}.
Implicit Types (x : Worker V) (world : list (Worker V)).








End Samples.



(** ** Fewer samples than workers *)

Lemma ceil_div_one (a b : Z) : 1 ≤ a ≤ b → Py.ceil_div a b = Some 1.
Proof.
  intros Hab. destruct (ceil_div_nonneg a b) as (step & Hstep & _); [lia..|].
  pose proof (ceil_div_spec a b step ltac:(lia) Hstep). rewrite Hstep. f_equal. nia.
Qed.

(** X18: when the root has gathered at least one sample but no more samples
    than there are workers, the stride is 1: bound [i] is the sample at
    index [min(i + 1, n_samples - 1)] of the samples in order, so that there
    are still [n_pes - 1] bounds, and from index [n_samples - 2] on every
    bound is the largest sample. *)
Theorem few_samples_repeat_the_largest (all_samples : list Z) (n_pes : Z) :
  all_samples ≠ [] → Z.of_nat (length all_samples) ≤ n_pes →
  let n_samples := Z.of_nat (length all_samples) in
  ∃ bounds largest,
    Py.ceil_div n_samples n_pes = Some 1
    ∧ local_bounds MPI_ROOT all_samples n_pes = Some bounds
    ∧ Z.of_nat (length bounds) = n_pes - 1
    ∧ (∀ i : nat, Z.of_nat i < n_pes - 1 →
         bounds !! i
         = ndarray_sort all_samples !! Z.to_nat (Z.min (Z.of_nat i + 1) (n_samples - 1)))
    ∧ last (ndarray_sort all_samples) = Some largest
    ∧ Forall (λ s, s ≤ largest) all_samples
    ∧ (∀ i : nat, n_samples - 2 ≤ Z.of_nat i < n_pes - 1 → bounds !! i = Some largest).
Proof.
  intros Hne Hle n_samples.
  assert (1 ≤ n_samples) as H1 by (unfold n_samples; destruct all_samples; simpl; [done|lia]).
  pose proof (ceil_div_one n_samples n_pes ltac:(lia)) as Hstep.
  unfold local_bounds, empty_like_type.
  destruct (Z.ltb_spec (n_pes - 1) 0); [lia|]. simpl.
  destruct (root_bounds_spec all_samples n_pes (replicate (Z.to_nat (n_pes - 1)) 0))
    as (step & bounds & Hstep' & _ & Hb & Hlen & Hcut & _); [lia|done| |].
  { rewrite length_replicate. lia. }
  fold n_samples in Hstep', Hcut. rewrite Hstep in Hstep'. simplify_eq.
  pose proof (ndarray_sort_length all_samples) as Hsl.
  destruct (lookup_lt_is_Some_2 (ndarray_sort all_samples) (Z.to_nat (n_samples - 1)))
    as [largest Hl]; [unfold n_samples in *; lia|].
  assert (∀ i : nat, Z.of_nat i < n_pes - 1 →
            bounds !! i = ndarray_sort all_samples
                            !! Z.to_nat (Z.min (Z.of_nat i + 1) (n_samples - 1))) as Hcut'.
  { intros i Hi. rewrite (Hcut i Hi). do 2 f_equal. lia. }
  exists bounds, largest. split_and!; [done..| | |].
  - rewrite last_lookup. rewrite <-Hl. f_equal. unfold n_samples. lia.
  - rewrite <-(ndarray_sort_perm all_samples). apply Forall_lookup. intros j s Hj.
    eapply (Sorted_Z_lookup _ j _ s largest (ndarray_sort_sorted all_samples));
      [|done|done].
    apply lookup_lt_Some in Hj. unfold n_samples in *. lia.
  - intros i Hi. rewrite Hcut' by lia. rewrite <-Hl. f_equal. lia.
Qed.

Lemma few_samples_repeat_the_largest_witness :
  ∃ bounds largest,
    Py.ceil_div 2 4 = Some 1
    ∧ local_bounds MPI_ROOT [8; 3] 4 = Some bounds
    ∧ Z.of_nat (length bounds) = 4 - 1
    ∧ (∀ i : nat, Z.of_nat i < 4 - 1 →
         bounds !! i
         = ndarray_sort [8; 3] !! Z.to_nat (Z.min (Z.of_nat i + 1) (2 - 1)))
    ∧ last (ndarray_sort [8; 3]) = Some largest
    ∧ Forall (λ s, s ≤ largest) [8; 3]
    ∧ (∀ i : nat, 2 - 2 ≤ Z.of_nat i < 4 - 1 → bounds !! i = Some largest).
Proof.
  apply (few_samples_repeat_the_largest [8; 3] 4); [discriminate|simpl; lia].
Defined.
